(** * OpenMuse NBA pipeline: retry, checkpoint, breaker, batching

  A shallow embedding of the parts of the OpenMuse data pipeline that
  carry correctness requirements, with the properties the specification
  states about them and further properties read off the code.

  The program:
  - [Retry]      [call_with_retries]              (nba/collector.py)
  - [Embeddings] [generate_embeddings_batch],
                 [process_file]                   (nba_embeddings_generator.py)
  - [EmbeddingsFiles] [process_combined_file],
                 [process_all_files]              (nba_embeddings_generator.py)
  - [Mongo]      [connect], [disconnect], [check_vector_index],
                 [create_vector_index], [clear_collection]
                                                  (both connectors)
  - [Connector]  [upload_documents]               (nba/connector.py)
  - [LegacyConnector] [upload_documents]          (nba_mongodb_connector.py)
  - [ConnectorFiles] [upload_file], [upload_combined_file]
                                                  (nba/connector.py),
                 [upload_to_database]             (nba/populate.py)
  - [Collector]  [_already_collected_ids], [_get_with_cache],
                 [process_player], [process_team],
                 the bulk drivers                 (nba/collector.py)
  - [League]     [collect_league_data],
                 [collect_recent_game_data]       (nba/collector.py)

  Remote collaborators (the statistics API, the embedding service, the
  document store, the file system) are oracles: functions giving the
  outcome of each call.  The functions of the pipeline are deterministic
  given these outcomes, so quantifying over the oracles covers every
  behaviour of the collaborators.  The worker pool of the bulk drivers is
  the one place with threads; there a run is given by a schedule of
  events.

  Exceptions are the instances of Python's [Exception], the class every
  handler of this code catches.  Delays are whole seconds, as in the
  defaults [initial_delay=2] and [retry_delay=5] and in all the callers;
  [time.sleep] has its documented error, the [ValueError] of a negative
  length, and lengths beyond what the clock of the platform holds are not
  considered.  Writing a file is two steps, [open(path, "w")], which
  makes or empties the file, and [json.dump] into it, so that a dump that
  breaks off leaves a file cut short. *)

From stdpp Require Import base numbers list strings gmap sorting.
From Stdlib Require Import ZArith QArith_base Lia.
From Stdlib Require Import Ascii Decimal DecimalString DecimalPos DecimalZ.

Local Open Scope Z_scope.

(** ** Python values shared by all modules *)
Module Py.

(** Exception classes, all of them subclasses of Python's [Exception]
    (the class the handlers of this code base catch).  [ReqTimeout] and
    [ReqConnectionError] are [requests.exceptions.Timeout] and
    [requests.exceptions.ConnectionError]. *)
Inductive exn_class :=
| ReqTimeout | ReqConnectionError
| TypeError | ValueError | KeyError | IndexError | OSError
| OtherError.

Record exn := Exn { exn_cls : exn_class; exn_msg : string }.

(** Result of evaluating an expression or calling an operation. *)
Inductive outcome (A : Type) :=
| Ok (a : A)
| Raise (e : exn).
Arguments Ok {A} a.
Arguments Raise {A} e.

Definition is_ok {A} (o : outcome A) : bool :=
  match o with Ok _ => true | Raise _ => false end.

(** [raise x] where [x] may be [None]: Python refuses to raise an object
    that is not an exception and raises [TypeError] in its place. *)
Definition raise_None : exn :=
  Exn TypeError "exceptions must derive from BaseException".

Definition py_raise {A} (x : option exn) : outcome A :=
  match x with
  | Some e => Raise e
  | None => Raise raise_None
  end.

(** [range(0, stop, step)] for [stop >= 0].  A zero step is a
    [ValueError]; a negative step gives the empty range. *)
Definition range_step (stop : nat) (step : Z) : outcome (list nat) :=
  if decide (step = 0) then
    Raise (Exn ValueError "range() arg 3 must not be zero")
  else if decide (step < 0) then Ok []
  else
    let s := Z.to_nat step in
    Ok ((λ k, k * s)%nat <$> seq 0 ((stop + s - 1) / s)%nat).

(** [time.sleep(secs)] for a whole number of seconds: a negative length
    is a [ValueError], and nothing is slept. *)
Definition time_sleep (secs : Z) : outcome unit :=
  if decide (secs < 0) then
    Raise (Exn ValueError "sleep length must be non-negative")
  else Ok ().

(** [l[i:i+n]] for [0 <= i] and [0 < n]. *)
Definition slice {A} (l : list A) (i : nat) (n : Z) : list A :=
  take (Z.to_nat n) (drop i l).

End Py.
Export Py.

(** ** The retrying remote caller *)
Module Retry.

(** The wrapped operation.  [accepts_timeout] is the test
    ['timeout' in api_func.__code__.co_varnames]; [invoke k t] is the
    outcome of the [k]-th invocation (counted from 0), with [t] the
    [timeout] keyword when it is passed. *)
Record api_func (A : Type) := ApiFunc {
  accepts_timeout : bool;
  invoke : nat -> option Z -> outcome A
}.
Arguments accepts_timeout {A} _.
Arguments invoke {A} _ _ _.

Inductive event :=
| Called (timeout : option Z)
| LogWarning (network : bool) (attempt max_retries delay : Z) (e : exn)
| Slept (delay : Z)
| LogError (max_retries : Z) (last_exc : option exn).

(** The local variables of [call_with_retries] and the effects so far. *)
Record frame := Frame {
  delay : Z;
  last_exc : option exn;
  calls : nat;
  trace : list event
}.

(** [except (Timeout, ConnectionError)] against [except Exception]. *)
Definition is_network (e : exn) : bool :=
  match exn_cls e with
  | ReqTimeout | ReqConnectionError => true
  | _ => false
  end.

(** The keyword argument of the invocation: [timeout] is passed only to
    an operation that has a variable of that name. *)
Definition kw {A} (f : api_func A) (timeout : Z) : option Z :=
  if accepts_timeout f then Some timeout else None.

(** The body of [for attempt in range(1, max_retries + 1)], for the
    [todo] attempts that remain; [Ok (Some result)] is the [return result]
    inside the loop, [Ok None] is the loop running to its end, and
    [Raise e] is an exception raised inside a handler, which leaves the
    function: the [ValueError] of [time.sleep] on a negative delay. *)
Fixpoint attempts {A} (f : api_func A) (max_retries timeout : Z)
    (todo : nat) (attempt : Z) (fr : frame) : outcome (option A) * frame :=
  match todo with
  | O => (Ok None, fr)
  | S todo' =>
      let fr1 := Frame (delay fr) (last_exc fr) (S (calls fr))
                       (trace fr ++ [Called (kw f timeout)]) in
      match invoke f (calls fr) (kw f timeout) with
      | Ok result => (Ok (Some result), fr1)
      | Raise e =>
          (* both handlers: warn, sleep, double the delay, remember e *)
          let warning :=
            LogWarning (is_network e) attempt max_retries (delay fr) e in
          match time_sleep (delay fr) with
          | Raise e' =>
              (Raise e',
               Frame (delay fr) (last_exc fr) (calls fr1)
                     (trace fr1 ++ [warning]))
          | Ok _ =>
              let fr2 := Frame (delay fr * 2) (Some e) (calls fr1)
                           (trace fr1 ++ [warning; Slept (delay fr)]) in
              attempts f max_retries timeout todo' (attempt + 1) fr2
          end
      end
  end.

Definition run_attempts {A} (f : api_func A)
    (max_retries initial_delay timeout : Z) : outcome (option A) * frame :=
  attempts f max_retries timeout (Z.to_nat max_retries) 1
           (Frame initial_delay None 0 []).

(** [call_with_retries(api_func, max_retries, initial_delay, timeout)]:
    the value returned or the exception raised, and the effects. *)
Definition call_with_retries {A} (f : api_func A)
    (max_retries initial_delay timeout : Z) : outcome A * list event :=
  match run_attempts f max_retries initial_delay timeout with
  | (Ok (Some result), fr) => (Ok result, trace fr)
  | (Ok None, fr) =>
      (py_raise (last_exc fr),
       trace fr ++ [LogError max_retries (last_exc fr)])
  | (Raise e, fr) => (Raise e, trace fr)
  end.

Definition sleeps (tr : list event) : list Z :=
  omap (λ ev, match ev with Slept d => Some d | _ => None end) tr.

Definition invocations (tr : list event) : nat :=
  length (omap (λ ev, match ev with Called t => Some t | _ => None end) tr).

(** [d, 2d, 4d, ...]: the delays of [n] consecutive failed attempts. *)
Fixpoint backoff (n : nat) (d : Z) : list Z :=
  match n with
  | O => []
  | S n' => d :: backoff n' (d * 2)
  end.

End Retry.

(** ** Documents *)
Module Doc.

(** Embedding components are Python floats.  The pipeline only stores and
    copies them, so any carrier does; rationals are used. *)
Definition float : Type := Q.

(** The JSON values found in a document. *)
Inductive value :=
| VStr (s : string)
| VVec (v : list float)
| VOther (json : string).

(** A document is a Python [dict] with string keys. *)
Abbreviation doc := (gmap string value).

End Doc.
Export Doc.

(** ** The embedding batcher *)
Module Embeddings.

(** One element of [response.data]. *)
Record item := Item { index : Z; embedding : list float }.

(** [client.embeddings.create(model, input=batch)]: the outcome of the
    [k]-th call (counted from 0) on [batch]. *)
Definition service : Type := nat -> list value -> outcome (list item).

Inductive event :=
| Created (batch : list value)
| Slept (seconds : Q)
| LogWarning (batch_no attempt retry_limit : Z) (e : exn)
| LogInfo (retry_delay : Z)
| LogError (batch_no retry_limit : Z).

(** [sorted(data, key=lambda x: x.index)].  Python's sort is stable, which
    fixes its result; insertion into the sorted suffix, before the first
    element whose key is not smaller, computes it. *)
Fixpoint insert_by_index (x : item) (l : list item) : list item :=
  match l with
  | [] => [x]
  | y :: l' =>
      if decide (index x <= index y) then x :: l
      else y :: insert_by_index x l'
  end.

Definition sorted (data : list item) : list item :=
  foldr insert_by_index [] data.

(** The response the service owes for a batch whose embeddings are [vs]:
    the [j]-th vector tagged with index [j]. *)
Definition tagged (vs : list (list float)) : list item :=
  imap (λ j v, Item (Z.of_nat j) v) vs.

Record state := State {
  all_embeddings : list (list float);
  created : nat;
  trace : list event
}.

(** The retry loop of one batch, [for attempt in range(retry_limit)], for
    the [todo] attempts that remain.  The only exception that leaves it
    is the one raised inside the handler, by [time.sleep(retry_delay)] on
    a negative delay. *)
Fixpoint embed_batch (create : service) (retry_limit retry_delay : Z)
    (batch_no : Z) (batch : list value)
    (todo : nat) (attempt : Z) (st : state) : outcome unit * state :=
  match todo with
  | O => (Ok (), st)
  | S todo' =>
      let tr := trace st ++ [Created batch] in
      match create (created st) batch with
      | Ok data =>
          let sorted_embeddings := sorted data in
          let batch_embeddings := embedding <$> sorted_embeddings in
          (* extend, pace, break *)
          (Ok (),
           State (all_embeddings st ++ batch_embeddings) (S (created st))
                 (tr ++ [Slept (1 # 2)]))
      | Raise e =>
          let tr := tr ++ [LogWarning batch_no (attempt + 1) retry_limit e] in
          if decide (attempt < retry_limit - 1) then
            match time_sleep retry_delay with
            | Raise e' =>
                (Raise e',
                 State (all_embeddings st) (S (created st))
                       (tr ++ [LogInfo retry_delay]))
            | Ok _ =>
                embed_batch create retry_limit retry_delay batch_no batch
                  todo' (attempt + 1)
                  (State (all_embeddings st) (S (created st))
                         (tr ++ [LogInfo retry_delay;
                                 Slept (inject_Z retry_delay)]))
            end
          else
            (* empty embeddings as placeholders *)
            embed_batch create retry_limit retry_delay batch_no batch
              todo' (attempt + 1)
              (State (all_embeddings st ++ replicate (length batch) [])
                     (S (created st))
                     (tr ++ [LogError batch_no retry_limit]))
      end
  end.

(** [for i in range(0, len(texts), batch_size)], for the [starts] that
    remain. *)
Fixpoint embed_batches (create : service) (texts : list value)
    (batch_size retry_limit retry_delay : Z)
    (starts : list nat) (st : state) : outcome unit * state :=
  match starts with
  | [] => (Ok (), st)
  | i :: starts' =>
      match embed_batch create retry_limit retry_delay
                        (Z.of_nat i `div` batch_size)
                        (slice texts i batch_size)
                        (Z.to_nat retry_limit) 0 st with
      | (Ok _, st') =>
          embed_batches create texts batch_size retry_limit retry_delay
                        starts' st'
      | (Raise e, st') => (Raise e, st')
      end
  end.

(** [generate_embeddings_batch(texts, batch_size, retry_limit, retry_delay)]:
    the list returned (or the exception of [range] or of [time.sleep])
    and the effects. *)
Definition generate_embeddings_batch (create : service) (texts : list value)
    (batch_size retry_limit retry_delay : Z)
  : outcome (list (list float)) * state :=
  let st0 := State [] 0 [] in
  match range_step (length texts) batch_size with
  | Raise e => (Raise e, st0)
  | Ok starts =>
      match embed_batches create texts batch_size retry_limit retry_delay
                          starts st0 with
      | (Ok _, st) => (Ok (all_embeddings st), st)
      | (Raise e, st) => (Raise e, st)
      end
  end.

(** The files [process_file] reads and writes: [json.load] of the input
    file; [open(path, "w")] of the output file, which makes the file, or
    empties the one that is there; and [json.dump] into the opened file,
    with its closing. *)
Record files := Files {
  load : string -> outcome (list doc);
  open_w : string -> outcome unit;
  dump : string -> list doc -> outcome unit
}.

(** What a file opened for writing holds in the end: the whole list
    dumped, or, when the dump broke off, some beginning of its text. *)
Inductive content :=
| Whole (documents : list doc)
| CutShort.

(** [[doc["text"] for doc in documents]]. *)
Fixpoint texts_of (documents : list doc) : outcome (list value) :=
  match documents with
  | [] => Ok []
  | d :: ds =>
      match d !! "text" with
      | None => Raise (Exn KeyError "text")
      | Some t =>
          match texts_of ds with
          | Ok ts => Ok (t :: ts)
          | Raise e => Raise e
          end
      end
  end.

(** Truth value of a list: [if embedding:]. *)
Definition truthy {A} (l : list A) : bool :=
  match l with [] => false | _ :: _ => true end.

(** [for i, embedding in enumerate(embeddings): if embedding:
    documents[i]["embedding"] = embedding], started at index [i]. *)
Fixpoint add_embeddings (documents : list doc) (i : nat)
    (embeddings : list (list float)) : outcome (list doc) :=
  match embeddings with
  | [] => Ok documents
  | e :: es =>
      if truthy e then
        match documents !! i with
        | None => Raise (Exn IndexError "list index out of range")
        | Some d =>
            add_embeddings (<[i := <["embedding" := VVec e]> d]> documents)
                           (S i) es
        end
      else add_embeddings documents (S i) es
  end.

Definition has_embedding (d : doc) : Prop := is_Some (d !! "embedding").

(** What a call of [process_file] leaves behind: the list it returns and
    the file it opened for writing, if any, with what the file holds. *)
Record processed := Processed {
  returned : list doc;
  written : option (string * content);
  service_state : option state
}.

Definition data_path (data_dir filename : string) : string :=
  data_dir +:+ "/" +:+ filename.
Definition output_path (output_dir filename : string) : string :=
  output_dir +:+ "/embedded_" +:+ filename.

(** [process_file(filename)].  The whole body is inside
    [try: ... except Exception: return []]. *)
Definition process_file (fs : files) (create : service)
    (data_dir output_dir filename : string) : processed :=
  match load fs (data_path data_dir filename) with
  | Raise _ => Processed [] None None
  | Ok documents =>
      if negb (truthy documents) then Processed [] None None
      else
        match texts_of documents with
        | Raise _ => Processed [] None None
        | Ok texts =>
            match generate_embeddings_batch create texts 10 3 5 with
            | (Raise _, st) => Processed [] None (Some st)
            | (Ok embeddings, st) =>
                match add_embeddings documents 0 embeddings with
                | Raise _ => Processed [] None (Some st)
                | Ok documents =>
                    let documents_with_embeddings :=
                      filter has_embedding documents in
                    let out := output_path output_dir filename in
                    match open_w fs out with
                    | Raise _ => Processed [] None (Some st)
                    | Ok _ =>
                        match dump fs out documents_with_embeddings with
                        | Raise _ =>
                            Processed [] (Some (out, CutShort)) (Some st)
                        | Ok _ =>
                            Processed documents_with_embeddings
                              (Some (out, Whole documents_with_embeddings))
                              (Some st)
                        end
                    end
                end
            end
        end
  end.

End Embeddings.

(** ** Reference definitions for the embedding stage *)
Module EmbeddingsSpec.
Import Embeddings.

(** The order in which [sorted] leaves a response. *)
Definition index_le (x y : item) : Prop := index x <= index y.

(** A document with its embedding attached, when there is one. *)
Definition attach (d : doc) (e : list float) : doc :=
  if truthy e then <["embedding" := VVec e]> d else d.

(** The embedded documents the stage is meant to keep: each document
    whose embedding is not an empty placeholder, with that embedding. *)
Definition documents_kept (documents : list doc)
    (embeddings : list (list float)) : list doc :=
  omap (λ de, if truthy de.2 then Some (<["embedding" := VVec de.2]> de.1)
              else None)
       (zip documents embeddings).




End EmbeddingsSpec.

(** ** Statements that may raise, over a state *)
Module PyM.

(** A Python statement run in state [S]: its value or the exception it
    raises, and the state it leaves.  Effects made before an exception is
    raised stay. *)
Definition M (S A : Type) : Type := S -> outcome A * S.

Definition ret {S A} (a : A) : M S A := λ s, (Ok a, s).

Definition bind {S A B} (m : M S A) (k : A -> M S B) : M S B :=
  λ s, match m s with
       | (Ok a, s') => k a s'
       | (Raise e, s') => (Raise e, s')
       end.

(** An external call whose outcome is known. *)
Definition call {S A} (o : outcome A) : M S A := λ s, (o, s).

Definition modify {S} (f : S -> S) : M S unit := λ s, (Ok (), f s).

Definition gets {S A} (f : S -> A) : M S A := λ s, (Ok (f s), s).

(** [try: body except Exception as e: handler e] *)
Definition try_except {S A} (body : M S A) (handler : exn -> M S A) : M S A :=
  λ s, match body s with
       | (Ok a, s') => (Ok a, s')
       | (Raise e, s') => handler e s'
       end.

(** [try: body finally: cleanup]; [body] may end by [return]. *)
Definition try_finally {S A} (body : M S A) (cleanup : M S unit) : M S A :=
  λ s, match body s with
       | (r, s') =>
           match cleanup s' with
           | (Ok _, s'') => (r, s'')
           | (Raise e, s'') => (Raise e, s'')
           end
       end.

(** [for x in l: body x], threading an accumulator. *)
Fixpoint for_each {S A B} (l : list A) (acc : B) (body : B -> A -> M S B)
  : M S B :=
  match l with
  | [] => ret acc
  | x :: l' => bind (body acc x) (λ acc', for_each l' acc' body)
  end.

Declare Scope py_scope.
Delimit Scope py_scope with py.
Notation "x <- c ;; k" := (bind c (λ x, k))
  (at level 20, c at level 99, k at level 200, only parsing) : py_scope.
Notation "c ;; k" := (bind c (λ _, k))
  (at level 100, k at level 200, only parsing, right associativity) : py_scope.

End PyM.

(** ** The document store and the operations both connectors share *)
Module Mongo.
Import PyM.
Local Open Scope py_scope.

(** The behaviour of the MongoDB deployment during one call of
    [upload_documents]. *)
Record store := Store {
  (** [MongoClient(self.mongodb_uri)] *)
  new_client : outcome unit;
  (** [self.client.admin.command('ping')] *)
  ping : outcome unit;
  (** [self.collection.list_indexes()], [k]-th call: [index.get("name")]
      of each index *)
  list_indexes : nat -> outcome (list (option string));
  (** [self.collection.create_search_index(index_definition)] *)
  create_search_index : outcome unit;
  (** [self.collection.delete_many({})]: [result.deleted_count] *)
  delete_many : outcome nat;
  (** [self.collection.insert_many(batch)], [k]-th call:
      [len(result.inserted_ids)] *)
  insert_many : nat -> list doc -> outcome nat
}.

Inductive level := Info | Warning | Error.

Inductive event :=
| Listed
| CreatedIndex
| Deleted
| Insert (batch : list doc) (result : outcome nat)
| Closed
| Log (lvl : level) (msg : string).

(** [self.client] is set, the numbers of calls made so far, the effects. *)
Record state := State {
  client : bool;
  listed : nat;
  inserts : nat;
  trace : list event
}.

Definition init : state := State false 0 0 [].

Abbreviation M := (PyM.M state).

Definition emit (ev : event) : M unit :=
  modify (λ st, State (client st) (listed st) (inserts st) (trace st ++ [ev])).

Definition log (lvl : level) (msg : string) : M unit := emit (Log lvl msg).

Definition connect (db : store) : M bool :=
  try_except
    (call (new_client db) ;;
     modify (λ st, State true (listed st) (inserts st) (trace st)) ;;
     call (ping db) ;;
     log Info "Connected to MongoDB Atlas" ;;
     ret true)
    (λ e, log Error "Error connecting to MongoDB Atlas" ;; ret false).

Definition disconnect : M unit :=
  c <- gets client ;;
  if (c : bool) then emit Closed ;; log Info "Disconnected from MongoDB Atlas"
  else ret ().

(** [for index in indexes: if index.get("name") == self.index_name] *)
Definition has_index (index_name : string) (names : list (option string))
  : bool :=
  existsb (λ name, bool_decide (name = Some index_name)) names.

Definition check_vector_index (db : store) (index_name : string) : M bool :=
  try_except
    (k <- gets listed ;;
     modify (λ st, State (client st) (S (listed st)) (inserts st)
                         (trace st ++ [Listed])) ;;
     indexes <- call (list_indexes db k) ;;
     if has_index index_name indexes then
       log Info "Vector index exists" ;; ret true
     else
       log Warning "Vector index does not exist" ;; ret false)
    (λ e, log Error "Error checking vector index" ;; ret false).

Definition create_vector_index (db : store) (index_name : string) : M bool :=
  try_except
    (found <- check_vector_index db index_name ;;
     if (found : bool) then ret true
     else
       emit CreatedIndex ;;
       call (create_search_index db) ;;
       log Info "Created vector index" ;;
       ret true)
    (λ e, log Error "Error creating vector index" ;; ret false).

Definition clear_collection (db : store) : M bool :=
  try_except
    (emit Deleted ;;
     call (delete_many db) ;;
     log Info "Cleared collection" ;;
     ret true)
    (λ e, log Error "Error clearing collection" ;; ret false).

(** [range(0, len(documents), batch_size)] as a statement. *)
Definition batch_starts (documents : list doc) (batch_size : Z)
  : M (list nat) :=
  call (range_step (length documents) batch_size).

(** One turn of the upload loop: [insert_many] on the batch, inside its own
    [try]; a failure is logged and the total left as it is. *)
Definition insert_batch (db : store) (documents : list doc) (batch_size : Z)
    (total_uploaded : nat) (i : nat) : M nat :=
  let batch := slice documents i batch_size in
  try_except
    (k <- gets inserts ;;
     let result := insert_many db k batch in
     modify (λ st, State (client st) (listed st) (S (inserts st))
                         (trace st ++ [Insert batch result])) ;;
     inserted_count <- call result ;;
     log Info "Uploaded batch" ;;
     ret (total_uploaded + inserted_count)%nat)
    (λ e, log Error "Error uploading batch" ;; ret total_uploaded).

(** The batches passed to [insert_many], in order, with their results. *)
Definition inserted (tr : list event) : list (list doc * outcome nat) :=
  omap (λ ev, match ev with Insert b r => Some (b, r) | _ => None end) tr.

Definition logged (lvl : level) (msg : string) (tr : list event) : Prop :=
  Log lvl msg ∈ tr.

End Mongo.

(** ** [NBAMongoDBConnector.upload_documents] of nba/connector.py *)
Module Connector.
Import PyM Mongo.
Local Open Scope py_scope.

(** [upload_documents(documents, batch_size, clear_first)] as a statement
    over the state of the connector, whatever earlier calls made of it:
    [disconnect] closes the client without resetting [self.client], so
    a connector used before still holds a client. *)
Definition upload_documents_body (db : store) (index_name : string)
    (documents : list doc) (batch_size : Z) (clear_first : bool) : M nat :=
  try_finally
    (try_except
       (connected <- connect db ;;
        if negb connected then ret 0%nat
        else
          (if clear_first then clear_collection db ;; ret () else ret ()) ;;
          try_except
            (check_vector_index db index_name ;;
             create_vector_index db index_name ;;
             ret ())
            (λ e, log Warning "Ignoring vector index error") ;;
          starts <- batch_starts documents batch_size ;;
          total_uploaded <-
            for_each starts 0%nat (insert_batch db documents batch_size) ;;
          log Info "Uploaded documents to MongoDB Atlas" ;;
          ret total_uploaded)
       (λ e, log Error "Error uploading documents" ;; ret 0%nat))
    disconnect.

(** The same on a connector on which no method was called yet: what the
    caller gets and what was done. *)
Definition upload_documents (db : store) (index_name : string)
    (documents : list doc) (batch_size : Z) (clear_first : bool)
  : outcome nat * state :=
  upload_documents_body db index_name documents batch_size clear_first init.

End Connector.

(** ** [NBAMongoDBConnector.upload_documents] of nba_mongodb_connector.py *)
Module LegacyConnector.
Import PyM Mongo.
Local Open Scope py_scope.

(** [upload_documents(documents, batch_size, clear_first)] as a statement
    over the state of the connector, whatever earlier calls made of it. *)
Definition upload_documents_body (db : store) (index_name : string)
    (documents : list doc) (batch_size : Z) (clear_first : bool) : M nat :=
  try_finally
    (try_except
       (connected <- connect db ;;
        if negb connected then ret 0%nat
        else
          (if clear_first then clear_collection db ;; ret () else ret ()) ;;
          found <- check_vector_index db index_name ;;
          created <- (if (found : bool) then ret true
                      else create_vector_index db index_name) ;;
          if negb created then
            log Error "Failed to create vector index" ;; ret 0%nat
          else
            starts <- batch_starts documents batch_size ;;
            total_uploaded <-
              for_each starts 0%nat (insert_batch db documents batch_size) ;;
            log Info "Uploaded documents to MongoDB Atlas" ;;
            ret total_uploaded)
       (λ e, log Error "Error uploading documents" ;; ret 0%nat))
    disconnect.

(** The same on a connector on which no method was called yet. *)
Definition upload_documents (db : store) (index_name : string)
    (documents : list doc) (batch_size : Z) (clear_first : bool)
  : outcome nat * state :=
  upload_documents_body db index_name documents batch_size clear_first init.

End LegacyConnector.

(** ** Reference definitions for the upload *)
Module UploadSpec.
Import PyM Mongo.
Local Open Scope py_scope.

(** The connection is established: the client is built and answers the
    ping. *)
Definition connects (db : store) : bool :=
  is_ok (new_client db) && is_ok (ping db).

(** The documents counted by the upload loop over [starts], whose first
    [insert_many] is the [k]-th: a batch counts for the identifiers its
    insert returned, a batch whose insert raised counts for nothing. *)
Fixpoint uploaded_total (db : store) (documents : list doc) (batch_size : Z)
    (k : nat) (starts : list nat) : nat :=
  match starts with
  | [] => 0
  | i :: starts' =>
      (match insert_many db k (slice documents i batch_size) with
       | Ok inserted_count => inserted_count
       | Raise _ => 0
       end + uploaded_total db documents batch_size (S k) starts')%nat
  end.

(** The batches handed to [insert_many] by that loop, with the results. *)
Fixpoint uploaded_batches (db : store) (documents : list doc) (batch_size : Z)
    (k : nat) (starts : list nat) : list (list doc * outcome nat) :=
  match starts with
  | [] => []
  | i :: starts' =>
      let batch := slice documents i batch_size in
      (batch, insert_many db k batch)
        :: uploaded_batches db documents batch_size (S k) starts'
  end.

(** What [upload_documents] is meant to return and to write once the
    upload loop is reached: nothing when the connection fails or the batch
    size is zero, else the totals of the loop. *)
Definition expected_total (db : store) (documents : list doc)
    (batch_size : Z) : nat :=
  if connects db then
    match range_step (length documents) batch_size with
    | Ok starts => uploaded_total db documents batch_size 0 starts
    | Raise _ => 0%nat
    end
  else 0%nat.

Definition expected_batches (db : store) (documents : list doc)
    (batch_size : Z) : list (list doc * outcome nat) :=
  if connects db then
    match range_step (length documents) batch_size with
    | Ok starts => uploaded_batches db documents batch_size 0 starts
    | Raise _ => []
    end
  else [].

(** The same deployment with another behaviour of its index operations. *)
Definition with_index_behaviour (db : store)
    (li : nat -> outcome (list (option string))) (csi : outcome unit) : store :=
  Store (new_client db) (ping db) li csi (delete_many db) (insert_many db).

(** The [k]-th listing of the indexes goes through and shows the index. *)
Definition index_found (db : store) (index_name : string) (k : nat) : bool :=
  match list_indexes db k with
  | Ok names => has_index index_name names
  | Raise _ => false
  end.

(** The vector index is found by one of the two look-ups of the legacy
    connector, or its creation goes through. *)
Definition index_ready (db : store) (index_name : string) : bool :=
  index_found db index_name 0
  || index_found db index_name 1
  || is_ok (create_search_index db).

(** The property "a failure of the index step does not abort the upload":
    whatever the index operations do, the total returned and the batches
    written are those of any other behaviour of the index operations, in
    particular of one where they succeed. *)
Definition index_failure_tolerated
    (upload : store -> string -> list doc -> Z -> bool -> outcome nat * state)
  : Prop :=
  ∀ db index_name documents batch_size clear_first li csi,
    let run := upload db index_name documents batch_size clear_first in
    let run' := upload (with_index_behaviour db li csi) index_name documents
                       batch_size clear_first in
    run'.1 = run.1 ∧ inserted (trace run'.2) = inserted (trace run.2).

(** A statement that leaves the insert counter and the inserts made so far
    as they are, whether it returns or raises. *)
Definition calm {A} (m : M A) : Prop :=
  ∀ st, inserts (m st).2 = inserts st
        ∧ inserted (trace (m st).2) = inserted (trace st).

(** A calm statement that never raises. *)
Definition quiet {A} (m : M A) : Prop :=
  calm m ∧ ∀ st, is_ok (m st).1 = true.

(** The statements from [range] to the final [return total_uploaded],
    common to both connectors. *)
Definition upload_loop (db : store) (documents : list doc) (batch_size : Z)
  : M nat :=
  starts <- batch_starts documents batch_size ;;
  total_uploaded <-
    for_each starts 0%nat (insert_batch db documents batch_size) ;;
  log Info "Uploaded documents to MongoDB Atlas" ;;
  ret total_uploaded.

(** A statement that only adds to the effects made so far. *)
Definition grows {A} (m : M A) : Prop :=
  ∀ st, trace st `prefix_of` trace (m st).2.

End UploadSpec.

(** ** Python strings and integers, as the checkpoint scan uses them *)
Module PyStr.

(** A string as the list of its characters. *)
Definition chars (s : string) : list ascii := String.list_ascii_of_string s.

(** [s.startswith(p)] *)
Definition startswith (s p : string) : bool :=
  bool_decide (take (length (chars p)) (chars s) = chars p).

(** [s.endswith(p)] *)
Definition endswith (s p : string) : bool :=
  bool_decide (drop (length (chars s) - length (chars p)) (chars s) = chars p).

(** [s[a:-b]] for [a, b >= 0]: from index [a] up to, and without, the last
    [b] characters; empty when the two bounds cross. *)
Definition slice_to_end (s : string) (a b : nat) : list ascii :=
  take (length (chars s) - b - a) (drop a (chars s)).

(** [str(n)] for an integer [n]. *)
Definition py_str (n : Z) : string := NilEmpty.string_of_int (Z.to_int n).

(** White space stripped by [int] before it reads the number: the ASCII
    characters for which [str.isspace] holds. *)
Definition is_space (c : ascii) : bool :=
  match c with
  | " " | "009" | "010" | "011" | "012" | "013"
  | "028" | "029" | "030" | "031" => true
  | _ => false
  end%char.

Definition not_space (c : ascii) : Prop := is_space c = false.

Fixpoint lstrip (cs : list ascii) : list ascii :=
  match cs with
  | c :: cs' => if is_space c then lstrip cs' else cs
  | [] => []
  end.

Definition strip (cs : list ascii) : list ascii :=
  reverse (lstrip (reverse (lstrip cs))).

Definition digit (c : ascii) : option (Decimal.uint -> Decimal.uint) :=
  match c with
  | "0" => Some Decimal.D0 | "1" => Some Decimal.D1 | "2" => Some Decimal.D2
  | "3" => Some Decimal.D3 | "4" => Some Decimal.D4 | "5" => Some Decimal.D5
  | "6" => Some Decimal.D6 | "7" => Some Decimal.D7 | "8" => Some Decimal.D8
  | "9" => Some Decimal.D9
  | _ => None
  end%char.

(** The digits of a decimal literal; single underscores may separate
    digits.  [after_digit] tells that the previous character was a digit:
    only then may the literal end or an underscore follow. *)
Fixpoint digits (cs : list ascii) (after_digit : bool) : option Decimal.uint :=
  match cs with
  | [] => if after_digit then Some Decimal.Nil else None
  | c :: cs' =>
      if bool_decide (c = "_"%char) then
        if after_digit then digits cs' false else None
      else
        match digit c with
        | Some d => d <$> digits cs' true
        | None => None
        end
  end.

(** [int(s)] on a string of ASCII characters: optional white space around
    an optional sign and decimal digits.  [None] stands for the
    [ValueError] of a string that is not a decimal integer. *)
Definition py_int (cs : list ascii) : option Z :=
  match strip cs with
  | "+"%char :: ds => (Z.of_int ∘ Decimal.Pos) <$> digits ds false
  | "-"%char :: ds => (Z.of_int ∘ Decimal.Neg) <$> digits ds false
  | ds => (Z.of_int ∘ Decimal.Pos) <$> digits ds false
  end.

End PyStr.

(** ** The bulk collection driver and its checkpoints *)
Module Collector.
Import PyStr PyM.

(** A player or a team of the static lists of [nba_api]. *)
Record entity := Entity { id : Z; full_name : string }.

(** What the operating system answers about [self.output_dir]:
    [os.path.exists], [os.listdir], and the writing of the
    [all_players.json] or [all_teams.json] file. *)
Record directory := Directory {
  path_exists : bool;
  listdir : outcome (list string);
  write_all : outcome unit
}.

(** The collector object: its output directory and its in-memory cache
    (from cache key to fetched data). *)
Record collector := CollectorObj {
  output_dir : directory;
  cache : gmap string string
}.

(** The loop of [_already_collected_ids] over the listing. *)
Fixpoint scan (fnames : list string) (prefix : string) (ids : gset Z)
  : gset Z :=
  match fnames with
  | [] => ids
  | fname :: fnames' =>
      if startswith fname prefix && endswith fname ".json" then
        let id_part := slice_to_end fname (length (chars prefix)) 5 in
        match py_int id_part with
        | Some n => scan fnames' prefix ({[ n ]} ∪ ids)
        | None => scan fnames' prefix ids  (* except Exception: continue *)
        end
      else scan fnames' prefix ids
  end.

(** [_already_collected_ids(prefix)] *)
Definition _already_collected_ids (self : collector) (prefix : string)
  : outcome (gset Z) :=
  if negb (path_exists (output_dir self)) then Ok ∅
  else
    match listdir (output_dir self) with
    | Raise e => Raise e
    | Ok fnames => Ok (scan fnames prefix ∅)
    end.

(** [all_players[:limit]] under [if limit:]. *)
Definition apply_limit (limit : option Z) (all_players : list entity)
  : list entity :=
  match limit with
  | None => all_players
  | Some n =>
      if decide (n = 0) then all_players
      else if decide (0 < n) then take (Z.to_nat n) all_players
      else take (length all_players - Z.to_nat (- n)) all_players
  end.

(** [[p for p in all_players if p['id'] not in already_collected]] *)
Definition not_collected (already_collected : gset Z)
    (entities : list entity) : list entity :=
  filter (λ p, id p ∉ already_collected) entities.

(** The name of the file written for an entity:
    [f"player_{player_id}.json"], [f"team_{team_id}.json"]. *)
Definition entity_file (prefix : string) (n : Z) : string :=
  prefix +:+ py_str n +:+ ".json".

(** *** The cache and the collection of one entity *)

(** The remote statistics API and the files of the entities.
    [endpoint key] is the endpoint call behind the cache key [key], as the
    operation handed to [call_with_retries]; [get_normalized_dict] is the
    method called on its answer; [open_file] is [open(path, "w")] on an
    output file, which makes the file; [json_dump] is [json.dump] into
    the opened file, with its closing. *)
Record services := Services {
  endpoint : string -> Retry.api_func string;
  get_normalized_dict : string -> outcome string;
  open_file : string -> outcome unit;
  json_dump : string -> outcome unit
}.

(** What the workers share: [self.cache] and [timeout_tracker['count']];
    and what they did: the cache keys fetched from the API and the files
    they made in the output directory, by the names a listing of the
    directory shows; a file is there from its opening on, whether or not
    the dump into it goes through. *)
Record shared := Shared {
  cached : gmap string string;
  tracker_count : nat;
  fetched : list string;
  entity_files : list string
}.

Definition set_cached (key data : string) (sh : shared) : shared :=
  Shared (<[key := data]> (cached sh)) (tracker_count sh) (fetched sh)
         (entity_files sh).
Definition set_count (c : nat) (sh : shared) : shared :=
  Shared (cached sh) c (fetched sh) (entity_files sh).
Definition add_fetched (key : string) (sh : shared) : shared :=
  Shared (cached sh) (tracker_count sh) (fetched sh ++ [key]) (entity_files sh).
Definition add_file (fname : string) (sh : shared) : shared :=
  Shared (cached sh) (tracker_count sh) (fetched sh) (entity_files sh ++ [fname]).

(** [_get_with_cache(cache_key, fetch_func)]: a cached value is returned
    as it is; else, after the pacing sleep, the value is fetched and
    cached, and a failure of the fetch is logged and raised again. *)
Definition _get_with_cache (cache_key : string)
    (fetch_func : PyM.M shared string) : PyM.M shared string :=
  (c <- gets cached ;;
   match c !! cache_key with
   | Some data => ret data
   | None =>
       try_except
         (data <- fetch_func ;;
          modify (set_cached cache_key data) ;;
          ret data)
         (λ e, call (Raise e))
   end)%py.

(** The fetch functions, all of the shape
    [call_with_retries(lambda: Endpoint(...), timeout=60)
       .get_normalized_dict()]. *)
Definition fetch (svc : services) (cache_key : string)
  : PyM.M shared string :=
  (modify (add_fetched cache_key) ;;
   response <- call (Retry.call_with_retries (endpoint svc cache_key)
                                             5 2 60).1 ;;
   call (get_normalized_dict svc response))%py.

Definition collect_player_info (svc : services) (player_id : Z)
  : PyM.M shared string :=
  let cache_key := "player_info_" +:+ py_str player_id in
  _get_with_cache cache_key (fetch svc cache_key).

Definition collect_player_career_stats (svc : services) (player_id : Z)
  : PyM.M shared string :=
  let cache_key := "player_career_stats_" +:+ py_str player_id in
  _get_with_cache cache_key (fetch svc cache_key).

Definition collect_team_details (svc : services) (team_id : Z)
  : PyM.M shared string :=
  let cache_key := "team_details_" +:+ py_str team_id in
  _get_with_cache cache_key (fetch svc cache_key).

Definition collect_team_history (svc : services) (team_id : Z)
  : PyM.M shared string :=
  let cache_key := "team_history_" +:+ py_str team_id in
  _get_with_cache cache_key (fetch svc cache_key).

(** [with open(path, "w") as f: json.dump(obj, f)] *)
Definition write_json (svc : services) (path : string) : PyM.M shared unit :=
  (call (open_file svc path) ;;
   modify (add_file path) ;;
   call (json_dump svc path))%py.

(** The [try] of [process_player] and of [process_team]: after the jitter
    sleep, the two collections and the writing of the entity file. *)
Definition collect_entity (svc : services)
    (first second : services -> Z -> PyM.M shared string)
    (prefix : string) (e : entity) : PyM.M shared unit :=
  (first svc (id e) ;;
   second svc (id e) ;;
   write_json svc (entity_file prefix (id e)))%py.

(** The whole of [process_player] and [process_team]: an exception of the
    [try] is logged and counted in [timeout_tracker['count']]; the result
    tells whether there was one. *)
Definition process_entity (body : PyM.M shared unit) (sh : shared)
  : bool * shared :=
  match body sh with
  | (Ok _, sh') => (false, sh')
  | (Raise _, sh') => (true, set_count (tracker_count sh' + 1) sh')
  end.

Definition process_player (svc : services) (player : entity)
  : shared -> bool * shared :=
  process_entity
    (collect_entity svc collect_player_info collect_player_career_stats
                    "player_" player).

Definition process_team (svc : services) (team : entity)
  : shared -> bool * shared :=
  process_entity
    (collect_entity svc collect_team_details collect_team_history
                    "team_" team).

(** *** The worker pool and the circuit breaker

    [executor.map] submits every entity at once; the workers take them
    off the queue and handle them while the loop of the driver takes the
    results in the order of submission.  A run is a sequence of events:
    [Start k], a worker takes the [k]-th entity and begins
    [process_player] (or [process_team]) on it; [Finish k], the worker
    ends it, and the effects on the shared state are taken at that moment;
    [Next], the loop of the driver asks for the next result.  Leaving the
    loop by [break] closes the iterator of [executor.map], which cancels
    every entity no worker has taken yet: such an entity is never started,
    while the entities being handled are handled to their end. *)
Inductive event :=
| Start (k : nat)
| Finish (k : nat)
| Next.

(** The state shared by the workers, the number of results the loop has
    taken, whether it has left by [break], the entities taken by a worker
    so far, and the entities handled so far with their outcomes ([true]
    for a failure). *)
Record pool := Pool {
  workers : shared;
  consumed : nat;
  stopped : bool;
  started : list nat;
  finished : list (nat * bool)
}.

(** [timeout_tracker['count']] *)
Definition count (st : pool) : nat := tracker_count (workers st).

Definition is_started (k : nat) (st : pool) : bool :=
  bool_decide (k ∈ started st).

Definition is_finished (k : nat) (st : pool) : bool :=
  bool_decide (k ∈ (finished st).*1).

(** The body of the driver loop for the result of index [i]. *)
Definition check_window (max_timeouts timeout_window : nat) (i : nat)
    (st : pool) : pool :=
  if decide ((i + 1) `mod` timeout_window = 0)%nat then
    if decide (max_timeouts <= count st)%nat then
      Pool (workers st) (S i) true (started st) (finished st)   (* break *)
    else
      Pool (set_count 0 (workers st)) (S i) false (started st)
           (finished st)                                          (* reset *)
  else Pool (workers st) (S i) false (started st) (finished st).

Section pool.
Context (max_timeouts timeout_window : nat).
Context (process : entity -> shared -> bool * shared).
Context (to_process : list entity).

(** One event.  An entity is started once, unless the [break] has
    cancelled it, and a started entity is handled once; the loop waits for
    the result it asks for, and ends with the results or by [break]. *)
Definition step (st : pool) (ev : event) : pool :=
  match ev with
  | Start k =>
      if stopped st then st                                   (* cancelled *)
      else if bool_decide (k < length to_process)%nat
              && negb (is_started k st) then
        Pool (workers st) (consumed st) (stopped st) (k :: started st)
             (finished st)
      else st
  | Finish k =>
      match to_process !! k with
      | Some e =>
          if is_started k st && negb (is_finished k st) then
            let '(failed, sh) := process e (workers st) in
            Pool sh (consumed st) (stopped st) (started st)
                 ((k, failed) :: finished st)
          else st
      | None => st
      end
  | Next =>
      if stopped st then st
      else if bool_decide (consumed st < length to_process)%nat
              && is_finished (consumed st) st then
        check_window max_timeouts timeout_window (consumed st) st
      else st
  end.

(** The pool started with the cache [cache0] and
    [timeout_tracker = {'count': 0}]. *)
Definition run_pool (cache0 : gmap string string) (sched : list event)
  : pool :=
  foldl step (Pool (Shared cache0 0 [] []) 0 false [] []) sched.

End pool.

(** What a bulk collection did: it found nothing to do, or handed the
    entities left to the pool. *)
Inductive collected :=
| AllCollected
| Ran (to_process : list entity) (final : pool).

(** The fetches made from the remote API during a bulk collection. *)
Definition remote_calls (r : collected) : list string :=
  match r with
  | AllCollected => []
  | Ran _ final => fetched (workers final)
  end.

(** [collect_data_for_all_players(limit, max_workers)], for the static
    list [all_players] and the schedule [sched] of the pool. *)
Definition collect_data_for_all_players (self : collector) (svc : services)
    (all_players : list entity) (limit : option Z) (sched : list event)
  : outcome collected :=
  match write_all (output_dir self) with
  | Raise e => Raise e
  | Ok _ =>
      let all_players := apply_limit limit all_players in
      match _already_collected_ids self "player_" with
      | Raise e => Raise e
      | Ok already_collected =>
          let players_to_process := not_collected already_collected all_players in
          match players_to_process with
          | [] => Ok AllCollected
          | _ => Ok (Ran players_to_process
                         (run_pool 10 30 (process_player svc)
                                   players_to_process (cache self) sched))
          end
      end
  end.

(** [collect_data_for_all_teams(max_workers)] *)
Definition collect_data_for_all_teams (self : collector) (svc : services)
    (all_teams : list entity) (sched : list event) : outcome collected :=
  match write_all (output_dir self) with
  | Raise e => Raise e
  | Ok _ =>
      match _already_collected_ids self "team_" with
      | Raise e => Raise e
      | Ok already_collected =>
          let teams_to_process := not_collected already_collected all_teams in
          match teams_to_process with
          | [] => Ok AllCollected
          | _ => Ok (Ran teams_to_process
                         (run_pool 5 10 (process_team svc)
                                   teams_to_process (cache self) sched))
          end
      end
  end.

End Collector.

(** ** Reference definitions for the driver *)
Module CollectorSpec.
Import PyStr Collector.

(** The failed entities of window [j] among the entities handled. *)
Definition window_failures (timeout_window j : nat)
    (fin : list (nat * bool)) : nat :=
  length (filter (λ kb, kb.2 = true ∧ (kb.1 `div` timeout_window)%nat = j) fin).

(** The failed entities of index [lo] or more among the entities handled. *)
Definition failures_from (lo : nat) (fin : list (nat * bool)) : nat :=
  length (filter (λ kb, kb.2 = true ∧ (lo <= kb.1)%nat) fin).

(** A schedule that [max_workers] threads can produce on [n] entities:
    the workers take the entities in the order of submission, at most
    [max_workers] of them are being handled at a time, and an entity ends
    after it has been taken.  [begun] and [done] are the entities taken
    and ended so far. *)
Fixpoint feasible (max_workers n : nat) (begun done : list nat)
    (sched : list event) : bool :=
  match sched with
  | [] => true
  | Start k :: sched' =>
      bool_decide (k = length begun) && bool_decide (k < n)%nat
      && bool_decide (length begun - length done < max_workers)%nat
      && feasible max_workers n (begun ++ [k]) done sched'
  | Finish k :: sched' =>
      bool_decide (k ∈ begun) && bool_decide (k ∉ done)
      && feasible max_workers n begun (k :: done) sched'
  | Next :: sched' => feasible max_workers n begun done sched'
  end.

(** A statement that leaves [timeout_tracker['count']] as it is. *)
Definition steady {A} (m : PyM.M shared A) : Prop :=
  ∀ sh, tracker_count (m sh).2 = tracker_count sh.

Section pool.
Context (max_timeouts timeout_window : nat).
Context (process : entity -> shared -> bool * shared).
Context (to_process : list entity).

(** The [k]-th entity fails if its worker ends now. *)
Definition fails_now (st : pool) (k : nat) : bool :=
  match to_process !! k with
  | Some e =>
      is_started k st && negb (is_finished k st) && (process e (workers st)).1
  | None => false
  end.

(** A schedule in which every failure is recorded during the window of its
    entity: when entity [k] fails, the loop has taken the results of all
    the windows before the one of [k]. *)
Fixpoint in_window (st : pool) (sched : list event) : bool :=
  match sched with
  | [] => true
  | ev :: sched' =>
      match ev with
      | Finish k =>
          negb (fails_now st k)
          || bool_decide (timeout_window * (k `div` timeout_window)
                          <= consumed st)%nat
      | Start _ | Next => true
      end
      && in_window (step max_timeouts timeout_window process to_process st ev)
                   sched'
  end.

(** What holds of the pool along a schedule in which failures are
    recorded in their window: the results taken are those of finished
    entities; the failures recorded belong to windows the loop has reached;
    and, until the loop stops, the counter is the number of failures of the
    current window. *)
Record sound (st : pool) : Prop := Sound {
  sound_consumed : ∀ i, (i < consumed st)%nat -> i ∈ (finished st).*1;
  sound_reached : ∀ k, (k, true) ∈ finished st ->
                       (k `div` timeout_window
                        <= consumed st `div` timeout_window)%nat;
  sound_count : stopped st = false ->
                count st = failures_from
                             (timeout_window
                              * (consumed st `div` timeout_window))
                             (finished st)
}.

End pool.

(** The failure mode of the checkpoint scan as the specification words
    it: a directory that cannot be listed counts as nothing collected. *)
Definition unlistable_is_nothing_collected : Prop :=
  ∀ (self : collector) (prefix : string),
    is_ok (listdir (output_dir self)) = false ->
    _already_collected_ids self prefix = Ok ∅.

End CollectorSpec.

(** ** Concrete runs, used to exercise the theorems *)
Module Scenarios.
Import Retry Embeddings Mongo Collector.

(** An operation that times out [n] times and then answers 42. *)
Definition fail_then_succeed (n : nat) : api_func Z :=
  ApiFunc Z false
    (λ k _, if (k <? n)%nat then Raise (Exn ReqTimeout "read timed out")
            else Ok 42).

(** An operation that always fails, with exceptions of two classes. *)
Definition always_fails : api_func Z :=
  ApiFunc Z false
    (λ k _, Raise (Exn (if Nat.even k then KeyError else ReqConnectionError)
                       "resultSets")).

(** An embedding service that fails every other call and answers the
    others in reverse order. *)
Definition sample_emb (t : value) : list float :=
  match t with
  | VStr s => [inject_Z (Z.of_nat (String.length s))]
  | _ => [inject_Z 0]
  end.

Definition reversing_service : service :=
  λ k batch,
    if Nat.even k then Raise (Exn OtherError "rate limit reached")
    else Ok (reverse (tagged (sample_emb <$> batch))).

Definition sample_texts : list value := [VStr "a"; VStr "bb"; VStr "ccc"].

Definition abc_service : service :=
  λ _ _, Ok [Item 2 [inject_Z 3]; Item 0 [inject_Z 1]; Item 1 [inject_Z 2]].

(** Ten documents, and a service that has no vector for two of them. *)
Definition ten_documents : list doc :=
  (λ s, {[ "text" := VStr s ]}) <$>
    ["d0"; "d1"; "d2"; "d3"; "d4"; "d5"; "d6"; "d7"; "d8"; "d9"].

Definition patchy_emb (t : value) : list float :=
  match t with
  | VStr s => if (String.eqb s "d3" || String.eqb s "d7")%bool then []
              else [inject_Z 1]
  | _ => []
  end.

Definition patchy_service : service :=
  λ _ batch, Ok (tagged (patchy_emb <$> batch)).





Definition sample_files : files :=
  Files (λ _, Ok ten_documents) (λ _, Ok ()) (λ _ _, Ok ()).

(** A deployment with the vector index in place whose second
    [insert_many] raises. *)
Definition flaky_store : store :=
  Store (Ok ()) (Ok ()) (λ _, Ok [Some "_id_"; Some "vector_index"]) (Ok ())
        (Ok 0%nat)
        (λ k batch, if (k =? 1)%nat
                    then Raise (Exn OtherError "BulkWriteError")
                    else Ok (length batch)).

Definition embedded_document : doc :=
  <[ "text" := VStr "LeBron James is a forward." ]>
    {[ "embedding" := VVec [inject_Z 1; inject_Z 2] ]}.

Definition documents_250 : list doc := replicate 250 embedded_document.

(** A healthy deployment with the index, and index operations that find
    nothing and cannot create. *)
Definition indexed_store : store :=
  Store (Ok ()) (Ok ()) (λ _, Ok [Some "vector_index"]) (Ok ()) (Ok 0%nat)
        (λ _ batch, Ok (length batch)).

Definition no_indexes : nat -> outcome (list (option string)) := λ _, Ok [].

Definition creation_refused : outcome unit :=
  Raise (Exn OtherError "search index commands are not supported").

Definition three_documents : list doc := replicate 3 embedded_document.

(** Output directories. *)
Definition unreadable_collector : collector :=
  CollectorObj
    (Directory true (Raise (Exn OSError "Permission denied")) (Ok ())) ∅.

Definition missing_collector : collector :=
  CollectorObj
    (Directory false (Raise (Exn OSError "No such file or directory")) (Ok ()))
    ∅.

Definition collected_fnames : list string :=
  ["all_players.json"; "player_2544.json"; "all_teams.json";
   "team_1610612737.json"; "player_201939.json"].

Definition two_players : list entity :=
  [Entity 2544 "LeBron James"; Entity 201939 "Stephen Curry"].

Definition one_team : list entity := [Entity 1610612737 "Atlanta Hawks"].

Definition warm_cache : gmap string string :=
  {[ "player_info_2544" := "cached" ]}.

(** Twelve teams, numbered from 1, and a remote API that times out on
    the details of the teams of [bad] and answers everything else. *)
Definition twelve_teams : list entity :=
  (λ i, Entity (Z.of_nat i) "team") <$> seq 1 12.

Definition eleven_teams : list entity := take 11 twelve_teams.

Definition times_out : api_func string :=
  ApiFunc string false (λ _ _, Raise (Exn ReqTimeout "read timed out")).

Definition answers : api_func string :=
  ApiFunc string false (λ _ _, Ok "{}").

Definition failing_for (bad : list Z) : services :=
  Services
    (λ key, if bool_decide
                 (key ∈ (λ i, "team_details_" +:+ PyStr.py_str i) <$> bad)
            then times_out else answers)
    (λ response, Ok response)
    (λ _, Ok ())
    (λ _, Ok ()).

(** The first [n] entities handled one after the other from index [k], the
    loop taking each result before the next entity is started; the last
    result is left to take. *)
Fixpoint lockstep (k n : nat) : list event :=
  match n with
  | O => []
  | 1%nat => [Start k; Finish k]
  | S n' => Start k :: Finish k :: Next :: lockstep (S k) n'
  end.

(** Eleven teams and two workers: the tenth and the eleventh team are
    being handled together, and the eleventh fails while the tenth is
    still being handled. *)
Definition four_and_eleventh : list Z := [1; 2; 3; 4; 11].

Definition run_ahead : list event :=
  lockstep 0 9 ++ [Next; Start 9; Start 10; Finish 10; Finish 9].

(** Thirty teams, of which the eleventh to the fifteenth fail, all in the
    second window; the run goes on from [run_ahead] one team after the
    other up to the twentieth. *)
Definition thirty_teams : list entity :=
  (λ i, Entity (Z.of_nat i) "team") <$> seq 1 30.

Definition five_of_second_window : list Z := [11; 12; 13; 14; 15].

Definition run_ahead_then_lockstep : list event :=
  run_ahead ++ [Next; Next] ++ lockstep 11 9.

End Scenarios.

(** ** League-wide and recent-game collection *)
Module League.
Import PyStr PyM Collector.
Local Open Scope py_scope.

Definition collect_standings (svc : services) (season : string)
  : PyM.M shared string :=
  let cache_key := "standings_" +:+ season in
  _get_with_cache cache_key (fetch svc cache_key).

Definition collect_league_leaders (svc : services)
    (season stat_category : string) : PyM.M shared string :=
  let cache_key := "league_leaders_" +:+ season +:+ "_" +:+ stat_category in
  _get_with_cache cache_key (fetch svc cache_key).

Definition collect_recent_games (svc : services) (days : Z)
  : PyM.M shared string :=
  let cache_key := "recent_games_" +:+ py_str days in
  _get_with_cache cache_key (fetch svc cache_key).

Definition collect_game_details (svc : services) (game_id : string)
  : PyM.M shared string :=
  let cache_key := "game_details_" +:+ game_id in
  _get_with_cache cache_key (fetch svc cache_key).

Definition stat_categories : list string :=
  ["PTS"; "REB"; "AST"; "STL"; "BLK"; "FG_PCT"; "FT_PCT"; "FG3_PCT"].

(** [f"league_{season}.json"] *)
Definition league_file (season : string) : string :=
  "league_" +:+ season +:+ ".json".

(** The body of the loop of [collect_league_data]: the standings, the
    leaders of each category, the file of the season; an exception of any
    of them is logged and the loop goes on. *)
Definition collect_league_season (svc : services) (season : string)
  : PyM.M shared unit :=
  try_except
    (standings <- collect_standings svc season ;;
     leaders <- for_each stat_categories (∅ : gmap string string)
                  (λ leaders stat,
                     data <- collect_league_leaders svc season stat ;;
                     ret (<[stat := data]> leaders)) ;;
     write_json svc (league_file season))
    (λ e, ret ()).

(** [collect_league_data(seasons)] *)
Definition collect_league_data (svc : services) (seasons : list string)
  : PyM.M shared unit :=
  for_each seasons () (λ _ season, collect_league_season svc season).

(** The cache keys a season asks for, in the order it asks for them. *)
Definition league_keys (season : string) : list string :=
  ("standings_" +:+ season)
    :: ((λ stat, "league_leaders_" +:+ season +:+ "_" +:+ stat)
          <$> stat_categories).

(** One turn of the loop over the games: the details of a game are added
    to [game_details]; a failure is logged and the game left out. *)
Definition collect_details (svc : services)
    (game_details : gmap string string) (game_id : string)
  : PyM.M shared (gmap string string) :=
  try_except
    (data <- collect_game_details svc game_id ;;
     ret (<[game_id := data]> game_details))
    (λ e, ret game_details).

(** [collect_recent_game_data(days_back)].  [game_ids] reads the answer of
    the scoreboard: the [GAME_ID] of every game of its [GameHeader] that
    has one; it raises when the answer has not that shape. *)
Definition collect_recent_game_data (svc : services)
    (game_ids : string -> outcome (list string)) (days_back : Z)
  : PyM.M shared unit :=
  try_except
    (recent_games <- collect_recent_games svc days_back ;;
     ids <- call (game_ids recent_games) ;;
     game_details <- for_each ids (∅ : gmap string string)
                       (collect_details svc) ;;
     write_json svc "recent_games.json")
    (λ e, ret ()).

End League.

(** ** Reference definitions for the collection of one entity *)
Module CollectorInv.
Import PyStr PyM Collector.

(** A statement that leaves a component of the shared state as it is,
    whether it returns or raises. *)
Definition preserves {X A} (proj : shared -> X) (m : PyM.M shared A) : Prop :=
  ∀ sh, proj (m sh).2 = proj sh.

(** A statement that never raises. *)
Definition total {A} (m : PyM.M shared A) : Prop :=
  ∀ sh, is_ok (m sh).1 = true.

(** A statement that only adds to the cache, to the keys fetched and to
    the files written. *)
Definition extends {A} (m : PyM.M shared A) : Prop :=
  ∀ sh, cached sh ⊆ cached (m sh).2
        ∧ fetched sh `prefix_of` fetched (m sh).2
        ∧ entity_files sh `prefix_of` entity_files (m sh).2.

(** The remote API answers the fetch behind a cache key. *)
Definition answered (svc : services) (cache_key : string) : Prop :=
  ∃ response data,
    (Retry.call_with_retries (endpoint svc cache_key) 5 2 60).1 = Ok response
    ∧ get_normalized_dict svc response = Ok data.

(** The files in the directory and the entities handled: an entity
    handled without failure has its file there, and every file there is
    the file of an entity handled, whose failure, if it failed, was the
    breaking off of the dump. *)
Definition files_match (svc : services) (prefix : string)
    (to_process : list entity) (st : pool) : Prop :=
  (∀ k e, (k, false) ∈ finished st -> to_process !! k = Some e ->
          entity_file prefix (id e) ∈ entity_files (workers st))
  ∧ (∀ fname, fname ∈ entity_files (workers st) ->
       ∃ k e b, (k, b) ∈ finished st ∧ to_process !! k = Some e
                ∧ fname = entity_file prefix (id e)
                ∧ (b = true ->
                   is_ok (open_file svc fname) = true
                   ∧ is_ok (json_dump svc fname) = false)).

(** What a later checkpoint scan finds after a run that left the pool in
    the state [st]: the directory then lists the names [fnames0] it held
    before and the files the workers made.  Every entity handled without
    failure is found; any other entity found was in the directory before,
    or is one that failed because the dump into its file broke off; so
    where no dump breaks off, the entities the run adds to the checkpoint
    are exactly those handled without failure. *)
Definition checkpoint_after (svc : services) (prefix : string)
    (to_process : list entity) (st : pool) : Prop :=
  ∀ (fnames0 : list string) (w : outcome unit) (cache' : gmap string string),
    let self' :=
      CollectorObj
        (Directory true (Ok (fnames0 ++ entity_files (workers st))) w)
        cache' in
    ∃ ids,
      _already_collected_ids self' prefix = Ok ids
      ∧ (∀ k e, (k, false) ∈ finished st -> to_process !! k = Some e ->
                id e ∈ ids)
      ∧ (∀ n, n ∈ ids ->
           n ∈ scan fnames0 prefix ∅
           ∨ ∃ k e b,
               (k, b) ∈ finished st ∧ to_process !! k = Some e ∧ id e = n
               ∧ (b = true ->
                  is_ok (open_file svc (entity_file prefix n)) = true
                  ∧ is_ok (json_dump svc (entity_file prefix n)) = false))
      ∧ ((∀ path, is_ok (open_file svc path) = true ->
                  is_ok (json_dump svc path) = true) ->
         ∀ n, n ∈ ids
              ↔ n ∈ scan fnames0 prefix ∅
                ∨ ∃ k e, (k, false) ∈ finished st
                         ∧ to_process !! k = Some e ∧ id e = n).

End CollectorInv.

(** ** Further concrete runs *)
Module MoreScenarios.
Import Retry Embeddings Mongo Collector Scenarios.

(** Forty players, numbered from 1, and a remote API that times out on
    the information of the players of [bad]. *)
Definition forty_players : list entity :=
  (λ i, Entity (Z.of_nat i) "player") <$> seq 1 40.

Definition failing_players (bad : list Z) : services :=
  Services
    (λ key, if bool_decide
                 (key ∈ (λ i, "player_info_" +:+ PyStr.py_str i) <$> bad)
            then times_out else answers)
    (λ response, Ok response)
    (λ _, Ok ())
    (λ _, Ok ()).

Definition ten_of_thirty : list Z := [3; 6; 9; 12; 15; 18; 21; 24; 27; 30].

Definition nine_of_thirty : list Z := [3; 6; 9; 12; 15; 18; 21; 24; 27].

(** Three teams, and a remote API that answers everything while the disk
    fills up during the dump into the file of the team [bad]. *)
Definition three_teams : list entity := take 3 twelve_teams.

Definition disk_full_for (bad : Z) : services :=
  Services
    (λ _, answers)
    (λ response, Ok response)
    (λ _, Ok ())
    (λ path, if bool_decide (path = entity_file "team_" bad)
             then Raise (Exn OSError "No space left on device")
             else Ok ()).

(** A remote API without the standings of 2022-23, and one without the
    details of a game. *)
Definition league_svc : services :=
  Services
    (λ key, if bool_decide (key = "standings_2022-23")
            then times_out else answers)
    (λ response, Ok response)
    (λ _, Ok ())
    (λ _, Ok ()).

Definition games_svc : services :=
  Services
    (λ key, if bool_decide (key = "game_details_0022300001")
            then times_out else answers)
    (λ response, Ok response)
    (λ _, Ok ())
    (λ _, Ok ()).

(** An input file one of whose documents has no text, and a data
    directory with two files of documents and one other file. *)
Definition textless_files : files :=
  Files (λ _, Ok [ {[ "text" := VStr "d0" ]}; {[ "category" := VStr "team" ]} ])
        (λ _, Ok ()) (λ _ _, Ok ()).

Definition data_listing : list string :=
  ["processed_players.json"; "notes.txt"; "processed_teams.json"].

End MoreScenarios.

(** ** The other entry points of the embedding stage *)
Module EmbeddingsFiles.
Import Embeddings.

(** [f"{self.output_dir}/all_embedded_data.json"] *)
Definition combined_path (output_dir : string) : string :=
  output_dir +:+ "/all_embedded_data.json".

(** [process_combined_file(filename)], the entry point the pipeline
    calls: the steps of [process_file] on the combined input file, the
    output going to [all_embedded_data.json].  The whole body is inside
    [try: ... except Exception: return []]. *)
Definition process_combined_file (fs : files) (create : service)
    (data_dir output_dir filename : string) : processed :=
  match load fs (data_path data_dir filename) with
  | Raise _ => Processed [] None None
  | Ok documents =>
      if negb (truthy documents) then Processed [] None None
      else
        match texts_of documents with
        | Raise _ => Processed [] None None
        | Ok texts =>
            match generate_embeddings_batch create texts 10 3 5 with
            | (Raise _, st) => Processed [] None (Some st)
            | (Ok embeddings, st) =>
                match add_embeddings documents 0 embeddings with
                | Raise _ => Processed [] None (Some st)
                | Ok documents =>
                    let documents_with_embeddings :=
                      filter has_embedding documents in
                    let out := combined_path output_dir in
                    match open_w fs out with
                    | Raise _ => Processed [] None (Some st)
                    | Ok _ =>
                        match dump fs out documents_with_embeddings with
                        | Raise _ =>
                            Processed [] (Some (out, CutShort)) (Some st)
                        | Ok _ =>
                            Processed documents_with_embeddings
                              (Some (out, Whole documents_with_embeddings))
                              (Some st)
                        end
                    end
                end
            end
        end
  end.

(** [[f for f in os.listdir(self.data_dir) if f.endswith(".json")]] *)
Definition json_files (fnames : list string) : list string :=
  filter (λ f, PyStr.endswith f ".json" = true) fnames.

(** [process_all_files()]: every [.json] file of the data directory goes
    through [process_file], the lists returned are joined, and the whole
    is written to [all_embedded_data.json].  Neither the listing of the
    directory nor the final writing is inside a [try].  [listdir] is the
    answer of [os.listdir(self.data_dir)]; [create filename] is the
    embedding service during the processing of [filename].  The result
    comes with the calls of [process_file], in order. *)
Definition process_all_files (fs : files) (listdir : outcome (list string))
    (create : string -> service) (data_dir output_dir : string)
  : outcome (list doc) * list processed :=
  match listdir with
  | Raise e => (Raise e, [])
  | Ok fnames =>
      let '(all_documents, runs) :=
        foldl (λ '(all_documents, runs) filename,
                 let r := process_file fs (create filename) data_dir
                                       output_dir filename in
                 (all_documents ++ returned r, runs ++ [r]))
              ([], []) (json_files fnames) in
      match open_w fs (combined_path output_dir) with
      | Raise e => (Raise e, runs)
      | Ok _ =>
          match dump fs (combined_path output_dir) all_documents with
          | Raise e => (Raise e, runs)
          | Ok _ => (Ok all_documents, runs)
          end
      end
  end.

End EmbeddingsFiles.

(** ** Uploading from a file (nba/connector.py) and its caller *)
Module ConnectorFiles.
Import PyM Mongo.
Local Open Scope py_scope.

(** The file system as [upload_file] sees it: [os.path.join],
    [os.path.exists], and [json.load] of an opened file, which gives the
    documents when the file holds a list, [None] when it holds another
    JSON value, and raises when the file cannot be opened or parsed. *)
Record disk := Disk {
  path_join : string -> string -> string;
  file_exists : string -> bool;
  read_json : string -> outcome (option (list doc))
}.

(** [upload_file(filename, clear_first)] *)
Definition upload_file (dk : disk) (db : store)
    (index_name data_dir filename : string) (clear_first : bool) : M nat :=
  try_except
    (abs_path <-
       (if negb (file_exists dk (path_join dk data_dir filename)) then
          log Error "File not found, trying current directory" ;;
          ret filename
        else ret (path_join dk data_dir filename)) ;;
     log Info "Attempting to upload from file" ;;
     if negb (file_exists dk abs_path) then
       log Error "File not found. Aborting upload." ;; ret 0%nat
     else
       documents <- call (read_json dk abs_path) ;;
       match documents with
       | None =>
           log Error "File does not contain a list of documents" ;;
           ret 0%nat
       | Some documents =>
           if negb (Embeddings.truthy documents) then
             log Warning "No documents found" ;; ret 0%nat
           else
             Connector.upload_documents_body db index_name documents 100
                                             clear_first
       end)
    (λ e, log Error "Error uploading file" ;; ret 0%nat).

(** [upload_combined_file(filename, clear_first)] *)
Definition upload_combined_file (dk : disk) (db : store)
    (index_name data_dir filename : string) (clear_first : bool) : M nat :=
  try_except
    (upload_file dk db index_name data_dir filename clear_first)
    (λ e, log Error "Error uploading combined file" ;; ret 0%nat).

(** [NBADatabasePopulator.upload_to_database(clear_first)] of
    nba/populate.py, whose connector reads the embeddings directory. *)
Definition upload_to_database (dk : disk) (db : store)
    (index_name embeddings_dir : string) (clear_first : bool) : M bool :=
  try_except
    (log Info "Starting database upload" ;;
     uploaded <- upload_combined_file dk db index_name embeddings_dir
                                      "all_embedded_data.json" clear_first ;;
     if decide (0 < uploaded)%nat then
       log Info "Database upload completed" ;; ret true
     else
       log Error "No documents were uploaded to MongoDB Atlas" ;; ret false)
    (λ e, log Error "Error uploading to database" ;; ret false).

End ConnectorFiles.

(** ** Reference definitions for the traces of the upload *)
Module UploadInv.
Import PyM Mongo ConnectorFiles.
Local Open Scope py_scope.

(** A statement all of whose effects satisfy [Q]. *)
Definition emits (Q : event -> Prop) {A} (m : M A) : Prop :=
  ∀ st, ∃ tr, trace (m st).2 = trace st ++ tr ∧ Forall Q tr.

(** A statement that leaves a component of the state as it is. *)
Definition keeps {X A} (proj : state -> X) (m : M A) : Prop :=
  ∀ st, proj (m st).2 = proj st.

Definition is_log (ev : event) : Prop :=
  match ev with Log _ _ => True | _ => False end.

(** The number of [delete_many] calls of a trace. *)
Definition deletes (tr : list event) : nat :=
  length (omap (λ ev, match ev with Deleted => Some () | _ => None end) tr).

(** What both [upload_documents] have in common: the connection, the
    optional clearing, the closing; [rest] is what comes in between, from
    the index step to the [return] of the total. *)
Definition upload_frame (db : store) (clear_first : bool) (rest : M nat)
  : M nat :=
  try_finally
    (try_except
       (connected <- connect db ;;
        if negb connected then ret 0%nat
        else
          (if clear_first then clear_collection db ;; ret () else ret ()) ;;
          rest)
       (λ e, log Error "Error uploading documents" ;; ret 0%nat))
    disconnect.

(** The effects of [disconnect] on a connector whose client was built. *)
Definition closing (built : bool) : list event :=
  if built then [Closed; Log Info "Disconnected from MongoDB Atlas"] else [].

(** The same deployment with another behaviour of [delete_many]. *)
Definition with_delete_behaviour (db : store) (dm : outcome nat) : store :=
  Store (new_client db) (ping db) (list_indexes db) (create_search_index db)
        dm (insert_many db).

(** The file [upload_file] settles on: the one of the data directory, or
    else the one of the current directory. *)
Definition chosen_path (dk : disk) (data_dir filename : string)
  : option string :=
  if file_exists dk (path_join dk data_dir filename)
  then Some (path_join dk data_dir filename)
  else if file_exists dk filename then Some filename
  else None.

(** The documents [upload_file] hands to [upload_documents], if any: the
    non-empty list of documents read from the chosen file. *)
Definition documents_of (dk : disk) (data_dir filename : string)
  : option (list doc) :=
  match chosen_path dk data_dir filename with
  | None => None
  | Some abs_path =>
      match read_json dk abs_path with
      | Ok (Some (d :: documents)) => Some (d :: documents)
      | _ => None
      end
  end.

(** The statements between the clearing and the closing: in
    nba/connector.py, and in nba_mongodb_connector.py. *)
Definition index_then_upload (db : store) (index_name : string)
    (documents : list doc) (batch_size : Z) : M nat :=
  try_except
    (check_vector_index db index_name ;;
     create_vector_index db index_name ;;
     ret ())
    (λ e, log Warning "Ignoring vector index error") ;;
  starts <- batch_starts documents batch_size ;;
  total_uploaded <-
    for_each starts 0%nat (insert_batch db documents batch_size) ;;
  log Info "Uploaded documents to MongoDB Atlas" ;;
  ret total_uploaded.

Definition legacy_index_then_upload (db : store) (index_name : string)
    (documents : list doc) (batch_size : Z) : M nat :=
  found <- check_vector_index db index_name ;;
  created <- (if (found : bool) then ret true
              else create_vector_index db index_name) ;;
  if negb created then
    log Error "Failed to create vector index" ;; ret 0%nat
  else
    starts <- batch_starts documents batch_size ;;
    total_uploaded <-
      for_each starts 0%nat (insert_batch db documents batch_size) ;;
    log Info "Uploaded documents to MongoDB Atlas" ;;
    ret total_uploaded.

(** The effects of the connection and of the optional clearing. *)
Definition opening (db : store) (clear_first : bool) : list event :=
  if UploadSpec.connects db then
    Log Info "Connected to MongoDB Atlas"
      :: (if clear_first then
            [Deleted;
             if is_ok (delete_many db) then Log Info "Cleared collection"
             else Log Error "Error clearing collection"]
          else [])
  else [Log Error "Error connecting to MongoDB Atlas"].

End UploadInv.

(** * Theorems *)

(** ** Facts about [call_with_retries] *)
Module RetryFacts.
Import Retry Scenarios.

Lemma time_sleep_nonneg secs : 0 <= secs -> time_sleep secs = Ok ().
Proof. intros Hs. unfold time_sleep. by rewrite decide_False by lia. Qed.

Lemma time_sleep_neg secs :
  secs < 0 ->
  time_sleep secs = Raise (Exn ValueError "sleep length must be non-negative").
Proof. intros Hs. unfold time_sleep. by rewrite decide_True. Qed.

Section attempts.
Context {A : Type} (f : api_func A) (max_retries timeout : Z).
Local Abbreviation kw := (Retry.kw f timeout).

Lemma sleeps_app tr1 tr2 : sleeps (tr1 ++ tr2) = sleeps tr1 ++ sleeps tr2.
Proof. unfold sleeps. apply omap_app. Qed.

Lemma invocations_app tr1 tr2 :
  invocations (tr1 ++ tr2) = (invocations tr1 + invocations tr2)%nat.
Proof. unfold invocations. by rewrite omap_app, length_app. Qed.

Lemma attempts_S n a fr :
  attempts f max_retries timeout (S n) a fr =
  let fr1 := Frame (delay fr) (last_exc fr) (S (calls fr))
                   (trace fr ++ [Called kw]) in
  match invoke f (calls fr) kw with
  | Ok result => (Ok (Some result), fr1)
  | Raise e =>
      let warning := LogWarning (is_network e) a max_retries (delay fr) e in
      match time_sleep (delay fr) with
      | Raise e' =>
          (Raise e',
           Frame (delay fr) (last_exc fr) (calls fr1) (trace fr1 ++ [warning]))
      | Ok _ =>
          attempts f max_retries timeout n (a + 1)
            (Frame (delay fr * 2) (Some e) (calls fr1)
               (trace fr1 ++ [warning; Slept (delay fr)]))
      end
  end.
Proof. reflexivity. Qed.

(** [n] failed attempts in a row: the loop goes on, having slept
    [backoff n] and remembered the last failure. *)
Lemma attempts_all_fail (e : nat -> exn) n : ∀ a fr,
  0 <= delay fr ->
  (∀ k, (calls fr <= k < calls fr + n)%nat -> invoke f k kw = Raise (e k)) ->
  ∃ fr', attempts f max_retries timeout n a fr = (Ok None, fr')
    ∧ delay fr' = delay fr * 2 ^ Z.of_nat n
    ∧ calls fr' = (calls fr + n)%nat
    ∧ sleeps (trace fr') = sleeps (trace fr) ++ backoff n (delay fr)
    ∧ invocations (trace fr') = (invocations (trace fr) + n)%nat
    ∧ last_exc fr' =
        match n with O => last_exc fr | S n' => Some (e (calls fr + n')%nat) end.
Proof.
  induction n as [|n IH]; intros a fr Hpos Hfail.
  - exists fr. simpl. rewrite Z.mul_1_r, Nat.add_0_r, app_nil_r. done.
  - rewrite attempts_S. cbn zeta. rewrite (Hfail (calls fr)) by lia.
    rewrite time_sleep_nonneg by done.
    match goal with |- context [attempts _ _ _ n ?a' ?fr2] =>
      destruct (IH a' fr2) as (fr' & Hrun & Hd & Hc & Hs & Hi & Hl) end.
    { simpl. lia. }
    { simpl. intros k Hk. apply Hfail. lia. }
    exists fr'. cbn [delay calls trace last_exc] in *.
    rewrite Hrun, Hd, Hc, Hs, Hi, Hl. split_and!.
    + done.
    + rewrite Nat2Z.inj_succ, Z.pow_succ_r by lia. ring.
    + lia.
    + rewrite !sleeps_app. simpl. by rewrite app_nil_r, <- app_assoc.
    + rewrite !invocations_app. unfold invocations at 2 3. simpl. lia.
    + destruct n; simpl; [by rewrite Nat.add_0_r|]. do 2 f_equal. lia.
Qed.

(** The loop for [n + m] attempts is the loop for [n] attempts followed,
    when none of them returned, by the loop for [m]. *)
Lemma attempts_add n m : ∀ a fr fr',
  attempts f max_retries timeout n a fr = (Ok None, fr') ->
  attempts f max_retries timeout (n + m) a fr
  = attempts f max_retries timeout m (a + Z.of_nat n) fr'.
Proof.
  induction n as [|n IH]; intros a fr fr' Hrun.
  - simpl in *. inversion Hrun. by rewrite Z.add_0_r.
  - rewrite Nat.add_succ_l, !attempts_S in *. cbn zeta in *.
    destruct (invoke f (calls fr) _); [done|].
    destruct (time_sleep (delay fr)); [|done].
    rewrite (IH _ _ _ Hrun). f_equal. lia.
Qed.

End attempts.

(** C1.  An operation that fails on its first four invocations and
    succeeds on the fifth: [call_with_retries] with [max_retries = 5] and
    an initial delay [d] that can be slept ([d >= 0]) returns the
    successful result after exactly five invocations, and the sleeps
    performed are [d, 2d, 4d, 8d], in that order. *)
Theorem retry_succeeds_on_fifth_attempt {A} (f : api_func A) (d timeout : Z) (v : A) :
  0 <= d ->
  (∀ k, (k < 4)%nat -> is_ok (invoke f k (kw f timeout)) = false) ->
  invoke f 4%nat (kw f timeout) = Ok v ->
  let '(res, tr) := call_with_retries f 5 d timeout in
  res = Ok v ∧ sleeps tr = [d; 2 * d; 4 * d; 8 * d] ∧ invocations tr = 5%nat.
Proof.
  intros Hd0 Hfail Hok.
  set (e := λ k, match invoke f k (kw f timeout) with
                 | Raise x => x | Ok _ => raise_None end).
  destruct (attempts_all_fail f 5 timeout e 4 1 (Frame d None 0 []))
    as (fr' & Hrun & Hd & Hc & Hs & Hi & _).
  { done. }
  { simpl. intros k Hk. specialize (Hfail k ltac:(lia)). unfold e.
    by destruct (invoke f k _). }
  unfold call_with_retries, run_attempts.
  change (Z.to_nat 5) with (4 + 1)%nat.
  rewrite (attempts_add f 5 timeout 4 1 _ _ _ Hrun).
  cbn [delay calls trace last_exc] in *. simpl.
  simpl in Hc, Hs, Hi. rewrite Hc, Hok. simpl.
  rewrite sleeps_app, invocations_app, Hs, Hi. simpl.
  split_and!; [done | | done].
  repeat match goal with |- _ :: _ = _ :: _ => f_equal end; lia.
Qed.

Lemma retry_succeeds_on_fifth_attempt_witness :
  let '(res, tr) := call_with_retries (fail_then_succeed 4) 5 2 60 in
  res = Ok 42 ∧ sleeps tr = [2; 2 * 2; 4 * 2; 8 * 2] ∧ invocations tr = 5%nat.
Proof.
  apply (retry_succeeds_on_fifth_attempt (fail_then_succeed 4) 2 60 42).
  - lia.
  - intros k Hk. simpl.
    destruct k as [|[|[|[|k]]]]; [reflexivity..|lia].
  - reflexivity.
Defined.

(** C8.  An operation that fails on every one of its [max_retries >= 1]
    attempts, with an initial delay [d] that can be slept ([d >= 0]):
    whatever the classes of the exceptions, every attempt is made (none is
    cut short), each failure is followed by the backoff sleep, and the
    exception that reaches the caller is the one of the last attempt. *)
Theorem retry_exhausted_raises_last {A} (f : api_func A)
    (max_retries d timeout : Z) (e : nat -> exn) :
  1 <= max_retries ->
  0 <= d ->
  (∀ k, (k < Z.to_nat max_retries)%nat ->
        invoke f k (kw f timeout) = Raise (e k)) ->
  let '(res, tr) := call_with_retries f max_retries d timeout in
  res = Raise (e (Z.to_nat max_retries - 1)%nat)
  ∧ invocations tr = Z.to_nat max_retries
  ∧ sleeps tr = backoff (Z.to_nat max_retries) d.
Proof.
  intros Hpos Hd0 Hfail.
  destruct (attempts_all_fail f max_retries timeout e (Z.to_nat max_retries) 1
              (Frame d None 0 []))
    as (fr' & Hrun & Hd & Hc & Hs & Hi & Hl).
  { done. }
  { simpl. intros k Hk. apply Hfail. lia. }
  unfold call_with_retries, run_attempts. rewrite Hrun.
  cbn [delay calls trace last_exc] in *.
  rewrite sleeps_app, invocations_app, Hs, Hi, Hl. simpl.
  destruct (Z.to_nat max_retries) as [|n] eqn:Hn; [lia|]. simpl.
  rewrite Nat.sub_0_r, app_nil_r. unfold invocations. simpl.
  split; [done|]. split; [lia|done].
Qed.

Lemma retry_exhausted_raises_last_witness :
  let '(res, tr) := call_with_retries always_fails 3 2 60 in
  res = Raise (Exn KeyError "resultSets")
  ∧ invocations tr = 3%nat
  ∧ sleeps tr = [2; 4; 8].
Proof.
  apply (retry_exhausted_raises_last always_fails 3 2 60
           (λ k, Exn (if Nat.even k then KeyError else ReqConnectionError)
                     "resultSets")).
  - lia.
  - lia.
  - intros k _. reflexivity.
Defined.

(** C10.  With [max_retries <= 0] the loop body never runs: the operation
    is not invoked, nothing is slept, and [raise last_exc] is executed with
    [last_exc] still [None], which Python turns into a [TypeError].  With
    [max_retries >= 1] the final [raise] is only reached with [last_exc]
    set to an exception of the operation. *)
Theorem retry_needs_positive_max_retries {A} (f : api_func A)
    (max_retries d timeout : Z) :
  (max_retries <= 0 ->
     run_attempts f max_retries d timeout = (Ok None, Frame d None 0 [])
     ∧ call_with_retries f max_retries d timeout
       = (Raise raise_None, [LogError max_retries None]))
  ∧ (1 <= max_retries -> ∀ fr,
       run_attempts f max_retries d timeout = (Ok None, fr) ->
       ∃ k e, last_exc fr = Some e ∧ invoke f k (kw f timeout) = Raise e).
Proof.
  split.
  - intros Hle. unfold call_with_retries, run_attempts.
    replace (Z.to_nat max_retries) with 0%nat by lia. done.
  - intros Hpos fr. unfold run_attempts.
    destruct (Z.to_nat max_retries) as [|n] eqn:Hn; [lia|]. clear Hn Hpos.
    generalize 1 (Frame d None 0 []). revert fr.
    induction n as [|n IH]; intros fr a fr0; rewrite attempts_S; cbn zeta.
    + destruct (invoke f (calls fr0) _) eqn:Hinv; [done|].
      destruct (time_sleep (delay fr0)); [|done].
      intros [= <-]. eauto.
    + destruct (invoke f (calls fr0) _) eqn:Hinv; [done|].
      destruct (time_sleep (delay fr0)); [|done].
      intros Hrun. by apply IH in Hrun.
Qed.

Lemma retry_needs_positive_max_retries_witness :
  (run_attempts always_fails 0 2 60 = (Ok None, Frame 2 None 0 [])
   ∧ call_with_retries always_fails 0 2 60
     = (Raise raise_None, [LogError 0 None]))
  ∧ ∃ k e, last_exc (snd (run_attempts always_fails 2 2 60)) = Some e
         ∧ invoke always_fails k (kw always_fails 60) = Raise e.
Proof.
  split.
  - apply (retry_needs_positive_max_retries always_fails 0 2 60). lia.
  - apply (proj2 (retry_needs_positive_max_retries always_fails 2 2 60));
      [lia | reflexivity].
Defined.

End RetryFacts.

(** ** Facts about the embedding batcher *)
Module EmbeddingsFacts.
Import Embeddings EmbeddingsSpec Scenarios.
Import RetryFacts (time_sleep_nonneg, time_sleep_neg).

Lemma index_le_trans : Transitive index_le.
Proof. unfold index_le. intros x y z ??. lia. Qed.
#[local] Existing Instance index_le_trans.

Lemma insert_by_index_Permutation x l : insert_by_index x l ≡ₚ x :: l.
Proof.
  induction l as [|y l IH]; simpl; [done|].
  case_decide; [done|]. rewrite IH. apply Permutation_swap.
Qed.

Lemma sorted_Permutation data : sorted data ≡ₚ data.
Proof.
  induction data as [|x data IH]; simpl; [done|].
  by rewrite insert_by_index_Permutation, IH.
Qed.

Lemma insert_by_index_Sorted x l :
  Sorted index_le l -> Sorted index_le (insert_by_index x l).
Proof.
  induction 1 as [|y l Hl IH Hhd]; simpl.
  - repeat constructor.
  - case_decide as Hxy.
    + repeat constructor; done.
    + constructor; [done|].
      destruct Hhd as [|z l Hyz]; simpl.
      * constructor. unfold index_le. lia.
      * case_decide; constructor; unfold index_le in *; lia.
Qed.

Lemma sorted_Sorted data : Sorted index_le (sorted data).
Proof.
  induction data; simpl; [constructor | by apply insert_by_index_Sorted].
Qed.

Lemma elem_of_tagged x vs :
  x ∈ tagged vs ↔ ∃ j, x = Item (Z.of_nat j) (embedding x) ∧ vs !! j = Some (embedding x).
Proof.
  unfold tagged. rewrite elem_of_lookup_imap. split.
  - intros (j & v & -> & Hv). exists j. done.
  - intros (j & Hx & Hv). exists j, (embedding x). done.
Qed.

Lemma tagged_Sorted vs : Sorted index_le (tagged vs).
Proof.
  unfold tagged.
  assert (∀ (n : nat) vs,
    Sorted index_le (imap (λ j v, Item (Z.of_nat (n + j)) v) vs)) as H.
  { intros n vs'. revert n. induction vs' as [|v vs' IH]; intros n; simpl.
    - constructor.
    - constructor.
      + erewrite imap_ext; [apply (IH (S n))|].
        intros; simpl. do 2 f_equal. lia.
      + destruct vs'; simpl; constructor. unfold index_le. simpl. lia. }
  exact (H 0%nat vs).
Qed.

(** Sorting by index undoes any reordering of a well tagged response. *)
Lemma sorted_tagged data vs : data ≡ₚ tagged vs -> sorted data = tagged vs.
Proof.
  intros Hperm.
  apply (Sorted_unique_strong index_le).
  - intros x1 x2 Hx1 Hx2 H12 H21.
    rewrite sorted_Permutation, Hperm in Hx1.
    apply elem_of_tagged in Hx1 as (j1 & E1 & Hv1).
    apply elem_of_tagged in Hx2 as (j2 & E2 & Hv2).
    unfold index_le in *. rewrite E1, E2 in H12, H21. simpl in *.
    assert (j1 = j2) as -> by lia.
    rewrite E1, E2. congruence.
  - apply sorted_Sorted.
  - apply tagged_Sorted.
  - by rewrite sorted_Permutation.
Qed.

Lemma embedding_tagged vs : embedding <$> tagged vs = vs.
Proof.
  unfold tagged.
  assert (∀ g : nat -> Z, embedding <$> imap (λ j v, Item (g j) v) vs = vs) as H.
  { induction vs as [|v vs IH]; intros g; simpl; [done|].
    f_equal. apply (IH (g ∘ S)). }
  apply (H Z.of_nat).
Qed.

Section batches.
Context (create : service) (emb : value -> list float).
Context (retry_limit retry_delay : Z).
Hypothesis delay_nonneg : 0 <= retry_delay.
Hypothesis well_tagged : ∀ k batch data,
  create k batch = Ok data -> data ≡ₚ tagged (emb <$> batch).

Lemma embed_batch_S batch_no batch todo attempt st :
  embed_batch create retry_limit retry_delay batch_no batch (S todo) attempt st
  = let tr := trace st ++ [Created batch] in
    match create (created st) batch with
    | Ok data =>
        (Ok (),
         State (all_embeddings st ++ (embedding <$> sorted data))
               (S (created st)) (tr ++ [Slept (1 # 2)]))
    | Raise e =>
        let tr := tr ++ [LogWarning batch_no (attempt + 1) retry_limit e] in
        if decide (attempt < retry_limit - 1) then
          match time_sleep retry_delay with
          | Raise e' =>
              (Raise e',
               State (all_embeddings st) (S (created st))
                     (tr ++ [LogInfo retry_delay]))
          | Ok _ =>
              embed_batch create retry_limit retry_delay batch_no batch
                todo (attempt + 1)
                (State (all_embeddings st) (S (created st))
                       (tr ++ [LogInfo retry_delay;
                               Slept (inject_Z retry_delay)]))
          end
        else
          embed_batch create retry_limit retry_delay batch_no batch
            todo (attempt + 1)
            (State (all_embeddings st ++ replicate (length batch) [])
                   (S (created st))
                   (tr ++ [LogError batch_no retry_limit]))
    end.
Proof. reflexivity. Qed.

(** What one batch appends to [all_embeddings]: the embeddings of its
    texts in the order of the texts, when one of its attempts is answered;
    one empty placeholder per text, when every attempt fails. *)
Lemma embed_batch_block batch_no batch : ∀ todo attempt st,
  attempt + Z.of_nat todo = retry_limit -> (0 < todo)%nat ->
  ∃ block st',
    embed_batch create retry_limit retry_delay batch_no batch todo attempt st
    = (Ok (), st')
    ∧ all_embeddings st' = all_embeddings st ++ block
    ∧ (block = emb <$> batch ∨ block = replicate (length batch) [])
    ∧ ((∃ a, (a < todo)%nat
             ∧ is_ok (create (created st + a)%nat batch) = true) ->
       block = emb <$> batch)
    ∧ ((∀ a, (a < todo)%nat ->
             is_ok (create (created st + a)%nat batch) = false) ->
       block = replicate (length batch) []).
Proof.
  induction todo as [|todo IH]; intros attempt st Hsum Hpos; [lia|].
  rewrite embed_batch_S. cbn zeta.
  destruct (create (created st) batch) as [data|e] eqn:Hcall.
  - exists (emb <$> batch). eexists. split; [reflexivity|]. simpl.
    rewrite (sorted_tagged _ _ (well_tagged _ _ _ Hcall)), embedding_tagged.
    split_and!; [done | auto | done |].
    intros Hfail. specialize (Hfail 0%nat ltac:(lia)).
    rewrite Nat.add_0_r, Hcall in Hfail. done.
  - case_decide as Hlast.
    + rewrite (time_sleep_nonneg retry_delay) by done.
      match goal with |- context [embed_batch _ _ _ _ _ todo _ ?s] =>
        destruct (IH (attempt + 1) s)
          as (block & st' & Hrun & Hblock & Hshape & Hgood & Hbad);
          [lia | lia |] end.
      exists block, st'. cbn [created all_embeddings] in *.
      split_and!; [done | done | done | |].
      * intros (a & Ha & Hok). apply Hgood.
        destruct a as [|a]; [by rewrite Nat.add_0_r, Hcall in Hok|].
        exists a. split; [lia|].
        by replace (S (created st) + a)%nat with (created st + S a)%nat by lia.
      * intros Hfail. apply Hbad. intros a Ha.
        replace (S (created st) + a)%nat with (created st + S a)%nat by lia.
        apply Hfail. lia.
    + destruct todo; [|lia]. simpl.
      exists (replicate (length batch) []). eexists.
      split_and!; [done | done | auto | | done].
      intros (a & Ha & Hok). assert (a = 0)%nat as -> by lia.
      by rewrite Nat.add_0_r, Hcall in Hok.
Qed.

Lemma embed_batches_app texts batch_size l1 : ∀ l2 st,
  embed_batches create texts batch_size retry_limit retry_delay (l1 ++ l2) st
  = match embed_batches create texts batch_size retry_limit retry_delay
                        l1 st with
    | (Ok _, st') =>
        embed_batches create texts batch_size retry_limit retry_delay l2 st'
    | (Raise e, st') => (Raise e, st')
    end.
Proof.
  induction l1 as [|i l1 IH]; intros l2 st; simpl; [done|].
  destruct (embed_batch _ _ _ _ _ _ _ _) as [[[]|e] st']; [apply IH | done].
Qed.

(** The slices of [range(0, len(texts), s)] tile [texts]. *)
Lemma take_slices (texts : list value) (s : nat) bs k :
  bs = Z.of_nat s ->
  take (S k * s) texts = take (k * s) texts ++ slice texts (k * s) bs.
Proof.
  intros ->. unfold slice. rewrite Nat2Z.id, take_take_drop. f_equal. lia.
Qed.

(** A property of [all_embeddings] that every batch carries one step
    further holds of the list returned. *)
Lemma generate_embeddings_batch_invariant
    (I : nat -> list (list float) -> Prop) texts batch_size :
  0 < batch_size ->
  let s := Z.to_nat batch_size in
  I 0%nat [] ->
  (∀ k st, I k (all_embeddings st) ->
     ∃ st',
       embed_batch create retry_limit retry_delay
                   (Z.of_nat (k * s) `div` batch_size)
                   (slice texts (k * s) batch_size)
                   (Z.to_nat retry_limit) 0 st
       = (Ok (), st')
       ∧ I (S k) (all_embeddings st')) ->
  ∃ out st,
    generate_embeddings_batch create texts batch_size retry_limit retry_delay
    = (Ok out, st)
    ∧ I ((length texts + s - 1) / s)%nat out.
Proof.
  intros Hbs s H0 Hstep. unfold generate_embeddings_batch, range_step.
  rewrite !decide_False by lia. fold s.
  assert (∀ n, ∃ st,
    embed_batches create texts batch_size retry_limit retry_delay
                  ((λ k, k * s)%nat <$> seq 0 n) (State [] 0 [])
    = (Ok (), st) ∧ I n (all_embeddings st)) as Hinv.
  { induction n as [|n (st & Hrun & Hn)]; [by eexists|].
    rewrite seq_S, fmap_app, embed_batches_app, Hrun. simpl.
    destruct (Hstep n st Hn) as (st' & -> & HS). by exists st'. }
  destruct (Hinv ((length texts + s - 1) / s)%nat) as (st & -> & Hout).
  by exists (all_embeddings st), st.
Qed.

Lemma texts_covered (texts : list value) (s : nat) :
  (0 < s)%nat -> (length texts <= (length texts + s - 1) / s * s)%nat.
Proof.
  intros Hs.
  pose proof (Nat.div_mod (length texts + s - 1) s ltac:(lia)).
  pose proof (Nat.mod_upper_bound (length texts + s - 1) s ltac:(lia)).
  nia.
Qed.

Lemma generate_embeddings_batch_Forall2 (Q : value -> list float -> Prop)
    texts batch_size :
  0 < batch_size -> 0 < retry_limit ->
  (∀ batch_no batch st, ∃ block st',
     embed_batch create retry_limit retry_delay batch_no batch
                 (Z.to_nat retry_limit) 0 st
     = (Ok (), st')
     ∧ all_embeddings st' = all_embeddings st ++ block
     ∧ Forall2 Q batch block) ->
  ∃ out st,
    generate_embeddings_batch create texts batch_size retry_limit retry_delay
    = (Ok out, st) ∧ Forall2 Q texts out.
Proof.
  intros Hbs Hrl Hblock.
  destruct (generate_embeddings_batch_invariant
              (λ k os, Forall2 Q (take (k * Z.to_nat batch_size) texts) os)
              texts batch_size Hbs)
    as (out & st & Hrun & Hout).
  - simpl. constructor.
  - intros k st Hk.
    destruct (Hblock (Z.of_nat (k * Z.to_nat batch_size) `div` batch_size)
                (slice texts (k * Z.to_nat batch_size) batch_size) st)
      as (block & st' & Hrun & Hblk & HQ).
    exists st'. split; [done|]. rewrite Hblk.
    rewrite (take_slices texts (Z.to_nat batch_size) batch_size) by lia.
    by apply Forall2_app.
  - exists out, st. split; [done|].
    rewrite take_ge in Hout; [done|]. apply texts_covered. lia.
Qed.



End batches.


(** C2.  The batcher returns the embeddings in the order of the texts.
    Whenever the service answers a batch with the right vectors in any
    order, each tagged with the position of its text ([well_tagged]), and
    the delay between retries can be slept ([retry_delay >= 0]), the
    list returned has one entry per text, and the entry at the position of
    a text is the embedding of that text (or the empty placeholder of a
    batch whose attempts all failed); with a service that never fails the
    list is exactly the embeddings of the texts, in order.  In particular
    the batch [a, b, c] answered by [(2,v3), (0,v1), (1,v2)] yields
    [v1, v2, v3]. *)
Theorem embeddings_keep_input_order :
  (∀ (create : service) (emb : value -> list float) (texts : list value)
     (batch_size retry_limit retry_delay : Z),
     0 < batch_size -> 0 < retry_limit -> 0 <= retry_delay ->
     (∀ k batch data,
        create k batch = Ok data -> data ≡ₚ tagged (emb <$> batch)) ->
     ∃ out st,
       generate_embeddings_batch create texts batch_size retry_limit retry_delay
       = (Ok out, st)
       ∧ Forall2 (λ t o, o = emb t ∨ o = []) texts out
       ∧ ((∀ k batch, is_ok (create k batch) = true) -> out = emb <$> texts))
  ∧ (∀ (create : service) (a b c : value) (v1 v2 v3 : list float),
       create 0%nat [a; b; c] = Ok [Item 2 v3; Item 0 v1; Item 1 v2] ->
       fst (generate_embeddings_batch create [a; b; c] 10 3 5)
       = Ok [v1; v2; v3]).
Proof.
  split.
  - intros create emb texts bs rl rd Hbs Hrl Hrd Htag.
    destruct (generate_embeddings_batch_Forall2 create rl rd
                (λ t o, o = emb t ∨ o = []) texts bs Hbs Hrl)
      as (out & st & Hrun & Hout).
    { intros batch_no batch st.
      destruct (embed_batch_block create emb rl rd Hrd Htag batch_no batch
                  (Z.to_nat rl) 0 st)
        as (block & st' & Hrun & Hblock & Hshape & _); [lia | lia |].
      exists block, st'. split_and!; [done | done |].
      destruct Hshape as [-> | ->].
      - apply Forall2_fmap_r, Forall_Forall2_diag, Forall_forall.
        intros t _. by left.
      - apply Forall2_replicate_r; [done|]. apply Forall_forall.
        intros t _. by right. }
    exists out, st. split_and!; [done | done |].
    intros Hgood.
    destruct (generate_embeddings_batch_Forall2 create rl rd
                (λ t o, o = emb t) texts bs Hbs Hrl)
      as (out' & st' & Hrun' & Hout').
    { intros batch_no batch st0.
      destruct (embed_batch_block create emb rl rd Hrd Htag batch_no batch
                  (Z.to_nat rl) 0 st0)
        as (block & st1 & Hrun1 & Hblock & _ & Hexact & _); [lia | lia |].
      exists block, st1. split_and!; [done | done |].
      rewrite Hexact by (exists 0%nat; split; [lia | apply Hgood]).
      apply Forall2_fmap_r, Forall_Forall2_diag, Forall_forall. done. }
    rewrite Hrun in Hrun'. injection Hrun' as <- <-.
    clear -Hout'. induction Hout' as [|t o ts os -> _ IH]; simpl; [done|].
    by rewrite IH.
  - intros create a b c v1 v2 v3 Hcall.
    unfold generate_embeddings_batch. simpl. unfold slice. simpl.
    by rewrite Hcall.
Qed.

Lemma embeddings_keep_input_order_witness :
  (∃ out st,
     generate_embeddings_batch reversing_service sample_texts 2 3 5
     = (Ok out, st)
     ∧ Forall2 (λ t o, o = sample_emb t ∨ o = []) sample_texts out
     ∧ ((∀ k batch, is_ok (reversing_service k batch) = true) ->
        out = sample_emb <$> sample_texts))
  ∧ fst (generate_embeddings_batch abc_service
           [VStr "a"; VStr "b"; VStr "c"] 10 3 5)
    = Ok [[inject_Z 1]; [inject_Z 2]; [inject_Z 3]].
Proof.
  split.
  - apply (proj1 embeddings_keep_input_order reversing_service sample_emb
             sample_texts 2 3 5); [lia | lia | lia |].
    intros k batch data. unfold reversing_service.
    destruct (Nat.even k); [done|]. intros [= <-]. apply reverse_Permutation.
  - apply (proj2 embeddings_keep_input_order abc_service). reflexivity.
Defined.

(** *** [process_file] *)

Lemma add_embeddings_spec es : ∀ i (docs : list doc),
  (i + length es <= length docs)%nat ->
  add_embeddings docs i es
  = Ok (take i docs ++ zip_with attach (take (length es) (drop i docs)) es
          ++ drop (i + length es) docs).
Proof.
  induction es as [|e es IH]; intros i docs Hlen; simpl in *.
  - by rewrite Nat.add_0_r, take_drop.
  - destruct (lookup_lt_is_Some_2 docs i ltac:(lia)) as [d Hd].
    rewrite (drop_S _ _ _ Hd). simpl.
    replace (i + S (length es))%nat with (S i + length es)%nat by lia.
    destruct (truthy e) eqn:He.
    + replace (attach d e) with (<["embedding":=VVec e]> d)
        by (unfold attach; by rewrite He).
      rewrite Hd, IH by (rewrite length_insert; lia).
      rewrite (take_S_r _ i (<["embedding":=VVec e]> d))
        by (apply list_lookup_insert_eq; lia).
      rewrite take_insert_ge by lia.
      rewrite !drop_insert_lt by lia.
      by rewrite <- app_assoc.
    + replace (attach d e) with d by (unfold attach; by rewrite He).
      rewrite IH by lia.
      rewrite (take_S_r _ i d) by done. by rewrite <- app_assoc.
Qed.

Lemma filter_attached es : ∀ docs : list doc,
  Forall (λ d, d !! "embedding" = None) docs ->
  filter has_embedding
    (zip_with attach (take (length es) docs) es ++ drop (length es) docs)
  = documents_kept docs es.
Proof.
  unfold documents_kept.
  induction es as [|e es IH]; intros docs Hnone; simpl.
  - rewrite zip_with_nil_r. simpl. rewrite drop_0.
    induction Hnone as [|d docs Hd _ IHd]; [done|].
    rewrite filter_cons_False; [done|].
    unfold has_embedding. rewrite Hd. by intros [??].
  - destruct Hnone as [|d docs Hd Hnone]; [done|]. simpl.
    destruct (truthy e) eqn:He; simpl.
    + replace (attach d e) with (<["embedding":=VVec e]> d)
        by (unfold attach; by rewrite He).
      rewrite filter_cons_True; [by rewrite IH|].
      unfold has_embedding. rewrite lookup_insert_eq. eauto.
    + replace (attach d e) with d by (unfold attach; by rewrite He).
      rewrite filter_cons_False; [by rewrite IH|].
      unfold has_embedding. rewrite Hd. by intros [??].
Qed.










End EmbeddingsFacts.

(** ** Facts about the upload *)
Module UploadFacts.
Import PyM Mongo UploadSpec Scenarios.
Local Open Scope py_scope.

Lemma inserted_app tr1 tr2 : inserted (tr1 ++ tr2) = inserted tr1 ++ inserted tr2.
Proof. apply omap_app. Qed.

Lemma calm_ret {A} (a : A) : calm (ret a).
Proof. by intros st. Qed.

Lemma calm_call {A} (o : outcome A) : calm (call o).
Proof. by intros st. Qed.

Lemma calm_gets {A} (f : state -> A) : calm (gets f).
Proof. by intros st. Qed.

Lemma calm_log lvl msg : calm (log lvl msg).
Proof. intros st. simpl. by rewrite inserted_app, app_nil_r. Qed.

Lemma calm_bind {A B} (m : M A) (k : A -> M B) :
  calm m -> (∀ a, calm (k a)) -> calm (bind m k).
Proof.
  intros Hm Hk st. unfold bind. specialize (Hm st).
  destruct (m st) as [[a|e] st']; simpl in *; [|done].
  destruct (Hk a st') as [-> ->]. done.
Qed.

Lemma calm_try_except {A} (body : M A) (handler : exn -> M A) :
  calm body -> (∀ e, calm (handler e)) -> calm (try_except body handler).
Proof.
  intros Hm Hk st. unfold try_except. specialize (Hm st).
  destruct (body st) as [[a|e] st']; simpl in *; [done|].
  destruct (Hk e st') as [-> ->]. done.
Qed.

Lemma quiet_ret {A} (a : A) : quiet (ret a).
Proof. split; [apply calm_ret | done]. Qed.

Lemma quiet_log lvl msg : quiet (log lvl msg).
Proof. split; [apply calm_log | done]. Qed.

Lemma quiet_bind {A B} (m : M A) (k : A -> M B) :
  quiet m -> (∀ a, quiet (k a)) -> quiet (bind m k).
Proof.
  intros [Hm Hok] Hk. split.
  - apply calm_bind; [done|]. intros a. apply Hk.
  - intros st. unfold bind. specialize (Hok st).
    destruct (m st) as [[a|e] st']; [|done]. apply Hk.
Qed.

Lemma quiet_try_except {A} (body : M A) (handler : exn -> M A) :
  calm body -> (∀ e, quiet (handler e)) -> quiet (try_except body handler).
Proof.
  intros Hm Hk. split.
  - apply calm_try_except; [done|]. intros e. apply Hk.
  - intros st. unfold try_except.
    destruct (body st) as [[a|e] st']; [done|]. apply Hk.
Qed.

Lemma quiet_calm {A} (m : M A) : quiet m -> calm m.
Proof. by intros [? _]. Qed.

(** What a quiet statement does to a state, in the form used below. *)
Lemma quiet_run {A} (m : M A) st :
  quiet m ->
  ∃ a st', m st = (Ok a, st') ∧ inserts st' = inserts st
           ∧ inserted (trace st') = inserted (trace st).
Proof.
  intros [Hc Hok]. specialize (Hc st). specialize (Hok st).
  destruct (m st) as [[a|e] st']; [|done]. exists a, st'. by destruct Hc.
Qed.

Create HintDb upload.
#[local] Hint Resolve calm_ret calm_call calm_gets calm_log calm_bind
  calm_try_except quiet_ret quiet_log quiet_bind quiet_try_except quiet_calm
  : upload.

Lemma calm_emit ev :
  (∀ b r, ev ≠ Insert b r) -> calm (emit ev).
Proof.
  intros Hev st. simpl. rewrite inserted_app.
  destruct ev; simpl; rewrite ?app_nil_r; try done. by destruct (Hev batch result).
Qed.

Lemma quiet_connect db : quiet (connect db).
Proof.
  unfold connect. apply quiet_try_except.
  - repeat (apply calm_bind; [|intros ?]); auto with upload; by intros st.
  - intros e. auto with upload.
Qed.

Lemma connect_value db st : (connect db st).1 = Ok (connects db).
Proof.
  unfold connect, connects, try_except, bind, call.
  by destruct (new_client db), (ping db).
Qed.

Lemma quiet_check_vector_index db index_name :
  quiet (check_vector_index db index_name).
Proof.
  unfold check_vector_index. apply quiet_try_except.
  - apply calm_bind; [auto with upload|]. intros k.
    apply calm_bind.
    { intros st. simpl. by rewrite inserted_app, app_nil_r. }
    intros _. apply calm_bind; [auto with upload|]. intros indexes.
    destruct (has_index _ _); auto with upload.
  - intros e. auto with upload.
Qed.

Lemma quiet_create_vector_index db index_name :
  quiet (create_vector_index db index_name).
Proof.
  unfold create_vector_index. apply quiet_try_except.
  - apply calm_bind; [apply quiet_calm, quiet_check_vector_index|].
    intros [|]; [auto with upload|].
    apply calm_bind; [by apply calm_emit|]. intros _. auto with upload.
  - intros e. auto with upload.
Qed.

Lemma quiet_clear_collection db : quiet (clear_collection db).
Proof.
  unfold clear_collection. apply quiet_try_except.
  - apply calm_bind; [by apply calm_emit|]. intros _. auto with upload.
  - intros e. auto with upload.
Qed.

(** The upload loop never raises; it counts and performs exactly the
    inserts of [uploaded_total] and [uploaded_batches]. *)
Lemma for_each_insert_batch db documents batch_size starts : ∀ acc st,
  ∃ st',
    for_each starts acc (insert_batch db documents batch_size) st
    = (Ok (acc + uploaded_total db documents batch_size (inserts st) starts)%nat,
       st')
    ∧ inserted (trace st')
      = inserted (trace st)
        ++ uploaded_batches db documents batch_size (inserts st) starts.
Proof.
  induction starts as [|i starts IH]; intros acc st; simpl.
  - exists st. by rewrite Nat.add_0_r, app_nil_r.
  - unfold bind at 1, insert_batch at 1, try_except, bind, gets, modify, call.
    destruct (insert_many db (inserts st) (slice documents i batch_size))
      as [n|e] eqn:Hins; simpl.
    + edestruct IH as (st' & Hrun & Htr). rewrite Hrun. exists st'.
      rewrite Htr. simpl. rewrite !inserted_app. simpl.
      rewrite app_nil_r.
      split; [do 2 f_equal; lia | by rewrite <- app_assoc].
    + edestruct IH as (st' & Hrun & Htr). rewrite Hrun. exists st'.
      rewrite Htr. simpl. rewrite !inserted_app. simpl.
      rewrite !app_nil_r.
      split; [done | by rewrite <- app_assoc].
Qed.

Lemma upload_loop_spec db documents batch_size st :
  inserts st = 0%nat -> inserted (trace st) = [] ->
  ∃ r st',
    upload_loop db documents batch_size st = (r, st')
    ∧ match range_step (length documents) batch_size with
      | Ok starts =>
          r = Ok (uploaded_total db documents batch_size 0 starts)
          ∧ inserted (trace st')
            = uploaded_batches db documents batch_size 0 starts
      | Raise e => r = Raise e ∧ inserted (trace st') = []
      end.
Proof.
  intros Hk Htr. unfold upload_loop, batch_starts, bind at 1, call.
  destruct (range_step _ _) as [starts|e]; [|by eauto].
  unfold bind at 1.
  destruct (for_each_insert_batch db documents batch_size starts 0%nat st)
    as (st' & -> & Htr').
  eexists _, _. split; [reflexivity|]. simpl.
  by rewrite inserted_app, Htr', Htr, Hk, app_nil_r.
Qed.

Lemma disconnect_spec st :
  ∃ st', disconnect st = (Ok (), st')
         ∧ inserted (trace st') = inserted (trace st).
Proof.
  unfold disconnect, bind, gets.
  destruct (client st); simpl; eexists; split; try reflexivity.
  simpl. by rewrite !inserted_app, !app_nil_r.
Qed.

Ltac run_disconnect :=
  match goal with
  | |- context [disconnect ?s] =>
      let st' := fresh "st'" in
      let Hd := fresh "Hd" in
      let Htr := fresh "Htr" in
      destruct (disconnect_spec s) as (st' & Hd & Htr);
      rewrite Hd; exists st'; rewrite Htr
  end.

(** The upload of nba/connector.py: what it returns and writes. *)
Lemma upload_documents_spec db index_name documents batch_size clear_first :
  ∃ st,
    Connector.upload_documents db index_name documents batch_size clear_first
    = (Ok (expected_total db documents batch_size), st)
    ∧ inserted (trace st) = expected_batches db documents batch_size.
Proof.
  unfold Connector.upload_documents, Connector.upload_documents_body.
  unfold expected_total, expected_batches.
  change (bind (batch_starts documents batch_size) _)
    with (upload_loop db documents batch_size).
  unfold try_finally, try_except at 1, bind at 1.
  destruct (quiet_run (connect db) init (quiet_connect db))
    as (c & st1 & Hc & Hi1 & Ht1).
  pose proof (connect_value db init) as Hv. rewrite Hc in Hv.
  injection Hv as ->. rewrite Hc.
  destruct (connects db); cbn [negb]; cbv iota.
  2:{ unfold ret at 1. run_disconnect. by rewrite Ht1. }
  unfold bind at 1.
  destruct (quiet_run
    (if clear_first then bind (clear_collection db) (λ _, ret ()) else ret ())
    st1) as ([] & st2 & -> & Hi2 & Ht2).
  { destruct clear_first; auto using quiet_clear_collection with upload. }
  unfold bind at 1.
  destruct (quiet_run
    (try_except
       (bind (check_vector_index db index_name)
          (λ _, bind (create_vector_index db index_name) (λ _, ret ())))
       (λ _, log Warning "Ignoring vector index error")) st2)
    as ([] & st3 & -> & Hi3 & Ht3).
  { apply quiet_try_except; [|auto with upload].
    apply quiet_calm, quiet_bind; [apply quiet_check_vector_index|].
    intros _. apply quiet_bind; [apply quiet_create_vector_index|].
    auto with upload. }
  destruct (upload_loop_spec db documents batch_size st3)
    as (r & st4 & -> & Hloop); [simpl in *; congruence..|].
  destruct (range_step _ _) as [starts|e]; destruct Hloop as [-> Htr4].
  - by run_disconnect.
  - unfold bind at 1. simpl. run_disconnect.
    simpl. by rewrite inserted_app, Htr4.
Qed.

Lemma listed_connect db st : listed (connect db st).2 = listed st.
Proof.
  unfold connect, try_except, bind, call.
  by destruct (new_client db), (ping db).
Qed.

Lemma listed_clear_collection db st :
  listed (clear_collection db st).2 = listed st.
Proof.
  unfold clear_collection, try_except, bind, call.
  by destruct (delete_many db).
Qed.

Lemma check_vector_index_spec db index_name st :
  ∃ st',
    check_vector_index db index_name st
    = (Ok (index_found db index_name (listed st)), st')
    ∧ listed st' = S (listed st)
    ∧ inserts st' = inserts st
    ∧ inserted (trace st') = inserted (trace st).
Proof.
  unfold check_vector_index, index_found, try_except, bind, call, gets.
  simpl. destruct (list_indexes db (listed st)) as [names|e]; simpl.
  - destruct (has_index index_name names); simpl;
      eexists; split_and!; try reflexivity;
      simpl; by rewrite !inserted_app, !app_nil_r.
  - eexists; split_and!; try reflexivity.
    simpl; by rewrite !inserted_app, !app_nil_r.
Qed.

Lemma create_vector_index_spec db index_name st :
  ∃ st',
    create_vector_index db index_name st
    = (Ok (index_found db index_name (listed st)
           || is_ok (create_search_index db)), st')
    ∧ inserts st' = inserts st
    ∧ inserted (trace st') = inserted (trace st).
Proof.
  unfold create_vector_index, try_except at 1, bind at 1.
  destruct (check_vector_index_spec db index_name st)
    as (st1 & -> & _ & Hi & Htr).
  destruct (index_found db index_name (listed st)); simpl.
  - eauto.
  - unfold bind, call. simpl.
    destruct (create_search_index db); simpl;
      eexists; split_and!; try reflexivity; simpl;
      by rewrite ?inserted_app, ?app_nil_r.
Qed.

(** The upload of nba_mongodb_connector.py: what it returns and writes.
    Nothing is written unless the index is there or can be created. *)
Lemma legacy_upload_documents_spec db index_name documents batch_size
    clear_first :
  ∃ st,
    LegacyConnector.upload_documents db index_name documents batch_size
                                     clear_first
    = (Ok (if index_ready db index_name
           then expected_total db documents batch_size else 0%nat), st)
    ∧ inserted (trace st)
      = if index_ready db index_name
        then expected_batches db documents batch_size else [].
Proof.
  unfold LegacyConnector.upload_documents,
    LegacyConnector.upload_documents_body.
  unfold expected_total, expected_batches.
  change (bind (batch_starts documents batch_size) _)
    with (upload_loop db documents batch_size).
  unfold try_finally, try_except at 1, bind at 1.
  destruct (quiet_run (connect db) init (quiet_connect db))
    as (c & st1 & Hc & Hi1 & Ht1).
  pose proof (connect_value db init) as Hv.
  pose proof (listed_connect db init) as Hl1. rewrite Hc in Hv, Hl1.
  injection Hv as ->. rewrite Hc.
  destruct (connects db); cbn [negb]; cbv iota.
  2:{ unfold ret at 1. run_disconnect. rewrite Ht1.
      by destruct (index_ready _ _). }
  unfold bind at 1.
  pose proof (listed_clear_collection db st1) as Hl2.
  destruct (quiet_run
    (if clear_first then bind (clear_collection db) (λ _, ret ()) else ret ())
    st1) as ([] & st2 & Hclear & Hi2 & Ht2).
  { destruct clear_first; auto using quiet_clear_collection with upload. }
  rewrite Hclear.
  assert (listed st2 = 0%nat) as Hl.
  { destruct clear_first.
    - unfold bind in Hclear. destruct (clear_collection db st1) as [[?|?] ?];
        simpl in *; [|done]. injection Hclear as <-. congruence.
    - injection Hclear as <-. done. }
  unfold bind at 1.
  destruct (check_vector_index_spec db index_name st2)
    as (st3 & -> & Hl3 & Hi3 & Ht3).
  unfold index_ready. rewrite Hl in *.
  destruct (index_found db index_name 0); simpl orb.
  - unfold bind at 1, ret at 1. cbn [negb]. cbv iota.
    destruct (upload_loop_spec db documents batch_size st3)
      as (r & st4 & -> & Hloop); [simpl in *; congruence..|].
    destruct (range_step _ _) as [starts|e]; destruct Hloop as [-> Htr4].
    + by run_disconnect.
    + unfold bind at 1. simpl. run_disconnect.
      simpl. by rewrite inserted_app, Htr4.
  - unfold bind at 1.
    destruct (create_vector_index_spec db index_name st3)
      as (st4 & -> & Hi4 & Ht4).
    rewrite Hl3.
    destruct (index_found db index_name 1 || is_ok (create_search_index db));
      cbn [negb]; cbv iota.
    + destruct (upload_loop_spec db documents batch_size st4)
        as (r & st5 & -> & Hloop); [simpl in *; congruence..|].
      destruct (range_step _ _) as [starts|e]; destruct Hloop as [-> Htr5].
      * by run_disconnect.
      * unfold bind at 1. simpl. run_disconnect.
        simpl. by rewrite inserted_app, Htr5.
    + unfold bind at 1. simpl. run_disconnect.
      simpl. rewrite inserted_app. simpl. rewrite app_nil_r.
      split; [done|]. by rewrite Ht4, Ht3, Ht2, Ht1.
Qed.

(** *** The log is only added to *)

Lemma grows_ret {A} (a : A) : grows (ret a).
Proof. by intros st. Qed.

Lemma grows_call {A} (o : outcome A) : grows (call o).
Proof. by intros st. Qed.

Lemma grows_gets {A} (f : state -> A) : grows (gets f).
Proof. by intros st. Qed.

Lemma grows_emit ev : grows (emit ev).
Proof. intros st. simpl. by apply prefix_app_r. Qed.

Lemma grows_log lvl msg : grows (log lvl msg).
Proof. apply grows_emit. Qed.

Lemma grows_bind {A B} (m : M A) (k : A -> M B) :
  grows m -> (∀ a, grows (k a)) -> grows (bind m k).
Proof.
  intros Hm Hk st. unfold bind. specialize (Hm st).
  destruct (m st) as [[a|e] st']; simpl in *; [|done].
  by etrans; [|apply Hk].
Qed.

Lemma grows_try_except {A} (body : M A) (handler : exn -> M A) :
  grows body -> (∀ e, grows (handler e)) -> grows (try_except body handler).
Proof.
  intros Hm Hk st. unfold try_except. specialize (Hm st).
  destruct (body st) as [[a|e] st']; simpl in *; [done|].
  by etrans; [|apply Hk].
Qed.

Lemma grows_try_finally {A} (body : M A) (cleanup : M unit) :
  grows body -> grows cleanup -> grows (try_finally body cleanup).
Proof.
  intros Hm Hc st. unfold try_finally. specialize (Hm st).
  destruct (body st) as [r st']. specialize (Hc st').
  destruct (cleanup st') as [[[]|e] st'']; simpl in *; by etrans.
Qed.

Lemma grows_try_finally_cleanup {A} (body : M A) (cleanup : M unit) st :
  grows cleanup ->
  trace (body st).2 `prefix_of` trace (try_finally body cleanup st).2.
Proof.
  intros Hc. unfold try_finally.
  destruct (body st) as [r st']. specialize (Hc st').
  by destruct (cleanup st') as [[[]|e] st''].
Qed.

Lemma grows_for_each {A B} (l : list A) (body : B -> A -> M B) :
  (∀ acc x, grows (body acc x)) -> ∀ acc, grows (for_each l acc body).
Proof.
  intros Hbody. induction l as [|x l IH]; intros acc; simpl.
  - apply grows_ret.
  - apply grows_bind; [apply Hbody | intros acc'; apply IH].
Qed.

#[local] Hint Resolve grows_ret grows_call grows_gets grows_emit grows_log
  grows_bind grows_try_except grows_try_finally grows_for_each : upload.

Lemma grows_modify_trace (f : state -> state) :
  (∀ st, trace st `prefix_of` trace (f st)) -> grows (modify f).
Proof. intros Hf st. apply Hf. Qed.

Lemma grows_connect db : grows (connect db).
Proof.
  unfold connect. apply grows_try_except; [|auto with upload].
  apply grows_bind; [auto with upload|]. intros _.
  apply grows_bind; [by apply grows_modify_trace|]. auto with upload.
Qed.

Lemma grows_disconnect : grows disconnect.
Proof.
  unfold disconnect. apply grows_bind; [auto with upload|].
  intros [|]; auto with upload.
Qed.

Lemma grows_check_vector_index db index_name :
  grows (check_vector_index db index_name).
Proof.
  unfold check_vector_index. apply grows_try_except; [|auto with upload].
  apply grows_bind; [auto with upload|]. intros k.
  apply grows_bind.
  { apply grows_modify_trace. intros st. by apply prefix_app_r. }
  intros _. apply grows_bind; [auto with upload|]. intros names.
  destruct (has_index _ _); auto with upload.
Qed.

Lemma grows_create_vector_index db index_name :
  grows (create_vector_index db index_name).
Proof.
  unfold create_vector_index. apply grows_try_except; [|auto with upload].
  apply grows_bind; [apply grows_check_vector_index|].
  intros [|]; auto 10 with upload.
Qed.

Lemma grows_clear_collection db : grows (clear_collection db).
Proof. unfold clear_collection. auto 10 with upload. Qed.

Lemma grows_insert_batch db documents batch_size acc i :
  grows (insert_batch db documents batch_size acc i).
Proof.
  unfold insert_batch. apply grows_try_except; [|auto with upload].
  apply grows_bind; [auto with upload|]. intros k.
  apply grows_bind.
  { apply grows_modify_trace. intros st. by apply prefix_app_r. }
  auto 10 with upload.
Qed.

Lemma grows_upload_loop db documents batch_size :
  grows (upload_loop db documents batch_size).
Proof.
  unfold upload_loop, batch_starts.
  apply grows_bind; [auto with upload|]. intros starts.
  apply grows_bind; [|auto with upload].
  apply grows_for_each. intros. apply grows_insert_batch.
Qed.

(** A failed creation of the index leaves an error in the log. *)
Lemma create_vector_index_logs_failure db index_name st :
  index_found db index_name (listed st) = false ->
  is_ok (create_search_index db) = false ->
  logged Error "Error creating vector index"
         (trace (create_vector_index db index_name st).2).
Proof.
  intros Hfound Hcreate.
  unfold create_vector_index, try_except at 1, bind at 1.
  destruct (check_vector_index_spec db index_name st) as (st1 & -> & _).
  rewrite Hfound. unfold bind, call. simpl.
  destruct (create_search_index db); [done|]. simpl.
  unfold logged. set_solver.
Qed.

(** The totals of the upload loop do not depend on the index operations. *)
Lemma expected_total_with_index db li csi documents batch_size :
  expected_total (with_index_behaviour db li csi) documents batch_size
  = expected_total db documents batch_size.
Proof.
  unfold expected_total, connects. simpl.
  destruct (_ && _); [|done]. destruct (range_step _ _) as [starts|]; [|done].
  generalize 0%nat. induction starts as [|i starts IH]; intros k; simpl; [done|].
  by rewrite IH.
Qed.

Lemma expected_batches_with_index db li csi documents batch_size :
  expected_batches (with_index_behaviour db li csi) documents batch_size
  = expected_batches db documents batch_size.
Proof.
  unfold expected_batches, connects. simpl.
  destruct (_ && _); [|done]. destruct (range_step _ _) as [starts|]; [|done].
  generalize 0%nat. induction starts as [|i starts IH]; intros k; simpl; [done|].
  by rewrite IH.
Qed.

Lemma logged_prefix lvl msg tr1 tr2 :
  tr1 `prefix_of` tr2 -> logged lvl msg tr1 -> logged lvl msg tr2.
Proof. intros [tr ->] H. unfold logged in *. set_solver. Qed.

(** C3.  250 documents uploaded in batches of 100 over an established
    connection, the first and third [insert_many] inserting their whole
    batch and the second raising: the three batches are all handed to
    [insert_many], in order, and [upload_documents] returns 150 to its
    caller (it does not raise).  This holds for the connector of
    nba/connector.py, and for the one of nba_mongodb_connector.py once its
    index check lets the upload start. *)
Theorem upload_skips_failed_batch (db : store) (index_name : string)
    (documents : list doc) (clear_first : bool) :
  length documents = 250%nat ->
  connects db = true ->
  (∀ batch, insert_many db 0 batch = Ok (length batch)) ->
  (∀ batch, is_ok (insert_many db 1 batch) = false) ->
  (∀ batch, insert_many db 2 batch = Ok (length batch)) ->
  let run := Connector.upload_documents db index_name documents 100
                                        clear_first in
  let legacy := LegacyConnector.upload_documents db index_name documents 100
                                                 clear_first in
  (run.1 = Ok 150%nat
   ∧ (inserted (trace run.2)).*1
     = [take 100 documents; take 100 (drop 100 documents);
        drop 200 documents])
  ∧ (index_ready db index_name = true ->
     legacy.1 = Ok 150%nat
     ∧ (inserted (trace legacy.2)).*1
       = [take 100 documents; take 100 (drop 100 documents);
          drop 200 documents]).
Proof.
  intros Hlen Hconn H1 H2 H3 run legacy.
  assert (expected_total db documents 100 = 150%nat) as Htotal.
  { unfold expected_total. rewrite Hconn, Hlen.
    replace (range_step 250 100) with (Ok [0; 100; 200]%nat : outcome (list nat))
      by by vm_compute.
    simpl. rewrite H1, H3. specialize (H2 (slice documents 100 100)).
    destruct (insert_many db 1 _); [done|].
    unfold slice. rewrite !length_take, !length_drop, Hlen. by vm_compute. }
  assert ((expected_batches db documents 100).*1
          = [take 100 documents; take 100 (drop 100 documents);
             drop 200 documents]) as Hbatches.
  { unfold expected_batches. rewrite Hconn, Hlen.
    replace (range_step 250 100) with (Ok [0; 100; 200]%nat : outcome (list nat))
      by by vm_compute.
    simpl. unfold slice. simpl. rewrite drop_0.
    do 2 f_equal. f_equal. apply take_ge. rewrite length_drop, Hlen. lia. }
  split.
  - destruct (upload_documents_spec db index_name documents 100 clear_first)
      as (st & Hrun & Htr).
    subst run. rewrite Hrun. simpl. by rewrite Htr, Htotal.
  - intros Hready.
    destruct (legacy_upload_documents_spec db index_name documents 100
                clear_first) as (st & Hrun & Htr).
    subst legacy. rewrite Hrun. simpl.
    rewrite Htr, Hready, Htotal. done.
Qed.

Lemma upload_skips_failed_batch_witness :
  let run := Connector.upload_documents flaky_store "vector_index"
                                        documents_250 100 true in
  let legacy := LegacyConnector.upload_documents flaky_store "vector_index"
                                                 documents_250 100 true in
  (run.1 = Ok 150%nat
   ∧ (inserted (trace run.2)).*1
     = [take 100 documents_250; take 100 (drop 100 documents_250);
        drop 200 documents_250])
  ∧ legacy.1 = Ok 150%nat
  ∧ (inserted (trace legacy.2)).*1
    = [take 100 documents_250; take 100 (drop 100 documents_250);
       drop 200 documents_250].
Proof.
  pose proof (upload_skips_failed_batch flaky_store "vector_index"
                documents_250 true) as H.
  destruct H as [Hrun Hlegacy]; [reflexivity | reflexivity | done..|].
  split; [exact Hrun | apply Hlegacy; reflexivity].
Defined.

(** C7, for the connector of nba/connector.py.  Whatever the index
    operations do, [upload_documents] returns the same total and writes the
    same batches as with index operations that succeed.  When the index is
    not found and its creation raises, the error is logged, and the upload
    still returns the total of the upload loop. *)
Theorem index_failure_does_not_abort_upload :
  index_failure_tolerated Connector.upload_documents
  ∧ ∀ db index_name documents batch_size clear_first,
      connects db = true ->
      index_found db index_name 1 = false ->
      is_ok (create_search_index db) = false ->
      let run := Connector.upload_documents db index_name documents
                                            batch_size clear_first in
      logged Error "Error creating vector index" (trace run.2)
      ∧ run.1 = Ok (expected_total db documents batch_size)
      ∧ inserted (trace run.2) = expected_batches db documents batch_size.
Proof.
  split.
  - intros db index_name documents batch_size clear_first li csi run run'.
    destruct (upload_documents_spec db index_name documents batch_size
                clear_first) as (st & Hrun & Htr).
    destruct (upload_documents_spec (with_index_behaviour db li csi)
                index_name documents batch_size clear_first)
      as (st' & Hrun' & Htr').
    subst run run'. rewrite Hrun, Hrun'. simpl. rewrite Htr, Htr'.
    by rewrite expected_total_with_index, expected_batches_with_index.
  - intros db index_name documents batch_size clear_first Hconn Hfound Hcreate
      run.
    destruct (upload_documents_spec db index_name documents batch_size
                clear_first) as (st & Hrun & Htr).
    split; [|by subst run; rewrite Hrun].
    clear st Hrun Htr. subst run.
    unfold Connector.upload_documents, Connector.upload_documents_body.
    change (bind (batch_starts documents batch_size) _)
      with (upload_loop db documents batch_size).
    eapply logged_prefix.
    { apply grows_try_finally_cleanup, grows_disconnect. }
    unfold try_except at 1, bind at 1.
    destruct (quiet_run (connect db) init (quiet_connect db))
      as (c & st1 & Hc & _).
    pose proof (connect_value db init) as Hv.
    pose proof (listed_connect db init) as Hl1. rewrite Hc in Hv, Hl1.
    rewrite Hconn in Hv. injection Hv as ->. rewrite Hc.
    cbn [negb]. cbv iota. unfold bind at 1.
    pose proof (listed_clear_collection db st1) as Hl2.
    destruct (quiet_run
      (if clear_first then bind (clear_collection db) (λ _, ret ()) else ret ())
      st1) as ([] & st2 & Hclear & _).
    { destruct clear_first; auto using quiet_clear_collection with upload. }
    rewrite Hclear.
    assert (listed st2 = 0%nat) as Hl.
    { destruct clear_first.
      - unfold bind in Hclear. destruct (clear_collection db st1) as [[?|?] ?];
          simpl in *; [|done]. injection Hclear as <-. congruence.
      - injection Hclear as <-. done. }
    unfold bind at 1, try_except at 1, bind at 1.
    destruct (check_vector_index_spec db index_name st2)
      as (st3 & -> & Hl3 & _).
    unfold bind at 1.
    pose proof (create_vector_index_logs_failure db index_name st3) as Hlog.
    rewrite Hl3, Hl in Hlog. specialize (Hlog Hfound Hcreate).
    destruct (create_vector_index_spec db index_name st3) as (st4 & Hcr & _).
    rewrite Hcr in Hlog |- *. unfold ret at 1.
    pose proof (grows_upload_loop db documents batch_size st4) as Hgrow.
    destruct (upload_loop db documents batch_size st4) as [[n|e] st5]; simpl in *.
    + by eapply logged_prefix.
    + eapply logged_prefix; [by apply prefix_app_r|done].
Qed.

Lemma index_failure_does_not_abort_upload_witness :
  let run := Connector.upload_documents
               (with_index_behaviour indexed_store no_indexes creation_refused)
               "vector_index" three_documents 100 false in
  logged Error "Error creating vector index" (trace run.2)
  ∧ run.1 = Ok 3%nat
  ∧ (inserted (trace run.2)).*1 = [three_documents].
Proof.
  intros run.
  destruct (proj2 index_failure_does_not_abort_upload
              (with_index_behaviour indexed_store no_indexes creation_refused)
              "vector_index" three_documents 100 false)
    as (Hlog & Hrun & Hins); [reflexivity..|].
  fold run in Hlog, Hrun, Hins. rewrite Hrun, Hins. done.
Defined.

(** C7, against the connector of nba_mongodb_connector.py.  There a
    failure of the index step aborts the upload: with the index missing and
    its creation refused the call returns 0 and writes nothing, though the
    same documents are written when the index is there. *)
Lemma legacy_index_failure_aborts_upload :
  ¬ index_failure_tolerated LegacyConnector.upload_documents.
Proof.
  intros H.
  destruct (H indexed_store "vector_index" three_documents 100 false
              no_indexes creation_refused) as [Htotal _].
  vm_compute in Htotal. discriminate.
Qed.

End UploadFacts.

(** ** Facts about Python strings and integers *)
Module PyStrFacts.
Import PyStr.

Lemma chars_app s1 s2 : chars (s1 +:+ s2) = chars s1 ++ chars s2.
Proof. induction s1 as [|a s1 IH]; simpl; [done|]. by rewrite <- IH. Qed.

Lemma lstrip_id cs : Forall not_space cs -> lstrip cs = cs.
Proof. destruct 1 as [|c cs Hc _]; simpl; [done|]. by rewrite Hc. Qed.

Lemma strip_id cs : Forall not_space cs -> strip cs = cs.
Proof.
  intros H. unfold strip. rewrite (lstrip_id cs H).
  rewrite lstrip_id by by apply Forall_reverse.
  apply reverse_involutive.
Qed.

Lemma uint_chars_not_space u :
  Forall not_space (chars (NilEmpty.string_of_uint u)).
Proof. induction u; simpl; constructor; done. Qed.

Lemma digits_uint u : digits (chars (NilEmpty.string_of_uint u)) true = Some u.
Proof. induction u as [|u IH|u IH|u IH|u IH|u IH|u IH|u IH|u IH|u IH|u IH];
  simpl; [done|..]; by rewrite IH. Qed.

Lemma digits_uint_start u :
  u ≠ Nil -> digits (chars (NilEmpty.string_of_uint u)) false = Some u.
Proof. destruct u; [done|..]; intros _; simpl; by rewrite digits_uint. Qed.

Lemma py_int_uint u :
  u ≠ Nil ->
  py_int (chars (NilEmpty.string_of_uint u)) = Some (Z.of_int (Pos u)).
Proof.
  intros Hu. unfold py_int. rewrite strip_id by apply uint_chars_not_space.
  pose proof (digits_uint_start u Hu) as Hd.
  destruct u; [done|..]; simpl in *; by rewrite digits_uint.
Qed.

(** [int(str(n)) == n] *)
Lemma py_int_py_str n : py_int (chars (py_str n)) = Some n.
Proof.
  rewrite <- (DecimalZ.of_to n) at 2. unfold py_str.
  destruct n as [|p|p]; simpl Z.to_int.
  - done.
  - apply py_int_uint, Unsigned.to_uint_nonnil.
  - unfold py_int. simpl NilEmpty.string_of_int.
    change (chars (String "-" ?s)) with ("-"%char :: chars s).
    rewrite strip_id by (constructor; [done | apply uint_chars_not_space]).
    by rewrite digits_uint_start by apply Unsigned.to_uint_nonnil.
Qed.

Lemma startswith_app p s : startswith (p +:+ s) p = true.
Proof.
  unfold startswith. rewrite chars_app, take_app_length.
  by apply bool_decide_eq_true.
Qed.

Lemma endswith_app s p : endswith (s +:+ p) p = true.
Proof.
  unfold endswith. rewrite chars_app, length_app.
  replace (length (chars s) + length (chars p) - length (chars p))%nat
    with (length (chars s)) by lia.
  rewrite drop_app_length. by apply bool_decide_eq_true.
Qed.

Lemma slice_to_end_app p s q :
  slice_to_end (p +:+ s +:+ q) (length (chars p)) (length (chars q)) = chars s.
Proof.
  unfold slice_to_end. rewrite !chars_app, !length_app, drop_app_length.
  replace (length (chars p) + (length (chars s) + length (chars q))
           - length (chars q) - length (chars p))%nat
    with (length (chars s)) by lia.
  by rewrite take_app_length.
Qed.

End PyStrFacts.

(** ** Facts about the checkpoint scan and the bulk drivers *)
Module CollectorFacts.
Import PyStr Collector CollectorSpec PyStrFacts Scenarios.

Lemma entity_file_startswith prefix n :
  startswith (entity_file prefix n) prefix = true.
Proof. apply startswith_app. Qed.

Lemma entity_file_endswith prefix n :
  endswith (entity_file prefix n) ".json" = true.
Proof.
  unfold entity_file, endswith. rewrite !chars_app, app_assoc.
  rewrite (length_app (_ ++ _)).
  replace (length (chars prefix ++ chars (py_str n)) + length (chars ".json")
           - length (chars ".json"))%nat
    with (length (chars prefix ++ chars (py_str n))) by lia.
  rewrite drop_app_length. by apply bool_decide_eq_true.
Qed.

(** The identifier read back from the name of an entity file is the
    identifier the name was made from. *)
Lemma entity_file_id prefix n :
  py_int (slice_to_end (entity_file prefix n) (length (chars prefix)) 5)
  = Some n.
Proof.
  unfold entity_file.
  change 5%nat with (length (chars ".json")).
  rewrite slice_to_end_app. apply py_int_py_str.
Qed.

(** The identifiers found by the scan: those it started with and those
    read from the names with the prefix and the [.json] suffix. *)
Lemma elem_of_scan fnames prefix : ∀ ids n,
  n ∈ scan fnames prefix ids
  ↔ n ∈ ids
    ∨ ∃ fname, fname ∈ fnames
        ∧ startswith fname prefix = true
        ∧ endswith fname ".json" = true
        ∧ py_int (slice_to_end fname (length (chars prefix)) 5) = Some n.
Proof.
  induction fnames as [|fname fnames IH]; intros ids n; simpl.
  - split; [auto|]. intros [?|(? & []%elem_of_nil & _)]. done.
  - assert (∀ P : string -> Prop,
      (∃ f, f ∈ fname :: fnames ∧ P f) ↔ P fname ∨ ∃ f, f ∈ fnames ∧ P f)
      as Hcons.
    { intros P. split.
      - intros (f & [->|Hf]%elem_of_cons & HP); eauto.
      - intros [HP|(f & Hf & HP)];
          [exists fname | exists f]; split; auto; by constructor. }
    rewrite Hcons. clear Hcons.
    destruct (startswith fname prefix), (endswith fname ".json"); simpl;
      try (rewrite IH; intuition congruence).
    destruct (py_int _) as [m|]; rewrite IH; [|intuition congruence].
    rewrite elem_of_union, elem_of_singleton. intuition congruence.
Qed.

Lemma scan_entity_file fnames prefix n :
  entity_file prefix n ∈ fnames -> n ∈ scan fnames prefix ∅.
Proof.
  intros Hin. apply elem_of_scan. right. exists (entity_file prefix n).
  auto using entity_file_startswith, entity_file_endswith, entity_file_id.
Qed.

Lemma not_collected_nil already entities :
  (∀ p, p ∈ entities -> id p ∈ already) -> not_collected already entities = [].
Proof.
  intros Hall. unfold not_collected.
  induction entities as [|p entities IH]; [done|].
  rewrite filter_cons_False by (intros Hp; apply Hp, Hall; by left).
  apply IH. intros q Hq. apply Hall. by right.
Qed.

Lemma apply_limit_subseteq limit entities p :
  p ∈ apply_limit limit entities -> p ∈ entities.
Proof.
  unfold apply_limit. destruct limit as [n|]; [|done].
  repeat case_decide; [done|..]; intros Hp; by eapply subseteq_take.
Qed.

(** C9, as amended.  When the output directory does not exist, the
    checkpoint scan returns the empty set of identifiers and does not raise,
    whatever listing the directory would have done. *)
Theorem missing_directory_is_nothing_collected (self : collector)
    (prefix : string) :
  path_exists (output_dir self) = false ->
  _already_collected_ids self prefix = Ok ∅.
Proof. intros Hmissing. unfold _already_collected_ids. by rewrite Hmissing. Qed.

Lemma missing_directory_is_nothing_collected_witness :
  _already_collected_ids missing_collector "player_" = Ok ∅.
Proof.
  apply (missing_directory_is_nothing_collected missing_collector "player_").
  reflexivity.
Defined.

(** C9, as the specification words it, fails: an output directory that
    exists but cannot be listed (no read permission, say) makes
    [os.listdir] raise, and the scan lets the exception through. *)
Lemma unlistable_directory_raises : ¬ unlistable_is_nothing_collected.
Proof.
  intros H. specialize (H unreadable_collector "player_" eq_refl).
  discriminate.
Qed.

(** C6.  A bulk collection started on an output directory that holds the
    file of every player (of every team) hands no entity to the pool:
    [process_player] runs on none, so no per-entity remote call is made,
    whatever the cache holds and whatever the remote API would answer.
    More generally an entity whose file is in the directory is never among
    the entities to process. *)
Theorem resume_skips_collected_entities (fnames : list string)
    (written : outcome unit) (cache : gmap string string) (svc : services)
    (all_players all_teams : list entity) (limit : option Z)
    (sched : list event) :
  let self := CollectorObj (Directory true (Ok fnames) written) cache in
  (∀ prefix p,
     entity_file prefix (id p) ∈ fnames ->
     ∃ already, _already_collected_ids self prefix = Ok already
                ∧ ∀ entities, p ∉ not_collected already entities)
  ∧ ((∀ p, p ∈ all_players -> entity_file "player_" (id p) ∈ fnames) ->
     collect_data_for_all_players self svc all_players limit sched
     = match written with Ok _ => Ok AllCollected | Raise e => Raise e end)
  ∧ ((∀ p, p ∈ all_teams -> entity_file "team_" (id p) ∈ fnames) ->
     collect_data_for_all_teams self svc all_teams sched
     = match written with Ok _ => Ok AllCollected | Raise e => Raise e end)
  ∧ remote_calls AllCollected = [].
Proof.
  intros self. split_and!; [| | |done].
  - intros prefix p Hfile. exists (scan fnames prefix ∅). split; [done|].
    intros entities [Hnot _]%list_elem_of_filter.
    by apply Hnot, scan_entity_file.
  - intros Hall.
    unfold collect_data_for_all_players. simpl.
    destruct written; [|done].
    rewrite not_collected_nil; [done|].
    intros p Hp%apply_limit_subseteq. by apply scan_entity_file, Hall.
  - intros Hall.
    unfold collect_data_for_all_teams. simpl.
    destruct written; [|done].
    rewrite not_collected_nil; [done|].
    intros p Hp. by apply scan_entity_file, Hall.
Qed.

Lemma resume_skips_collected_entities_witness :
  let self := CollectorObj (Directory true (Ok collected_fnames) (Ok ()))
                           warm_cache in
  collect_data_for_all_players self (failing_for []) two_players None
                               run_ahead
  = Ok AllCollected
  ∧ collect_data_for_all_teams self (failing_for []) one_team run_ahead
    = Ok AllCollected.
Proof.
  intros self.
  destruct (resume_skips_collected_entities collected_fnames (Ok ())
              warm_cache (failing_for []) two_players one_team None run_ahead)
    as (_ & Hplayers & Hteams & _).
  split.
  - apply Hplayers. intros p Hp.
    repeat (apply elem_of_cons in Hp as [->|Hp]);
      [apply list_elem_of_In; vm_compute; tauto..|by apply elem_of_nil in Hp].
  - apply Hteams. intros p Hp.
    repeat (apply elem_of_cons in Hp as [->|Hp]);
      [apply list_elem_of_In; vm_compute; tauto..|by apply elem_of_nil in Hp].
Defined.

(** *** The collection of one entity leaves the counter to its handler *)

Lemma steady_ret {A} (a : A) : steady (PyM.ret a).
Proof. by intros sh. Qed.

Lemma steady_call {A} (o : outcome A) : steady (PyM.call o).
Proof. by intros sh. Qed.

Lemma steady_gets {A} (f : shared -> A) : steady (PyM.gets f).
Proof. by intros sh. Qed.

Lemma steady_modify (f : shared -> shared) :
  (∀ sh, tracker_count (f sh) = tracker_count sh) -> steady (PyM.modify f).
Proof. intros Hf sh. apply Hf. Qed.

Lemma steady_bind {A B} (m : PyM.M shared A) (k : A -> PyM.M shared B) :
  steady m -> (∀ a, steady (k a)) -> steady (PyM.bind m k).
Proof.
  intros Hm Hk sh. unfold PyM.bind. specialize (Hm sh).
  destruct (m sh) as [[a|e] sh']; simpl in *; [|done].
  by rewrite Hk.
Qed.

Lemma steady_try_except {A} (body : PyM.M shared A)
    (handler : exn -> PyM.M shared A) :
  steady body -> (∀ e, steady (handler e)) ->
  steady (PyM.try_except body handler).
Proof.
  intros Hm Hk sh. unfold PyM.try_except. specialize (Hm sh).
  destruct (body sh) as [[a|e] sh']; simpl in *; [done|].
  by rewrite Hk.
Qed.

Lemma steady_get_with_cache cache_key fetch_func :
  steady fetch_func -> steady (_get_with_cache cache_key fetch_func).
Proof.
  intros Hfetch. unfold _get_with_cache.
  apply steady_bind; [apply steady_gets|]. intros c.
  destruct (c !! cache_key); [apply steady_ret|].
  apply steady_try_except; [|intros e; apply steady_call].
  apply steady_bind; [done|]. intros data.
  apply steady_bind; [by apply steady_modify | intros _; apply steady_ret].
Qed.

Lemma steady_fetch svc cache_key : steady (fetch svc cache_key).
Proof.
  unfold fetch. apply steady_bind; [by apply steady_modify|]. intros _.
  apply steady_bind; [apply steady_call | intros r; apply steady_call].
Qed.

Lemma steady_write_json svc path : steady (write_json svc path).
Proof.
  unfold write_json.
  apply steady_bind; [apply steady_call|]. intros _.
  apply steady_bind; [by apply steady_modify|]. intros _.
  apply steady_call.
Qed.

Lemma steady_collect_entity svc first second prefix e :
  (∀ n, steady (first svc n)) -> (∀ n, steady (second svc n)) ->
  steady (collect_entity svc first second prefix e).
Proof.
  intros H1 H2. unfold collect_entity.
  apply steady_bind; [apply H1|]. intros _.
  apply steady_bind; [apply H2|]. intros _.
  apply steady_write_json.
Qed.

(** [process_player] and [process_team] add one to the counter when the
    collection of the entity fails, and leave it as it is otherwise. *)
Lemma process_entity_counts body sh :
  steady body ->
  tracker_count (process_entity body sh).2
  = if (process_entity body sh).1 then (tracker_count sh + 1)%nat
    else tracker_count sh.
Proof.
  intros Hbody. unfold process_entity. specialize (Hbody sh).
  destruct (body sh) as [[[]|e] sh']; simpl in *; by rewrite Hbody.
Qed.

Lemma process_team_counts svc team sh :
  tracker_count (process_team svc team sh).2
  = if (process_team svc team sh).1 then (tracker_count sh + 1)%nat
    else tracker_count sh.
Proof.
  apply process_entity_counts, steady_collect_entity; intros n;
    apply steady_get_with_cache, steady_fetch.
Qed.

Lemma process_player_counts svc player sh :
  tracker_count (process_player svc player sh).2
  = if (process_player svc player sh).1 then (tracker_count sh + 1)%nat
    else tracker_count sh.
Proof.
  apply process_entity_counts, steady_collect_entity; intros n;
    apply steady_get_with_cache, steady_fetch.
Qed.

(** *** The circuit breaker *)

Section breaker.
Context (max_timeouts timeout_window : nat).
Context (process : entity -> shared -> bool * shared).
Context (to_process : list entity).
Hypothesis window_pos : (0 < timeout_window)%nat.
Hypothesis process_counts : ∀ e sh,
  tracker_count (process e sh).2
  = if (process e sh).1 then (tracker_count sh + 1)%nat else tracker_count sh.
Local Abbreviation step :=
  (Collector.step max_timeouts timeout_window process to_process).
Local Abbreviation W := timeout_window.
Local Abbreviation sound := (CollectorSpec.sound timeout_window).
Local Abbreviation in_window :=
  (CollectorSpec.in_window max_timeouts timeout_window process to_process).
Local Abbreviation fails_now := (CollectorSpec.fails_now process to_process).

Lemma sound_init cache0 :
  sound (Pool (Shared cache0 0 [] []) 0 false [] []).
Proof.
  split; simpl.
  - lia.
  - by intros k Hk%elem_of_nil.
  - done.
Qed.

Lemma failures_from_cons lo k b fin :
  failures_from lo ((k, b) :: fin)
  = ((if b then if decide (lo <= k)%nat then 1 else 0 else 0)
     + failures_from lo fin)%nat.
Proof.
  unfold failures_from. destruct b.
  - case_decide.
    + by rewrite filter_cons_True.
    + rewrite filter_cons_False; [done|]. simpl. tauto.
  - rewrite filter_cons_False; [done|]. simpl. by intros [? _].
Qed.

Lemma failures_from_beyond lo fin :
  (∀ k, (k, true) ∈ fin -> (k < lo)%nat) -> failures_from lo fin = 0%nat.
Proof.
  intros Hlt. unfold failures_from.
  induction fin as [|[k b] fin IH]; [done|].
  rewrite filter_cons_False.
  - apply IH. intros k' Hk'. apply Hlt. by right.
  - simpl. intros [-> Hle]. specialize (Hlt k ltac:(by left)). lia.
Qed.

(** In window [j] with every recorded failure in a window up to [j], the
    failures from the start of window [j] are the failures of window [j]. *)
Lemma failures_from_window j fin :
  (∀ k, (k, true) ∈ fin -> (k `div` W <= j)%nat) ->
  failures_from (W * j) fin = window_failures W j fin.
Proof.
  intros Hle. unfold failures_from, window_failures.
  induction fin as [|[k b] fin IH]; [done|].
  assert (∀ k', (k', true) ∈ fin -> (k' `div` W <= j)%nat) as Hle'
    by (intros k' Hk'; apply Hle; by right).
  destruct b.
  - specialize (Hle k ltac:(by left)).
    destruct (decide (W * j <= k)%nat) as [Hk|Hk].
    + rewrite !filter_cons_True; simpl; [by rewrite IH| |done].
      split; [done|]. apply Nat.le_antisymm; [done|].
      apply Nat.div_le_lower_bound; lia.
    + rewrite !filter_cons_False; simpl; [by apply IH| |tauto].
      intros [_ <-]. apply Hk. apply Nat.Div0.mul_div_le.
  - rewrite !filter_cons_False; simpl; [by apply IH|by intros [? _]..].
Qed.

Lemma sound_step st ev :
  sound st ->
  match ev with
  | Finish k =>
      fails_now st k = true -> (W * (k `div` W) <= consumed st)%nat
  | Start _ | Next => True
  end ->
  sound (step st ev).
Proof.
  intros Hst Hwin. pose proof Hst as [Hcons Hreach Hcount].
  destruct ev as [k|k|]; simpl.
  - destruct (stopped st) eqn:Hstop; [done|].
    destruct (_ && _); [|done].
    split; simpl; [done | done | intros _; by apply Hcount].
  - unfold CollectorSpec.fails_now in Hwin.
    destruct (to_process !! k) as [e|]; [|done].
    destruct (is_started k st); [|done].
    destruct (is_finished k st) eqn:Hfresh; [done|].
    apply bool_decide_eq_false in Hfresh. simpl in Hwin |- *.
    pose proof (process_counts e (workers st)) as Hp.
    destruct (process e (workers st)) as [failed sh]. simpl in Hp, Hwin.
    assert (consumed st <= k)%nat as Hk.
    { destruct (decide (k < consumed st)%nat) as [Hlt|]; [|lia].
      destruct Hfresh. by apply Hcons. }
    split; simpl.
    + intros i Hi. right. by apply Hcons.
    + intros k' [[= -> <-]|Hk']%elem_of_cons; [|by apply Hreach].
      apply Nat.div_le_lower_bound; [lia|by apply Hwin].
    + intros Hrun. unfold count in *. simpl.
      rewrite failures_from_cons, <- (Hcount Hrun), Hp.
      destruct failed; simpl; [|done].
      rewrite decide_True; [lia|].
      etrans; [apply Nat.Div0.mul_div_le|done].
  - destruct (stopped st) eqn:Hstop.
    { split; [done | done | congruence]. }
    destruct (bool_decide (consumed st < length to_process)%nat
              && is_finished (consumed st) st) eqn:Hok;
      [|split; [done | done | intros _; by apply Hcount]].
    apply andb_true_iff in Hok as [_ Hfin%bool_decide_eq_true].
    unfold check_window.
    assert (∀ i, (i < S (consumed st))%nat -> i ∈ (finished st).*1) as Hcons'.
    { intros i Hi. destruct (decide (i = consumed st)) as [->|]; [done|].
      apply Hcons. lia. }
    assert (consumed st `div` W <= S (consumed st) `div` W)%nat as Hmono
      by (apply Nat.Div0.div_le_mono; lia).
    case_decide as Hend.
    + assert (S (consumed st) `div` W = S (consumed st `div` W))%nat as Hnext.
      { pose proof (Nat.div_mod (consumed st) W ltac:(lia)).
        pose proof (Nat.mod_upper_bound (consumed st) W ltac:(lia)).
        pose proof (Nat.div_mod (consumed st + 1) W ltac:(lia)) as Hdm.
        rewrite Hend, Nat.add_0_r in Hdm.
        replace (S (consumed st)) with (consumed st + 1)%nat by lia.
        nia. }
      case_decide; split; simpl; try done.
      * intros k Hk. etrans; [by apply Hreach|done].
      * intros k Hk. etrans; [by apply Hreach|done].
      * intros _. unfold count. simpl. symmetry. apply failures_from_beyond.
        intros k Hk%Hreach. rewrite Hnext.
        pose proof (Nat.div_mod k W ltac:(lia)).
        pose proof (Nat.mod_upper_bound k W ltac:(lia)).
        nia.
    + assert (S (consumed st) `div` W = consumed st `div` W)%nat as Hsame.
      { pose proof (Nat.div_mod (consumed st) W ltac:(lia)).
        pose proof (Nat.mod_upper_bound (consumed st) W ltac:(lia)).
        pose proof (Nat.div_mod (consumed st + 1) W ltac:(lia)) as Hdm.
        pose proof (Nat.mod_upper_bound (consumed st + 1) W ltac:(lia)).
        replace (S (consumed st)) with (consumed st + 1)%nat by lia.
        nia. }
      split; simpl; try done.
      * intros k Hk. rewrite Hsame. by apply Hreach.
      * intros _. rewrite Hsame. by apply Hcount.
Qed.

Lemma sound_run sched : ∀ st,
  sound st -> in_window st sched = true -> sound (foldl step st sched).
Proof.
  induction sched as [|ev sched IH]; intros st Hst Hwin; simpl in *; [done|].
  apply andb_true_iff in Hwin as [Hev Hwin].
  apply IH; [|done]. apply sound_step; [done|].
  destruct ev as [k|k|]; [done| |done]. intros Hfails. rewrite Hfails in Hev.
  by apply bool_decide_eq_true in Hev.
Qed.

(** Once the loop has left by [break] it takes no further result, and no
    further entity is started. *)
Lemma stopped_run sched : ∀ st,
  stopped st = true ->
  stopped (foldl step st sched) = true
  ∧ consumed (foldl step st sched) = consumed st
  ∧ started (foldl step st sched) = started st.
Proof.
  induction sched as [|ev sched IH]; intros st Hstop; simpl; [done|].
  destruct ev as [k|k|]; simpl.
  - rewrite Hstop. by apply IH.
  - destruct (to_process !! k) as [e|]; [|by apply IH].
    destruct (is_started k st && negb (is_finished k st)); [|by apply IH].
    destruct (process e (workers st)) as [failed sh].
    destruct (IH (Pool sh (consumed st) (stopped st) (started st)
                       ((k, failed) :: finished st)) Hstop)
      as (-> & -> & ->). done.
  - rewrite Hstop. by apply IH.
Qed.

End breaker.

(** C5.  The breaker counts in one shared counter, which the workers
    increment when they fail and the loop only reads and resets at the end
    of a window, so a failure recorded while an earlier window is still
    being taken is counted in that window and lost to its own.  Team
    collection with the default pool of two workers:
    - eleven teams, of which four of the first ten fail, and the eleventh
      fails while the tenth is still being handled: at the end of the first
      window the counter is 5 and the loop stops, though exactly 4 teams of
      the window failed;
    - thirty teams, of which the eleventh to the fifteenth fail, the
      eleventh while the tenth is still being handled: at the end of the
      second window the counter is 4 and the loop goes on with the counter
      reset, though 5 teams of the window failed. *)
Theorem team_breaker_miscounts_window :
  (feasible 2 (length eleven_teams) [] [] (run_ahead ++ [Next]) = true
   ∧ let st := run_pool 5 10 (process_team (failing_for four_and_eleventh))
                        eleven_teams ∅ run_ahead in
     let st' := Collector.step 5 10
                  (process_team (failing_for four_and_eleventh))
                  eleven_teams st Next in
     stopped st = false ∧ consumed st = 9%nat
     ∧ window_failures 10 0 (finished st) = 4%nat
     ∧ count st = 5%nat
     ∧ stopped st' = true ∧ consumed st' = 10%nat)
  ∧ (feasible 2 (length thirty_teams) [] [] (run_ahead_then_lockstep ++ [Next])
     = true
     ∧ let st := run_pool 5 10
                   (process_team (failing_for five_of_second_window))
                   thirty_teams ∅ run_ahead_then_lockstep in
       let st' := Collector.step 5 10
                    (process_team (failing_for five_of_second_window))
                    thirty_teams st Next in
       stopped st = false ∧ consumed st = 19%nat
       ∧ window_failures 10 1 (finished st) = 5%nat
       ∧ count st = 4%nat
       ∧ stopped st' = false ∧ count st' = 0%nat ∧ consumed st' = 20%nat).
Proof. split; split; [vm_compute; reflexivity | by vm_compute..]. Qed.

End CollectorFacts.

Module RetryMore.
Import Retry Scenarios RetryFacts.

(** The loop from any frame whose delay can be slept: [n] failed
    attempts, each followed by its sleep, then either a successful attempt
    or the end of the budget. *)
Lemma attempts_shape {A} (f : api_func A) (max_retries timeout : Z) todo :
  ∀ a fr, 0 <= delay fr -> ∃ n,
    let '(r, fr') := attempts f max_retries timeout todo a fr in
    sleeps (trace fr') = sleeps (trace fr) ++ backoff n (delay fr)
    ∧ (∀ k, (calls fr <= k < calls fr + n)%nat ->
            is_ok (invoke f k (kw f timeout)) = false)
    ∧ match r with
      | Ok (Some v) =>
          invocations (trace fr') = (invocations (trace fr) + S n)%nat
          ∧ (n < todo)%nat
          ∧ invoke f (calls fr + n) (kw f timeout) = Ok v
      | Ok None =>
          invocations (trace fr') = (invocations (trace fr) + n)%nat
          ∧ n = todo
      | Raise _ => False
      end.
Proof.
  induction todo as [|todo IH]; intros a fr Hpos.
  - exists 0%nat. simpl. rewrite app_nil_r, Nat.add_0_r.
    split_and!; [done | lia | done | done].
  - rewrite attempts_S. cbn zeta.
    destruct (invoke f (calls fr) (kw f timeout)) as [v|e] eqn:Hinv.
    + exists 0%nat. cbn [trace]. rewrite sleeps_app, invocations_app.
      simpl. rewrite !app_nil_r, Nat.add_0_r.
      split_and!; [done | lia | done | lia | done].
    + rewrite time_sleep_nonneg by done.
      match goal with |- context [attempts _ _ _ todo ?a' ?fr2] =>
        destruct (IH a' fr2 ltac:(simpl; lia)) as [n Hn];
        destruct (attempts f max_retries timeout todo a' fr2) as [r fr'] end.
      exists (S n). cbn [trace delay calls] in Hn.
      destruct Hn as (Hs & Hfail & Hr). rewrite Hs, !sleeps_app. simpl.
      rewrite !app_nil_r, <- app_assoc. split; [done|].
      split.
      { intros k Hk. destruct (decide (k = calls fr)) as [->|];
          [by rewrite Hinv | apply Hfail; lia]. }
      rewrite !invocations_app in Hr.
      change (invocations [Called _]) with 1%nat in Hr.
      change (invocations [LogWarning _ _ _ _ _; Slept _]) with 0%nat in Hr.
      destruct r as [[v|]|]; [| |done].
      * destruct Hr as (Hi & Hlt & Hv). split_and!; [lia | lia |].
        rewrite <- Hv. f_equal. lia.
      * destruct Hr as [Hi ->]. split; [lia | done].
Qed.

(** X1.  With an initial delay [d >= 0], whatever the operation does,
    [call_with_retries] invokes it until its first success and no
    further: the value returned is the one of the first successful
    invocation, every invocation before it failed and was followed by its
    backoff sleep, and an exception reaches the caller only after
    [max_retries] failed invocations.  With [d < 0] (and
    [max_retries >= 1]) the operation is invoked once: its value is
    returned if it succeeds, and if it fails the [ValueError] of
    [time.sleep] reaches the caller, nothing having been slept. *)
Theorem retry_stops_at_first_success {A} (f : api_func A)
    (max_retries d timeout : Z) :
  let r := call_with_retries f max_retries d timeout in
  (0 <= d ->
   ∃ n, sleeps r.2 = backoff n d
      ∧ (∀ k, (k < n)%nat -> is_ok (invoke f k (kw f timeout)) = false)
      ∧ match r.1 with
        | Ok v => invocations r.2 = S n ∧ (n < Z.to_nat max_retries)%nat
                  ∧ invoke f n (kw f timeout) = Ok v
        | Raise _ => invocations r.2 = n ∧ n = Z.to_nat max_retries
        end)
  ∧ (d < 0 -> 1 <= max_retries ->
     sleeps r.2 = [] ∧ invocations r.2 = 1%nat
     ∧ r.1 = match invoke f 0%nat (kw f timeout) with
             | Ok v => Ok v
             | Raise _ =>
                 Raise (Exn ValueError "sleep length must be non-negative")
             end).
Proof.
  intros r. subst r. unfold call_with_retries, run_attempts. split.
  - intros Hd.
    destruct (attempts_shape f max_retries timeout (Z.to_nat max_retries) 1
                (Frame d None 0 []) Hd) as [n Hn].
    destruct (attempts _ _ _ _ _ _) as [[[v|]|] fr']; exists n;
      cbn [trace delay calls] in Hn; simpl in Hn;
      destruct Hn as (Hs & Hfail & Hr); [| |done].
    + cbn [fst snd].
      split_and!; [done | intros k Hk; apply Hfail; lia | apply Hr..].
    + cbn [fst snd].
      rewrite sleeps_app, invocations_app, Hs. simpl. rewrite app_nil_r.
      split; [done|]. split; [intros k Hk; apply Hfail; lia|].
      change (invocations [LogError _ _]) with 0%nat.
      destruct Hr as [Hi Hn]. unfold py_raise.
      destruct (last_exc fr'); split; lia.
  - intros Hd Hpos.
    destruct (Z.to_nat max_retries) as [|todo] eqn:Htodo; [lia|].
    rewrite attempts_S. cbn zeta. cbn [calls delay trace].
    destruct (invoke f 0%nat (kw f timeout)) as [v|e]; [done|].
    by rewrite time_sleep_neg.
Qed.

Lemma retry_stops_at_first_success_witness :
  (let r := call_with_retries (fail_then_succeed 2) 5 2 60 in
   ∃ n, sleeps r.2 = backoff n 2
      ∧ (∀ k, (k < n)%nat ->
              is_ok (invoke (fail_then_succeed 2) k
                            (kw (fail_then_succeed 2) 60)) = false)
      ∧ match r.1 with
        | Ok v => invocations r.2 = S n ∧ (n < 5)%nat
                  ∧ invoke (fail_then_succeed 2) n
                           (kw (fail_then_succeed 2) 60) = Ok v
        | Raise _ => invocations r.2 = n ∧ n = 5%nat
        end)
  ∧ (let r := call_with_retries (fail_then_succeed 2) 5 (-1) 60 in
     sleeps r.2 = [] ∧ invocations r.2 = 1%nat
     ∧ r.1 = Raise (Exn ValueError "sleep length must be non-negative")).
Proof.
  split.
  - apply (proj1 (retry_stops_at_first_success (fail_then_succeed 2) 5 2 60)).
    lia.
  - apply (proj2 (retry_stops_at_first_success (fail_then_succeed 2) 5 (-1)
                    60)); lia.
Defined.

Lemma attempts_kw {A} (f : api_func A) (max_retries t1 t2 : Z) todo :
  kw f t1 = kw f t2 ->
  ∀ a fr, attempts f max_retries t1 todo a fr
          = attempts f max_retries t2 todo a fr.
Proof.
  intros Hkw. induction todo as [|todo IH]; intros a fr; [done|].
  rewrite !attempts_S. cbn zeta. rewrite Hkw.
  destruct (invoke f (calls fr) (kw f t2)); [done|].
  destruct (time_sleep (delay fr)); [apply IH | done].
Qed.

Lemma attempts_called {A} (f : api_func A) (max_retries timeout : Z) todo :
  ∀ a fr ev,
    ev ∈ trace (attempts f max_retries timeout todo a fr).2 ->
    ev ∈ trace fr ∨ ev = Called (kw f timeout)
    ∨ ∀ t, ev ≠ Called t.
Proof.
  induction todo as [|todo IH]; intros a fr ev; [by left|].
  rewrite attempts_S. cbn zeta.
  destruct (invoke f (calls fr) (kw f timeout)) as [v|e].
  - simpl. intros [?| ->%list_elem_of_singleton]%elem_of_app; auto.
  - destruct (time_sleep (delay fr)).
    + intros [Hev|Hev]%IH; [|by auto]. cbn [trace] in Hev.
      rewrite !elem_of_app, !elem_of_cons, elem_of_nil in Hev.
      destruct Hev as [[?| [->|[]]] | [->|[->|[]]]]; auto.
    + cbn [trace snd]. intros Hev.
      rewrite !elem_of_app, !elem_of_cons, elem_of_nil in Hev.
      destruct Hev as [[?| [->|[]]] | [->|[]]]; auto.
Qed.

(** X2.  The [timeout] argument reaches the operation only when the
    operation has a variable of that name: then every invocation receives
    it; otherwise no invocation does, and the value of [timeout] has no
    effect at all on the call. *)
Theorem retry_timeout_forwarding {A} (f : api_func A)
    (max_retries d timeout : Z) :
  (∀ t, Called t ∈ (call_with_retries f max_retries d timeout).2 ->
        t = if accepts_timeout f then Some timeout else None)
  ∧ (accepts_timeout f = false ->
     ∀ timeout', call_with_retries f max_retries d timeout'
                 = call_with_retries f max_retries d timeout).
Proof.
  split.
  - intros t. unfold call_with_retries, run_attempts.
    pose proof (attempts_called f max_retries timeout (Z.to_nat max_retries) 1
                  (Frame d None 0 []) (Called t)) as H.
    destruct (attempts _ _ _ _ _ _) as [[[v|]|e] fr']; simpl in *.
    + intros [[]%elem_of_nil | [[= ->] | Hne]]%H; [done|]. by destruct (Hne t).
    + intros [Hin | [=]%list_elem_of_singleton]%elem_of_app.
      apply H in Hin as [[]%elem_of_nil | [[= ->] | Hne]]; [done|].
      by destruct (Hne t).
    + intros [[]%elem_of_nil | [[= ->] | Hne]]%H; [done|]. by destruct (Hne t).
  - intros Hno timeout'. unfold call_with_retries, run_attempts.
    rewrite (attempts_kw f max_retries timeout' timeout); [done|].
    unfold kw. by rewrite Hno.
Qed.

Lemma retry_timeout_forwarding_witness :
  (∀ t, Called t ∈ (call_with_retries (fail_then_succeed 2) 5 2 60).2 ->
        t = None)
  ∧ call_with_retries (fail_then_succeed 2) 5 2 1
    = call_with_retries (fail_then_succeed 2) 5 2 60.
Proof.
  destruct (retry_timeout_forwarding (fail_then_succeed 2) 5 2 60) as [H1 H2].
  split; [exact H1 | apply H2; reflexivity].
Defined.

End RetryMore.

Module CacheFacts.
Import PyStr PyM Collector CollectorInv PyStrFacts Scenarios.

Section preserves.
Context {X : Type} (proj : shared -> X).

Lemma preserves_ret {A} (a : A) : preserves proj (ret a).
Proof. by intros sh. Qed.

Lemma preserves_call {A} (o : outcome A) : preserves proj (call o).
Proof. by intros sh. Qed.

Lemma preserves_gets {A} (f : shared -> A) : preserves proj (gets f).
Proof. by intros sh. Qed.

Lemma preserves_modify (f : shared -> shared) :
  (∀ sh, proj (f sh) = proj sh) -> preserves proj (modify f).
Proof. intros Hf sh. apply Hf. Qed.

Lemma preserves_bind {A B} (m : M shared A) (k : A -> M shared B) :
  preserves proj m -> (∀ a, preserves proj (k a)) -> preserves proj (bind m k).
Proof.
  intros Hm Hk sh. unfold bind. specialize (Hm sh).
  destruct (m sh) as [[a|e] sh']; simpl in *; [|done].
  by rewrite Hk.
Qed.

Lemma preserves_try_except {A} (body : M shared A) (handler : exn -> M shared A) :
  preserves proj body -> (∀ e, preserves proj (handler e)) ->
  preserves proj (try_except body handler).
Proof.
  intros Hm Hk sh. unfold try_except. specialize (Hm sh).
  destruct (body sh) as [[a|e] sh']; simpl in *; [done|].
  by rewrite Hk.
Qed.

Lemma preserves_for_each {A B} (l : list A) (body : B -> A -> M shared B) :
  (∀ acc x, preserves proj (body acc x)) ->
  ∀ acc, preserves proj (for_each l acc body).
Proof.
  intros Hbody. induction l as [|x l IH]; intros acc; simpl.
  - apply preserves_ret.
  - apply preserves_bind; [apply Hbody | intros acc'; apply IH].
Qed.

End preserves.

Lemma preserves_fetch_cached svc key : preserves cached (fetch svc key).
Proof.
  unfold fetch. apply preserves_bind; [by apply preserves_modify|]. intros _.
  apply preserves_bind; [apply preserves_call | intros r; apply preserves_call].
Qed.

Lemma preserves_fetch_files svc key : preserves entity_files (fetch svc key).
Proof.
  unfold fetch. apply preserves_bind; [by apply preserves_modify|]. intros _.
  apply preserves_bind; [apply preserves_call | intros r; apply preserves_call].
Qed.

Lemma preserves_get_with_cache_files key fetch_func :
  preserves entity_files fetch_func ->
  preserves entity_files (_get_with_cache key fetch_func).
Proof.
  intros Hf. unfold _get_with_cache.
  apply preserves_bind; [apply preserves_gets|]. intros c.
  destruct (c !! key); [apply preserves_ret|].
  apply preserves_try_except; [|intros e; apply preserves_call].
  apply preserves_bind; [done|]. intros data.
  apply preserves_bind; [by apply preserves_modify | intros _; apply preserves_ret].
Qed.

(** X3.  A value obtained through [_get_with_cache] is in the cache under
    its key from then on: asking for the key again gives the same value and
    changes nothing, whatever fetch function is passed, which is not
    called. *)
Theorem cache_round_trip (cache_key : string)
    (fetch_func other : M shared string) (sh sh' : shared) (data : string) :
  _get_with_cache cache_key fetch_func sh = (Ok data, sh') ->
  cached sh' !! cache_key = Some data
  ∧ _get_with_cache cache_key other sh' = (Ok data, sh').
Proof.
  unfold _get_with_cache, bind at 1, gets at 1.
  destruct (cached sh !! cache_key) as [d|] eqn:Hc.
  - intros [= <- <-]. split; [done|].
    unfold bind, gets. by rewrite Hc.
  - unfold try_except, bind, modify, ret.
    destruct (fetch_func sh) as [[d|e] sh1]; [|done].
    intros [= <- <-]. unfold gets, set_cached. cbn [cached].
    by rewrite lookup_insert_eq.
Qed.

Lemma cache_round_trip_witness :
  let sh' := (collect_player_info (failing_for []) 2544
                (Shared ∅ 0 [] [])).2 in
  cached sh' !! "player_info_2544" = Some "{}"
  ∧ _get_with_cache "player_info_2544" (call (Raise raise_None)) sh'
    = (Ok "{}", sh').
Proof.
  apply (cache_round_trip "player_info_2544"
           (fetch (failing_for []) "player_info_2544")
           (call (Raise raise_None)) (Shared ∅ 0 [] [])).
  reflexivity.
Defined.

(** X4.  A fetch that fails is not cached: the exception that leaves
    [_get_with_cache] is the one of the fetch function, the key was not in
    the cache, and the state is the one the fetch function left.  For the
    fetches of the collector the cache is then as it was, so the next
    request for the key calls the remote API again. *)
Theorem failed_fetch_is_not_cached (cache_key : string)
    (fetch_func : M shared string) (svc : services) (sh sh' : shared)
    (e : exn) :
  (_get_with_cache cache_key fetch_func sh = (Raise e, sh') ->
   cached sh !! cache_key = None ∧ fetch_func sh = (Raise e, sh'))
  ∧ (_get_with_cache cache_key (fetch svc cache_key) sh = (Raise e, sh') ->
     cached sh' = cached sh ∧ cached sh' !! cache_key = None
     ∧ fetched sh' = fetched sh ++ [cache_key]).
Proof.
  assert (∀ f, _get_with_cache cache_key f sh = (Raise e, sh') ->
               cached sh !! cache_key = None ∧ f sh = (Raise e, sh')) as H.
  { intros f. unfold _get_with_cache, bind at 1, gets at 1.
    destruct (cached sh !! cache_key) as [d|] eqn:Hc; [done|].
    unfold try_except, bind, modify, ret, call.
    destruct (f sh) as [[d|e'] sh1]; [done|]. by intros [= <- <-]. }
  split; [apply H|].
  intros [Hmiss Hrun]%H.
  pose proof (preserves_fetch_cached svc cache_key sh) as Hc.
  rewrite Hrun in Hc. simpl in Hc. rewrite Hc. split_and!; [done..|].
  revert Hrun. unfold fetch, bind, modify, call. simpl.
  destruct (Retry.call_with_retries _ _ _ _).1 as [r|e']; simpl.
  - destruct (get_normalized_dict svc r); [done|]. by intros [= _ <-].
  - by intros [= _ <-].
Qed.

Lemma failed_fetch_is_not_cached_witness :
  let r := collect_team_details (failing_for [7]) 7 (Shared ∅ 0 [] []) in
  r.1 = Raise (Exn ReqTimeout "read timed out")
  ∧ cached r.2 = ∅ ∧ fetched r.2 = ["team_details_7"].
Proof.
  intros r.
  destruct (proj2 (failed_fetch_is_not_cached "team_details_7"
              (ret "") (failing_for [7]) (Shared ∅ 0 [] []) r.2
              (Exn ReqTimeout "read timed out")))
    as (Hc & _ & Hf); [reflexivity|].
  split; [reflexivity|]. split; [exact Hc | exact Hf].
Defined.

End CacheFacts.

Module PoolFacts.
Import PyStr PyM Collector CollectorSpec CollectorInv PyStrFacts Scenarios
  MoreScenarios CacheFacts.

(** [with open(path, "w") as f: json.dump(obj, f)]: the file is there as
    soon as it is opened; the statement returns when both steps go
    through. *)
Lemma write_json_run svc path sh :
  write_json svc path sh
  = match open_file svc path with
    | Raise e => (Raise e, sh)
    | Ok _ => (json_dump svc path, add_file path sh)
    end.
Proof.
  unfold write_json, bind, call, modify.
  by destruct (open_file svc path) as [[]|?].
Qed.

(** The [try] of [process_player] and [process_team] makes no file but
    the one of the entity, and this as its last step. *)
Lemma collect_entity_files svc first second prefix e sh :
  (∀ n, preserves entity_files (first svc n)) ->
  (∀ n, preserves entity_files (second svc n)) ->
  let r := collect_entity svc first second prefix e sh in
  let file := entity_file prefix (id e) in
  (is_ok r.1 = true ->
   entity_files r.2 = entity_files sh ++ [file]
   ∧ is_ok (json_dump svc file) = true)
  ∧ (is_ok r.1 = false ->
     entity_files r.2 = entity_files sh
     ∨ (entity_files r.2 = entity_files sh ++ [file]
        ∧ is_ok (open_file svc file) = true
        ∧ is_ok (json_dump svc file) = false)).
Proof.
  intros H1 H2. unfold collect_entity, bind.
  specialize (H1 (id e) sh).
  destruct (first svc (id e) sh) as [[d1|e1] sh1]; simpl in *;
    [|split; [done | by left]].
  specialize (H2 (id e) sh1).
  destruct (second svc (id e) sh1) as [[d2|e2] sh2]; simpl in *;
    [|split; [done | left; congruence]].
  rewrite write_json_run.
  destruct (open_file svc _) as [[]|?]; simpl;
    [|split; [done | left; congruence]].
  destruct (json_dump svc _) as [[]|?]; simpl.
  - split; [intros _; split; [congruence | done] | done].
  - split; [done | intros _; right; split_and!; [congruence | done | done]].
Qed.

Lemma process_entity_files svc first second prefix e sh :
  (∀ n, preserves entity_files (first svc n)) ->
  (∀ n, preserves entity_files (second svc n)) ->
  let r := process_entity (collect_entity svc first second prefix e) sh in
  let file := entity_file prefix (id e) in
  (r.1 = false ->
   entity_files r.2 = entity_files sh ++ [file]
   ∧ is_ok (json_dump svc file) = true)
  ∧ (r.1 = true ->
     entity_files r.2 = entity_files sh
     ∨ (entity_files r.2 = entity_files sh ++ [file]
        ∧ is_ok (open_file svc file) = true
        ∧ is_ok (json_dump svc file) = false)).
Proof.
  intros H1 H2.
  pose proof (collect_entity_files svc first second prefix e sh H1 H2) as H.
  unfold process_entity. cbn zeta in *.
  destruct (collect_entity _ _ _ _ _ _) as [[[]|?] sh']; simpl in *.
  - split; [intros _; by apply H | done].
  - split; [done | intros _; by apply H].
Qed.

Lemma process_team_files svc team sh :
  let r := process_team svc team sh in
  let file := entity_file "team_" (id team) in
  (r.1 = false ->
   entity_files r.2 = entity_files sh ++ [file]
   ∧ is_ok (json_dump svc file) = true)
  ∧ (r.1 = true ->
     entity_files r.2 = entity_files sh
     ∨ (entity_files r.2 = entity_files sh ++ [file]
        ∧ is_ok (open_file svc file) = true
        ∧ is_ok (json_dump svc file) = false)).
Proof.
  apply process_entity_files; intros n;
    apply preserves_get_with_cache_files, preserves_fetch_files.
Qed.

Lemma process_player_files svc player sh :
  let r := process_player svc player sh in
  let file := entity_file "player_" (id player) in
  (r.1 = false ->
   entity_files r.2 = entity_files sh ++ [file]
   ∧ is_ok (json_dump svc file) = true)
  ∧ (r.1 = true ->
     entity_files r.2 = entity_files sh
     ∨ (entity_files r.2 = entity_files sh ++ [file]
        ∧ is_ok (open_file svc file) = true
        ∧ is_ok (json_dump svc file) = false)).
Proof.
  apply process_entity_files; intros n;
    apply preserves_get_with_cache_files, preserves_fetch_files.
Qed.

(** X5.  [process_player] and [process_team] add one to the shared
    failure counter exactly when they fail, and make no file but the one
    of their entity.  When they do not fail, the file is there and the dump
    into it went through.  When they fail, either no file was made, or the
    file was made and the dump into it broke off: the file is then left in
    the directory, cut short. *)
Theorem process_writes_file_or_counts (svc : services) (e : entity)
    (sh : shared) :
  (let r := process_player svc e sh in
   let file := entity_file "player_" (id e) in
   tracker_count r.2 = (tracker_count sh + if r.1 then 1 else 0)%nat
   ∧ (r.1 = false ->
      entity_files r.2 = entity_files sh ++ [file]
      ∧ is_ok (json_dump svc file) = true)
   ∧ (r.1 = true ->
      entity_files r.2 = entity_files sh
      ∨ (entity_files r.2 = entity_files sh ++ [file]
         ∧ is_ok (open_file svc file) = true
         ∧ is_ok (json_dump svc file) = false)))
  ∧ (let r := process_team svc e sh in
     let file := entity_file "team_" (id e) in
     tracker_count r.2 = (tracker_count sh + if r.1 then 1 else 0)%nat
     ∧ (r.1 = false ->
        entity_files r.2 = entity_files sh ++ [file]
        ∧ is_ok (json_dump svc file) = true)
     ∧ (r.1 = true ->
        entity_files r.2 = entity_files sh
        ∨ (entity_files r.2 = entity_files sh ++ [file]
           ∧ is_ok (open_file svc file) = true
           ∧ is_ok (json_dump svc file) = false))).
Proof.
  split; cbn zeta.
  - split; [|apply process_player_files].
    rewrite CollectorFacts.process_player_counts.
    destruct (process_player svc e sh).1; lia.
  - split; [|apply process_team_files].
    rewrite CollectorFacts.process_team_counts.
    destruct (process_team svc e sh).1; lia.
Qed.

Lemma process_writes_file_or_counts_witness :
  let r := process_team (disk_full_for 2) (Entity 2 "team")
                        (Shared ∅ 0 [] []) in
  r.1 = true
  ∧ tracker_count r.2 = 1%nat
  ∧ (entity_files r.2 = []
     ∨ (entity_files r.2 = [] ++ [entity_file "team_" 2]
        ∧ is_ok (open_file (disk_full_for 2) (entity_file "team_" 2)) = true
        ∧ is_ok (json_dump (disk_full_for 2) (entity_file "team_" 2)) = false)).
Proof.
  intros r.
  destruct (proj2 (process_writes_file_or_counts (disk_full_for 2)
                     (Entity 2 "team") (Shared ∅ 0 [] [])))
    as (Hcount & _ & Hfail).
  assert (r.1 = true) as Hr by (vm_compute; reflexivity).
  split; [exact Hr|]. split.
  - fold r in Hcount. rewrite Hcount, Hr. reflexivity.
  - apply Hfail. exact Hr.
Defined.

Section files.
Context (max_timeouts timeout_window : nat).
Context (svc : services).
Context (process : entity -> shared -> bool * shared).
Context (to_process : list entity) (prefix : string).
Hypothesis process_files : ∀ e sh,
  let r := process e sh in
  let file := entity_file prefix (id e) in
  (r.1 = false ->
   entity_files r.2 = entity_files sh ++ [file]
   ∧ is_ok (json_dump svc file) = true)
  ∧ (r.1 = true ->
     entity_files r.2 = entity_files sh
     ∨ (entity_files r.2 = entity_files sh ++ [file]
        ∧ is_ok (open_file svc file) = true
        ∧ is_ok (json_dump svc file) = false)).
Local Abbreviation step :=
  (Collector.step max_timeouts timeout_window process to_process).
Local Abbreviation files_match :=
  (CollectorInv.files_match svc prefix to_process).

Lemma files_step st ev : files_match st -> files_match (step st ev).
Proof.
  intros Hst. pose proof Hst as [Hok Hin]. destruct ev as [k|k|]; simpl.
  - destruct (stopped st); [done|]. by destruct (_ && _).
  - destruct (to_process !! k) as [e|] eqn:Hk; [|done].
    destruct (_ && _); [|done].
    pose proof (process_files e (workers st)) as [Hp1 Hp2]. cbn zeta in *.
    destruct (process e (workers st)) as [failed sh]. simpl in *.
    split; simpl.
    + intros k' e' [[= -> <-]|Hfin]%elem_of_cons Hk'.
      * destruct (Hp1 eq_refl) as [-> _].
        rewrite Hk in Hk'. injection Hk' as <-.
        apply elem_of_app. right. by left.
      * assert (entity_files (workers st) `prefix_of` entity_files sh)
          as [more ->].
        { destruct failed.
          - destruct (Hp2 eq_refl) as [-> | (-> & _)];
              [done | by apply prefix_app_r].
          - destruct (Hp1 eq_refl) as [-> _]. by apply prefix_app_r. }
        apply elem_of_app. left. by apply (Hok k' e').
    + intros fname Hf.
      assert (fname ∈ entity_files (workers st)
              ∨ (fname = entity_file prefix (id e)
                 ∧ (failed = true ->
                    is_ok (open_file svc fname) = true
                    ∧ is_ok (json_dump svc fname) = false)))
        as [Hold | [-> Hnew]].
      { destruct failed.
        - destruct (Hp2 eq_refl) as [Heq | (Heq & Ho & Hd)];
            rewrite Heq in Hf; [by left|].
          apply elem_of_app in Hf as [?| ->%list_elem_of_singleton];
            [by left | by right].
        - destruct (Hp1 eq_refl) as [Heq _]. rewrite Heq in Hf.
          apply elem_of_app in Hf as [?| ->%list_elem_of_singleton];
            [by left | by right]. }
      * destruct (Hin fname Hold) as (k' & e' & b & Hfin & Hk' & -> & Hb).
        exists k', e', b. split_and!; [by right | done | done | done].
      * exists k, e, failed. split_and!; [by left | done | done | done].
  - destruct (stopped st); [done|].
    destruct (_ && _); [|done]. unfold check_window.
    repeat case_decide; done.
Qed.

Lemma files_run sched : ∀ st,
  files_match st -> files_match (foldl step st sched).
Proof.
  induction sched as [|ev sched IH]; intros st Hst; simpl; [done|].
  by apply IH, files_step.
Qed.

Lemma files_checkpoint st :
  files_match st -> checkpoint_after svc prefix to_process st.
Proof.
  intros [Hok Hin] fnames0 w cache' self'.
  exists (scan (fnames0 ++ entity_files (workers st)) prefix ∅).
  assert (∀ n, n ∈ scan (fnames0 ++ entity_files (workers st)) prefix ∅ ->
    n ∈ scan fnames0 prefix ∅
    ∨ ∃ k e b,
        (k, b) ∈ finished st ∧ to_process !! k = Some e ∧ id e = n
        ∧ (b = true ->
           is_ok (open_file svc (entity_file prefix n)) = true
           ∧ is_ok (json_dump svc (entity_file prefix n)) = false)) as Hfound.
  { intros n [[]%elem_of_empty | (fname & Hf & Hs & He & Hint)]
      %CollectorFacts.elem_of_scan.
    apply elem_of_app in Hf as [Hf|Hf].
    - left. apply CollectorFacts.elem_of_scan. right. by exists fname.
    - right. destruct (Hin fname Hf) as (k & e & b & Hfin & Hk & -> & Hb).
      rewrite CollectorFacts.entity_file_id in Hint. injection Hint as <-.
      by exists k, e, b. }
  assert (∀ k e, (k, false) ∈ finished st -> to_process !! k = Some e ->
    id e ∈ scan (fnames0 ++ entity_files (workers st)) prefix ∅) as Hkept.
  { intros k e Hfin Hk. apply CollectorFacts.scan_entity_file.
    apply elem_of_app. right. by apply (Hok k e). }
  split_and!; [done | done | done |].
  intros Hdump n. split.
  - intros [?|(k & e & b & Hfin & Hk & <- & Hb)]%Hfound; [by left|].
    right. destruct b; [|by exists k, e].
    destruct (Hb eq_refl) as [Ho Hd]. apply Hdump in Ho. congruence.
  - intros [Hold|(k & e & Hfin & Hk & <-)]; [|by apply (Hkept k e)].
    apply CollectorFacts.elem_of_scan in Hold
      as [[]%elem_of_empty | (fname & Hf & Hrest)].
    apply CollectorFacts.elem_of_scan. right. exists fname.
    split; [|done]. apply elem_of_app. by left.
Qed.

End files.

(** X6.  Whatever the schedule of the pool, and whether or not the loop
    has left by [break], a checkpoint scan of the output directory after a
    bulk collection finds every entity the run handled without failure, the
    ones a later run leaves out.  Any other entity it finds was in the
    directory before, or failed because the dump into its file broke off,
    which leaves the file, cut short, in the directory; where no dump
    breaks off, the run adds to the checkpoint exactly the entities handled
    without failure. *)
Theorem run_files_are_the_checkpoint (svc : services)
    (cache0 : gmap string string) (to_process : list entity)
    (sched : list event) :
  checkpoint_after svc "player_" to_process
    (run_pool 10 30 (process_player svc) to_process cache0 sched)
  ∧ checkpoint_after svc "team_" to_process
      (run_pool 5 10 (process_team svc) to_process cache0 sched).
Proof.
  split; apply files_checkpoint; unfold run_pool; apply files_run.
  - apply process_player_files.
  - split; simpl; [by intros ?? ?%elem_of_nil | by intros ? ?%elem_of_nil].
  - apply process_team_files.
  - split; simpl; [by intros ?? ?%elem_of_nil | by intros ? ?%elem_of_nil].
Qed.

(** Three teams, the disk filling up during the dump of the second: the
    scan finds the first and the third. *)
Lemma run_files_are_the_checkpoint_witness :
  let st := run_pool 5 10 (process_team (disk_full_for 2)) three_teams ∅
                     (lockstep 0 3) in
  ∃ ids,
    _already_collected_ids
      (CollectorObj
         (Directory true (Ok ([] ++ entity_files (workers st))) (Ok ()))
         ∅) "team_"
    = Ok ids
    ∧ 1 ∈ ids ∧ 3 ∈ ids.
Proof.
  intros st.
  destruct (proj2 (run_files_are_the_checkpoint (disk_full_for 2) ∅
                     three_teams (lockstep 0 3)) [] (Ok ()) ∅)
    as (ids & Hscan & Hkept & _ & _).
  exists ids. split; [exact Hscan|]. split.
  - apply (Hkept 0%nat (Entity 1 "team"));
      [apply list_elem_of_In; vm_compute; tauto | reflexivity].
  - apply (Hkept 2%nat (Entity 3 "team"));
      [apply list_elem_of_In; vm_compute; tauto | reflexivity].
Defined.

End PoolFacts.

Module BreakerFacts.
Import PyStr PyM Collector CollectorSpec CollectorInv PyStrFacts Scenarios
  MoreScenarios CollectorFacts.

(** X7.  Player collection, window 30 and threshold 10, along a schedule
    in which every failure is recorded during the window of its entity.
    When the loop is about to take the last result of window [j], the
    counter is the number of failed players of that window; with 10 or
    more the loop stops for good, with fewer it goes on with the counter
    reset to zero. *)
Theorem player_breaker_window (svc : services) (cache0 : gmap string string)
    (to_process : list entity) (sched : list event) (j : nat) :
  in_window 10 30 (process_player svc) to_process
            (Pool (Shared cache0 0 [] []) 0 false [] []) sched = true ->
  let st := run_pool 10 30 (process_player svc) to_process cache0 sched in
  stopped st = false ->
  consumed st = (30 * j + 29)%nat ->
  is_finished (30 * j + 29) st = true ->
  (30 * j + 29 < length to_process)%nat ->
  let st' := Collector.step 10 30 (process_player svc) to_process st Next in
  count st = window_failures 30 j (finished st)
  ∧ ((10 <= window_failures 30 j (finished st))%nat ->
     stopped st' = true
     ∧ ∀ more,
         consumed (foldl (Collector.step 10 30 (process_player svc) to_process)
                         st' more)
         = (30 * (j + 1))%nat)
  ∧ ((window_failures 30 j (finished st) < 10)%nat ->
     stopped st' = false ∧ count st' = 0%nat
     ∧ consumed st' = (30 * (j + 1))%nat).
Proof.
  intros Hwin st Hrun Hcons Hfin Hn st'.
  destruct (sound_run 10 30 (process_player svc) to_process ltac:(lia)
              (process_player_counts svc) sched _
              (sound_init 30 ltac:(lia) cache0) Hwin)
    as [_ Hreach Hcount].
  fold (run_pool 10 30 (process_player svc) to_process cache0 sched)
    in Hreach, Hcount.
  fold st in Hreach, Hcount.
  assert ((30 * j + 29) `div` 30 = j)%nat as Hj.
  { symmetry. apply (Nat.div_unique _ _ _ 29); lia. }
  rewrite Hcons, Hj in Hreach, Hcount.
  assert (count st = window_failures 30 j (finished st)) as Hcnt.
  { rewrite (Hcount Hrun). apply failures_from_window; [lia|done]. }
  assert (st' = check_window 10 30 (30 * j + 29) st) as ->.
  { subst st'. simpl. rewrite Hrun, Hcons, Hfin.
    by rewrite bool_decide_eq_true_2. }
  unfold check_window.
  rewrite decide_True
    by (replace (30 * j + 29 + 1)%nat with ((j + 1) * 30)%nat by lia;
        apply Nat.Div0.mod_mul).
  split; [done|]. rewrite <- Hcnt. split; intros Hc.
  - rewrite decide_True by done. split; [done|]. intros more.
    match goal with |- context [foldl _ ?s more] =>
      destruct (stopped_run 10 30 (process_player svc) to_process more s eq_refl)
        as (_ & -> & _) end.
    simpl. lia.
  - rewrite decide_False by lia. simpl. split_and!; [done | done | lia].
Qed.

Lemma player_breaker_window_witness :
  (let st := run_pool 10 30 (process_player (failing_players ten_of_thirty))
                      forty_players ∅ (lockstep 0 30) in
   let st' := Collector.step 10 30
                (process_player (failing_players ten_of_thirty))
                forty_players st Next in
   count st = 10%nat ∧ stopped st' = true)
  ∧ (let st := run_pool 10 30 (process_player (failing_players nine_of_thirty))
                        forty_players ∅ (lockstep 0 30) in
     let st' := Collector.step 10 30
                  (process_player (failing_players nine_of_thirty))
                  forty_players st Next in
     count st = 9%nat
     ∧ stopped st' = false ∧ count st' = 0%nat ∧ consumed st' = 30%nat).
Proof.
  split.
  - destruct (player_breaker_window (failing_players ten_of_thirty) ∅
                forty_players (lockstep 0 30) 0)
      as (Hcount & Hstop & _);
      [by vm_compute | by vm_compute | by vm_compute | by vm_compute
      | vm_compute; lia |].
    split; [exact Hcount|]. apply Hstop. vm_compute. lia.
  - destruct (player_breaker_window (failing_players nine_of_thirty) ∅
                forty_players (lockstep 0 30) 0)
      as (Hcount & _ & Hgo);
      [by vm_compute | by vm_compute | by vm_compute | by vm_compute
      | vm_compute; lia |].
    split; [exact Hcount|]. apply Hgo. vm_compute. lia.
Defined.

Section safety.
Context (max_timeouts timeout_window : nat).
Context (process : entity -> shared -> bool * shared).
Context (to_process : list entity).
Hypothesis process_counts : ∀ e sh,
  tracker_count (process e sh).2
  = if (process e sh).1 then (tracker_count sh + 1)%nat else tracker_count sh.
Local Abbreviation step :=
  (Collector.step max_timeouts timeout_window process to_process).

(** What holds of the pool along any schedule. *)
Lemma tripped_step st ev :
  ((count st <= failures_from 0 (finished st))%nat
   ∧ (consumed st <= length to_process)%nat
   ∧ (stopped st = true ->
      (max_timeouts <= count st)%nat
      ∧ (consumed st `mod` timeout_window = 0)%nat
      ∧ (0 < consumed st)%nat)) ->
  (count (step st ev) <= failures_from 0 (finished (step st ev)))%nat
  ∧ (consumed (step st ev) <= length to_process)%nat
  ∧ (stopped (step st ev) = true ->
     (max_timeouts <= count (step st ev))%nat
     ∧ (consumed (step st ev) `mod` timeout_window = 0)%nat
     ∧ (0 < consumed (step st ev))%nat).
Proof.
  intros Hinv. pose proof Hinv as (Hcount & Hlen & Hstop).
  destruct ev as [k|k|]; simpl.
  - destruct (stopped st) eqn:Hs.
    { split_and!; [done | done | intros _; by apply Hstop]. }
    destruct (_ && _); simpl; rewrite ?Hs; done.
  - destruct (to_process !! k) as [e|]; [|done].
    destruct (is_started k st && negb (is_finished k st)); [|done].
    pose proof (process_counts e (workers st)) as Hp.
    destruct (process e (workers st)) as [failed sh]. simpl in *.
    unfold count in *. simpl.
    rewrite failures_from_cons, Hp.
    destruct failed; simpl.
    + split_and!; [lia | done |].
      intros [? ?]%Hstop. split; [lia | done].
    + done.
  - destruct (stopped st) eqn:Hs.
    { rewrite Hs. split_and!; [done | done | intros _; by apply Hstop]. }
    destruct (bool_decide _ && _) eqn:Hok;
      [|rewrite Hs; split_and!; [done | done | done]].
    apply andb_true_iff in Hok as [Hi%bool_decide_eq_true _].
    unfold check_window.
    replace (consumed st + 1)%nat with (S (consumed st)) by lia.
    case_decide as Hend; [case_decide as Hmax|]; simpl;
      unfold count in *; simpl; split_and!; try done; try lia.
Qed.

Lemma tripped_run sched : ∀ st,
  ((count st <= failures_from 0 (finished st))%nat
   ∧ (consumed st <= length to_process)%nat
   ∧ (stopped st = true ->
      (max_timeouts <= count st)%nat
      ∧ (consumed st `mod` timeout_window = 0)%nat
      ∧ (0 < consumed st)%nat)) ->
  let st' := foldl step st sched in
  (count st' <= failures_from 0 (finished st'))%nat
  ∧ (consumed st' <= length to_process)%nat
  ∧ (stopped st' = true ->
     (max_timeouts <= count st')%nat
     ∧ (consumed st' `mod` timeout_window = 0)%nat
     ∧ (0 < consumed st')%nat).
Proof.
  induction sched as [|ev sched IH]; intros st Hst; simpl; [done|].
  by apply IH, tripped_step.
Qed.

End safety.

(** X8.  Whatever the schedule of the pool, the loop of a bulk
    collection leaves by [break] only at the end of a full window and only
    when as many entities as the threshold have failed: a run with fewer
    failures than the threshold, or with fewer entities than a window,
    is never cut short. *)
Theorem breaker_trips_only_on_threshold (svc : services)
    (cache0 : gmap string string) (to_process : list entity)
    (sched : list event) :
  (let st := run_pool 10 30 (process_player svc) to_process cache0 sched in
   stopped st = true ->
   (10 <= failures_from 0 (finished st))%nat
   ∧ (consumed st `mod` 30 = 0)%nat
   ∧ (30 <= consumed st <= length to_process)%nat)
  ∧ (let st := run_pool 5 10 (process_team svc) to_process cache0 sched in
     stopped st = true ->
     (5 <= failures_from 0 (finished st))%nat
     ∧ (consumed st `mod` 10 = 0)%nat
     ∧ (10 <= consumed st <= length to_process)%nat).
Proof.
  split; cbn zeta.
  - destruct (tripped_run 10 30 (process_player svc) to_process
                (process_player_counts svc) sched
                (Pool (Shared cache0 0 [] []) 0 false [] []))
      as (Hcount & Hlen & Hstop); [simpl; split_and!; [done | lia | done]|].
    intros (Hmax & Hmod & Hpos)%Hstop.
    fold (run_pool 10 30 (process_player svc) to_process cache0 sched)
      in Hcount, Hlen, Hmax, Hmod, Hpos |- *.
    split_and!; [lia | done | | done].
    pose proof (Nat.div_mod (consumed (run_pool 10 30 (process_player svc)
                  to_process cache0 sched)) 30 ltac:(lia)). lia.
  - destruct (tripped_run 5 10 (process_team svc) to_process
                (process_team_counts svc) sched
                (Pool (Shared cache0 0 [] []) 0 false [] []))
      as (Hcount & Hlen & Hstop); [simpl; split_and!; [done | lia | done]|].
    intros (Hmax & Hmod & Hpos)%Hstop.
    fold (run_pool 5 10 (process_team svc) to_process cache0 sched)
      in Hcount, Hlen, Hmax, Hmod, Hpos |- *.
    split_and!; [lia | done | | done].
    pose proof (Nat.div_mod (consumed (run_pool 5 10 (process_team svc)
                  to_process cache0 sched)) 10 ltac:(lia)). lia.
Qed.

Lemma breaker_trips_only_on_threshold_witness :
  (let st := run_pool 10 30 (process_player (failing_players ten_of_thirty))
                      forty_players ∅ (lockstep 0 30 ++ [Next]) in
   (10 <= failures_from 0 (finished st))%nat
   ∧ (consumed st `mod` 30 = 0)%nat
   ∧ (30 <= consumed st <= length forty_players)%nat)
  ∧ (let st := run_pool 5 10 (process_team (failing_for four_and_eleventh))
                        eleven_teams ∅ (run_ahead ++ [Next]) in
     (5 <= failures_from 0 (finished st))%nat
     ∧ (consumed st `mod` 10 = 0)%nat
     ∧ (10 <= consumed st <= length eleven_teams)%nat).
Proof.
  split.
  - apply (proj1 (breaker_trips_only_on_threshold
                    (failing_players ten_of_thirty) ∅ forty_players
                    (lockstep 0 30 ++ [Next]))).
    by vm_compute.
  - apply (proj2 (breaker_trips_only_on_threshold
                    (failing_for four_and_eleventh) ∅ eleven_teams
                    (run_ahead ++ [Next]))).
    by vm_compute.
Defined.

End BreakerFacts.

Module CollectorMore.
Import PyStr PyM Collector CollectorSpec CollectorInv League PyStrFacts
  Scenarios MoreScenarios CollectorFacts CacheFacts.

(** X9.  The [limit] of the player collection: zero means no limit at
    all; a positive limit keeps the collection to the first [limit] players
    of the static list; a negative one leaves out the last [-limit]. *)
Theorem limit_bounds_the_players (self : collector) (svc : services)
    (all_players : list entity) (sched : list event) :
  collect_data_for_all_players self svc all_players (Some 0) sched
  = collect_data_for_all_players self svc all_players None sched
  ∧ ∀ n to_process final,
      n ≠ 0 ->
      collect_data_for_all_players self svc all_players (Some n) sched
      = Ok (Ran to_process final) ->
      if decide (0 < n) then
        to_process `sublist_of` take (Z.to_nat n) all_players
        ∧ (length to_process <= Z.to_nat n)%nat
      else
        to_process
          `sublist_of` take (length all_players - Z.to_nat (- n)) all_players.
Proof.
  split; [done|].
  intros n to_process final Hn.
  unfold collect_data_for_all_players.
  destruct (write_all _); [|done].
  destruct (_already_collected_ids self "player_") as [already|]; [|done].
  unfold apply_limit. rewrite decide_False by done.
  case_decide.
  - destruct (not_collected _ _) as [|p ps] eqn:Hps; [done|].
    intros [= <- _]. rewrite <- Hps.
    assert (not_collected already (take (Z.to_nat n) all_players)
            `sublist_of` take (Z.to_nat n) all_players) as Hsub
      by apply sublist_filter.
    split; [done|].
    apply sublist_length in Hsub. rewrite length_take in Hsub. lia.
  - destruct (not_collected _ _) as [|p ps] eqn:Hps; [done|].
    intros [= <- _]. rewrite <- Hps. apply sublist_filter.
Qed.

Lemma limit_bounds_the_players_witness :
  let self := CollectorObj (Directory true (Ok []) (Ok ())) ∅ in
  ∃ to_process final,
    collect_data_for_all_players self (failing_players []) forty_players
                                 (Some 3) []
    = Ok (Ran to_process final)
    ∧ to_process `sublist_of` take 3 forty_players
    ∧ (length to_process <= 3)%nat.
Proof.
  intros self.
  eexists _, _. split; [reflexivity|].
  apply (proj2 (limit_bounds_the_players self (failing_players [])
                  forty_players []) 3 _ _ ltac:(lia) eq_refl).
Defined.

(** X10.  In an output directory where every name with the prefix and
    the [.json] suffix is the file of an entity, the checkpoint scan
    returns exactly the identifiers of the entities whose file is there:
    none is missed and none is invented. *)
Theorem checkpoint_is_exact (self : collector) (prefix : string)
    (fnames : list string) :
  path_exists (output_dir self) = true ->
  listdir (output_dir self) = Ok fnames ->
  (∀ fname, fname ∈ fnames ->
     startswith fname prefix = true -> endswith fname ".json" = true ->
     ∃ n, fname = entity_file prefix n) ->
  ∃ ids, _already_collected_ids self prefix = Ok ids
         ∧ ∀ n, n ∈ ids ↔ entity_file prefix n ∈ fnames.
Proof.
  intros Hex Hls Hclean. unfold _already_collected_ids.
  rewrite Hex, Hls. eexists. split; [done|].
  intros n. split.
  - intros [[]%elem_of_empty | (fname & Hin & Hs & He & Hint)]%elem_of_scan.
    destruct (Hclean fname Hin Hs He) as [m ->].
    rewrite entity_file_id in Hint. by injection Hint as <-.
  - apply scan_entity_file.
Qed.

Lemma checkpoint_is_exact_witness :
  ∃ ids, _already_collected_ids
           (CollectorObj (Directory true (Ok collected_fnames) (Ok ())) ∅)
           "player_" = Ok ids
         ∧ ∀ n, n ∈ ids ↔ entity_file "player_" n ∈ collected_fnames.
Proof.
  apply (checkpoint_is_exact
           (CollectorObj (Directory true (Ok collected_fnames) (Ok ())) ∅)
           "player_" collected_fnames); [reflexivity | reflexivity |].
  intros fname Hin Hs He.
  repeat (apply elem_of_cons in Hin as [->|Hin]);
    [discriminate | by exists 2544 | discriminate | discriminate
    | by exists 201939 | by apply elem_of_nil in Hin].
Defined.

(** X11.  The name of an entity file determines the entity: the
    identifier is read back from the name written for it, two entities with
    different identifiers never share a file, and the file of a player is
    never taken for the file of a team or the other way round. *)
Theorem entity_files_do_not_collide (prefix : string) (n m : Z) :
  py_int (slice_to_end (entity_file prefix n) (length (chars prefix)) 5)
  = Some n
  ∧ (entity_file prefix n = entity_file prefix m -> n = m)
  ∧ startswith (entity_file "player_" n) "team_" = false
  ∧ startswith (entity_file "team_" n) "player_" = false.
Proof.
  split_and!.
  - apply entity_file_id.
  - intros Heq. pose proof (entity_file_id prefix n) as Hn.
    rewrite Heq, entity_file_id in Hn. by injection Hn.
  - done.
  - done.
Qed.

(** *** League-wide data *)

Lemma get_with_cache_eq key (f : M shared string) sh :
  _get_with_cache key f sh
  = match cached sh !! key with
    | Some data => (Ok data, sh)
    | None =>
        match f sh with
        | (Ok data, sh1) => (Ok data, set_cached key data sh1)
        | (Raise e, sh1) => (Raise e, sh1)
        end
    end.
Proof.
  unfold _get_with_cache, bind at 1, gets at 1.
  destruct (cached sh !! key); [done|].
  unfold try_except, bind, modify, ret, call.
  by destruct (f sh) as [[?|?] ?].
Qed.

Lemma fetch_eq svc key sh :
  fetch svc key sh
  = (match (Retry.call_with_retries (endpoint svc key) 5 2 60).1 with
     | Ok response => get_normalized_dict svc response
     | Raise e => Raise e
     end, add_fetched key sh).
Proof.
  unfold fetch, bind, modify, call. simpl.
  destruct (Retry.call_with_retries _ _ _ _).1; [|done].
  by destruct (get_normalized_dict svc a).
Qed.

(** One request through the cache, for a fetch of the collector. *)
Lemma collect_through_cache svc key sh :
  let r := _get_with_cache key (fetch svc key) sh in
  entity_files r.2 = entity_files sh
  ∧ tracker_count r.2 = tracker_count sh
  ∧ cached sh ⊆ cached r.2
  ∧ (is_Some (cached sh !! key) -> r.2 = sh ∧ is_ok r.1 = true)
  ∧ (answered svc key -> is_ok r.1 = true).
Proof.
  cbn zeta. rewrite get_with_cache_eq, fetch_eq. unfold answered.
  destruct (cached sh !! key) as [d|] eqn:Hc.
  { split_and!; done. }
  destruct (Retry.call_with_retries _ _ _ _).1 as [resp|e] eqn:Hcall; simpl;
    [destruct (get_normalized_dict svc resp) as [data|e] eqn:Hn; simpl|];
    split_and!; try done;
    try (by apply insert_subseteq); try (by intros [? ?]).
  - intros (resp' & data & [= <-] & Hd). congruence.
  - by intros (resp' & data & [=] & _).
Qed.

Lemma cached_weaken (m1 m2 : gmap string string) key :
  m1 ⊆ m2 -> is_Some (m1 !! key) -> is_Some (m2 !! key).
Proof. intros Hsub [d Hd]. exists d. by eapply lookup_weaken. Qed.

Lemma for_each_cons {S A B} (x : A) (l : list A) (acc : B)
    (body : B -> A -> M S B) (s : S) :
  for_each (x :: l) acc body s
  = match body acc x s with
    | (Ok acc', s') => for_each l acc' body s'
    | (Raise e, s') => (Raise e, s')
    end.
Proof. done. Qed.

(** The loop over the statistical categories. *)
Lemma leaders_loop svc season stats : ∀ (acc : gmap string string) sh,
  let r := for_each stats acc
             (λ leaders stat,
                bind (collect_league_leaders svc season stat)
                     (λ data, ret (<[stat := data]> leaders))) sh in
  entity_files r.2 = entity_files sh
  ∧ tracker_count r.2 = tracker_count sh
  ∧ cached sh ⊆ cached r.2
  ∧ ((∀ stat, stat ∈ stats ->
        is_Some (cached sh !! ("league_leaders_" +:+ season +:+ "_" +:+ stat)))
     -> r.2 = sh ∧ is_ok r.1 = true)
  ∧ ((∀ stat, stat ∈ stats ->
        answered svc ("league_leaders_" +:+ season +:+ "_" +:+ stat)
        ∨ is_Some (cached sh
                     !! ("league_leaders_" +:+ season +:+ "_" +:+ stat)))
     -> is_ok r.1 = true).
Proof.
  induction stats as [|stat stats IH]; intros acc sh; cbn zeta.
  { split_and!; done. }
  set (body := λ (leaders : gmap string string) stat,
                  bind (collect_league_leaders svc season stat)
                       (λ data, ret (<[stat := data]> leaders))) in *.
  rewrite for_each_cons.
  assert (body acc stat sh
          = match _get_with_cache
                    ("league_leaders_" +:+ season +:+ "_" +:+ stat)
                    (fetch svc ("league_leaders_" +:+ season +:+ "_" +:+ stat))
                    sh with
            | (Ok data, sh1) => (Ok (<[stat := data]> acc), sh1)
            | (Raise e, sh1) => (Raise e, sh1)
            end) as ->.
  { unfold body, bind, ret, collect_league_leaders.
    by destruct (_get_with_cache _ _ sh) as [[?|?] ?]. }
  pose proof (collect_through_cache svc
                ("league_leaders_" +:+ season +:+ "_" +:+ stat) sh)
    as (Hf & Ht & Hc & Hhit & Hans). cbn zeta in *.
  destruct (_get_with_cache _ _ sh) as [[data|e] sh1]; cbn [fst snd] in *.
  - destruct (IH (<[stat := data]> acc) sh1) as (Hf' & Ht' & Hc' & Hhit' & Hans').
    cbn zeta in *. split_and!.
    + congruence.
    + congruence.
    + by etrans.
    + intros Hall. destruct Hhit as [-> _]; [apply Hall; by left|].
      apply Hhit'. intros s Hs. apply Hall. by right.
    + intros Hall. apply Hans'. intros s Hs.
      destruct (Hall s ltac:(by right)) as [?|?]; [by left|].
      right. by eapply cached_weaken.
  - split_and!; try done.
    + intros Hall. destruct Hhit as [_ ?]; [apply Hall; by left|done].
    + intros Hall. destruct (Hall stat ltac:(by left)) as [Ha|Hc'].
      * by apply Hans.
      * by destruct Hhit as [_ ?].
Qed.

Lemma collect_league_season_eq svc season sh :
  collect_league_season svc season sh
  = match collect_standings svc season sh with
    | (Raise _, sh1) => (Ok (), sh1)
    | (Ok _, sh1) =>
        match for_each stat_categories (∅ : gmap string string)
                (λ leaders stat,
                   bind (collect_league_leaders svc season stat)
                        (λ data, ret (<[stat := data]> leaders))) sh1 with
        | (Raise _, sh2) => (Ok (), sh2)
        | (Ok _, sh2) =>
            match open_file svc (league_file season) with
            | Ok _ => (Ok (), add_file (league_file season) sh2)
            | Raise _ => (Ok (), sh2)
            end
        end
    end.
Proof.
  unfold collect_league_season, try_except, bind at 1.
  destruct (collect_standings svc season sh) as [[?|?] sh1]; [|done].
  unfold bind at 1.
  destruct (for_each stat_categories _ _ sh1) as [[?|?] sh2]; [|done].
  rewrite PoolFacts.write_json_run.
  destruct (open_file svc (league_file season)) as [[]|?]; [|done].
  by destruct (json_dump svc (league_file season)) as [[]|?].
Qed.

(** One season. *)
Lemma collect_league_season_spec svc season sh :
  let r := collect_league_season svc season sh in
  r.1 = Ok ()
  ∧ tracker_count r.2 = tracker_count sh
  ∧ cached sh ⊆ cached r.2
  ∧ entity_files sh `prefix_of` entity_files r.2
  ∧ ((∀ key, key ∈ league_keys season -> is_Some (cached sh !! key)) ->
     cached r.2 = cached sh ∧ fetched r.2 = fetched sh)
  ∧ ((∀ key, key ∈ league_keys season ->
        answered svc key ∨ is_Some (cached sh !! key)) ->
     open_file svc (league_file season) = Ok () ->
     entity_files r.2 = entity_files sh ++ [league_file season]).
Proof.
  cbn zeta. rewrite collect_league_season_eq. unfold collect_standings.
  pose proof (collect_through_cache svc ("standings_" +:+ season) sh)
    as (Hf & Ht & Hc & Hhit & Hans). cbn zeta in *.
  assert (∀ P : string -> Prop,
    (∀ key, key ∈ league_keys season -> P key) ->
    P ("standings_" +:+ season)
    ∧ ∀ stat, stat ∈ stat_categories ->
        P ("league_leaders_" +:+ season +:+ "_" +:+ stat)) as Hkeys.
  { intros P HP. split; [apply HP; by left|].
    intros stat Hstat. apply HP. right.
    apply (list_elem_of_fmap_2
             (λ stat, "league_leaders_" +:+ season +:+ "_" +:+ stat)), Hstat. }
  destruct (_get_with_cache _ _ sh) as [[data|e] sh1]; cbn [fst snd] in *.
  2:{ split_and!; try done.
      - by rewrite Hf.
      - intros [Hs _]%Hkeys. by destruct Hhit as [_ ?].
      - intros [[Hs|Hs] _]%Hkeys _;
          [by apply Hans in Hs | by destruct Hhit as [_ ?]]. }
  pose proof (leaders_loop svc season stat_categories ∅ sh1)
    as (Hf' & Ht' & Hc' & Hhit' & Hans'). cbn zeta in *.
  destruct (for_each stat_categories _ _ sh1) as [[leaders|e] sh2];
    cbn [fst snd] in *.
  2:{ split_and!; try done.
      - congruence.
      - by etrans.
      - by rewrite Hf', Hf.
      - intros [Hs Hl]%Hkeys. destruct Hhit as [-> _]; [done|].
        by destruct Hhit' as [_ ?].
      - intros [Hs Hl]%Hkeys _.
        assert (false = true) as Habs; [|done].
        apply Hans'. intros stat Hstat.
        destruct (Hl stat Hstat) as [?|?]; [by left|].
        right. by eapply cached_weaken. }
  destruct (open_file svc (league_file season)) as [[]|e];
    cbn [fst snd add_file entity_files cached fetched tracker_count].
  - split_and!; try done.
    + congruence.
    + by etrans.
    + rewrite Hf', Hf. by apply prefix_app_r.
    + intros [Hs Hl]%Hkeys. destruct Hhit as [-> _]; [done|].
      by destruct Hhit' as [-> _].
    + intros _ _. by rewrite Hf', Hf.
  - split_and!; try done.
    + congruence.
    + by etrans.
    + by rewrite Hf', Hf.
    + intros [Hs Hl]%Hkeys. destruct Hhit as [-> _]; [done|].
      by destruct Hhit' as [-> _].
Qed.

(** X12.  [collect_league_data] never raises and never touches the
    failure counter of the bulk collections.  The seasons do not depend on
    each other: a season whose nine requests are answered (by the remote
    API or from the cache) and whose file can be opened for writing has
    its file made, whatever happened to the seasons before it; the file is
    whole when the dump into it goes through. *)
Theorem league_seasons_are_independent (svc : services)
    (seasons : list string) (sh : shared) :
  let r := collect_league_data svc seasons sh in
  r.1 = Ok ()
  ∧ tracker_count r.2 = tracker_count sh
  ∧ ∀ season,
      season ∈ seasons ->
      (∀ key, key ∈ league_keys season ->
         answered svc key ∨ is_Some (cached sh !! key)) ->
      open_file svc (league_file season) = Ok () ->
      league_file season ∈ entity_files r.2.
Proof.
  cbn zeta. unfold collect_league_data.
  assert (∀ sh, let r := for_each seasons ()
                           (λ _ season, collect_league_season svc season) sh in
                r.1 = Ok ()
                ∧ tracker_count r.2 = tracker_count sh
                ∧ cached sh ⊆ cached r.2
                ∧ entity_files sh `prefix_of` entity_files r.2
                ∧ ∀ season, season ∈ seasons ->
                    (∀ key, key ∈ league_keys season ->
                       answered svc key ∨ is_Some (cached sh !! key)) ->
                    open_file svc (league_file season) = Ok () ->
                    league_file season ∈ entity_files r.2) as H.
  { clear sh. induction seasons as [|s seasons IH]; intros sh; cbn zeta.
    - simpl. split_and!; try done. by intros season Hin%elem_of_nil.
    - rewrite for_each_cons.
      pose proof (collect_league_season_spec svc s sh)
        as (Hok & Ht & Hc & Hf & _ & Hfile). cbn zeta in *.
      destruct (collect_league_season svc s sh) as [r1 sh1].
      cbn [fst snd] in *. subst r1.
      destruct (IH sh1) as (Hok' & Ht' & Hc' & Hf' & Hall). cbn zeta in *.
      split_and!; [done | congruence | by etrans | by etrans |].
      intros season [->|Hin]%elem_of_cons Hkeys Hw.
      + destruct Hf' as [more ->]. rewrite (Hfile Hkeys Hw).
        apply elem_of_app. left. apply elem_of_app. right. by left.
      + apply Hall; [done | | done]. intros key Hkey.
        destruct (Hkeys key Hkey) as [?|?]; [by left|].
        right. by eapply cached_weaken. }
  destruct (H sh) as (? & ? & _ & _ & ?). done.
Qed.

Lemma league_seasons_are_independent_witness :
  let r := collect_league_data league_svc ["2022-23"; "2023-24"]
                               (Shared ∅ 0 [] []) in
  r.1 = Ok ()
  ∧ tracker_count r.2 = 0%nat
  ∧ league_file "2023-24" ∈ entity_files r.2.
Proof.
  intros r.
  destruct (league_seasons_are_independent league_svc ["2022-23"; "2023-24"]
              (Shared ∅ 0 [] [])) as (Hok & Ht & Hfile).
  split; [exact Hok|]. split; [exact Ht|].
  apply Hfile.
  - by right; left.
  - intros key Hkey. left.
    repeat (apply elem_of_cons in Hkey as [->|Hkey]);
      [exists "{}", "{}"; split; vm_compute; reflexivity..
      |inversion Hkey].
  - reflexivity.
Defined.

(** X13.  When every request of the seasons is in the cache,
    [collect_league_data] makes no remote call at all and leaves the cache
    as it is. *)
Theorem cached_league_makes_no_remote_call (svc : services)
    (seasons : list string) (sh : shared) :
  (∀ season key, season ∈ seasons -> key ∈ league_keys season ->
                 is_Some (cached sh !! key)) ->
  let r := collect_league_data svc seasons sh in
  cached r.2 = cached sh ∧ fetched r.2 = fetched sh.
Proof.
  cbn zeta. unfold collect_league_data. revert sh.
  induction seasons as [|s seasons IH]; intros sh Hall; [done|].
  rewrite for_each_cons.
  pose proof (collect_league_season_spec svc s sh)
    as (Hok & _ & _ & _ & Hhit & _). cbn zeta in *.
  destruct Hhit as [Hc Hf]; [intros key; apply (Hall s); by left|].
  destruct (collect_league_season svc s sh) as [r1 sh1].
  cbn [fst snd] in *. subst r1.
  destruct (IH sh1) as [Hc' Hf'].
  { intros season key Hs Hk. rewrite Hc. apply (Hall season); [by right|done]. }
  split; congruence.
Qed.

Lemma cached_league_makes_no_remote_call_witness :
  let sh1 := (collect_league_data league_svc ["2023-24"]
                                  (Shared ∅ 0 [] [])).2 in
  let r := collect_league_data league_svc ["2023-24"] sh1 in
  cached r.2 = cached sh1 ∧ fetched r.2 = fetched sh1.
Proof.
  intros sh1.
  apply (cached_league_makes_no_remote_call league_svc ["2023-24"] sh1).
  intros season key Hs Hkey.
  apply elem_of_cons in Hs as [->|Hs]; [|by apply elem_of_nil in Hs].
  repeat (apply elem_of_cons in Hkey as [->|Hkey]);
    [by vm_compute; eexists..|inversion Hkey].
Defined.

(** *** Recent games *)

Lemma collect_details_spec svc game_details game_id sh :
  let r := collect_details svc game_details game_id sh in
  is_ok r.1 = true
  ∧ entity_files r.2 = entity_files sh
  ∧ tracker_count r.2 = tracker_count sh.
Proof.
  cbn zeta. unfold collect_details, try_except, bind, ret, collect_game_details.
  pose proof (collect_through_cache svc ("game_details_" +:+ game_id) sh)
    as (Hf & Ht & _). cbn zeta in *.
  by destruct (_get_with_cache _ _ sh) as [[data|e] sh1].
Qed.

Lemma details_loop svc ids : ∀ game_details sh,
  let r := for_each ids game_details (collect_details svc) sh in
  is_ok r.1 = true
  ∧ entity_files r.2 = entity_files sh
  ∧ tracker_count r.2 = tracker_count sh.
Proof.
  induction ids as [|game_id ids IH]; intros game_details sh; cbn zeta;
    [done|].
  rewrite for_each_cons.
  pose proof (collect_details_spec svc game_details game_id sh)
    as (Hok & Hf & Ht). cbn zeta in *.
  destruct (collect_details svc game_details game_id sh) as [[acc|e] sh1];
    [|done]. cbn [fst snd] in *.
  destruct (IH acc sh1) as (Hok' & Hf' & Ht'). cbn zeta in *.
  split_and!; [done | congruence | congruence].
Qed.

Lemma collect_recent_game_data_eq svc game_ids days_back sh :
  collect_recent_game_data svc game_ids days_back sh
  = match collect_recent_games svc days_back sh with
    | (Raise _, sh1) => (Ok (), sh1)
    | (Ok recent_games, sh1) =>
        match game_ids recent_games with
        | Raise _ => (Ok (), sh1)
        | Ok ids =>
            match for_each ids (∅ : gmap string string)
                           (collect_details svc) sh1 with
            | (Raise _, sh2) => (Ok (), sh2)
            | (Ok _, sh2) =>
                match open_file svc "recent_games.json" with
                | Ok _ => (Ok (), add_file "recent_games.json" sh2)
                | Raise _ => (Ok (), sh2)
                end
            end
        end
    end.
Proof.
  unfold collect_recent_game_data, try_except, bind at 1.
  destruct (collect_recent_games svc days_back sh) as [[rg|?] sh1]; [|done].
  unfold bind at 1, call at 1.
  destruct (game_ids rg) as [ids|?]; [|done].
  unfold bind at 1.
  destruct (for_each ids _ _ sh1) as [[?|?] sh2]; [|done].
  rewrite PoolFacts.write_json_run.
  destruct (open_file svc "recent_games.json") as [[]|?]; [|done].
  by destruct (json_dump svc "recent_games.json") as [[]|?].
Qed.

(** X14.  [collect_recent_game_data] never raises and leaves the failure
    counter alone.  A game whose details cannot be fetched is left out
    without harm to the rest: once the scoreboard is obtained and read and
    the file [recent_games.json] can be opened for writing, the file is
    made whatever the requests for the details of the games do; it is whole
    when the dump into it goes through. *)
Theorem recent_games_survive_failed_details (svc : services)
    (game_ids : string -> outcome (list string)) (days_back : Z)
    (sh : shared) :
  let r := collect_recent_game_data svc game_ids days_back sh in
  r.1 = Ok ()
  ∧ tracker_count r.2 = tracker_count sh
  ∧ (answered svc ("recent_games_" +:+ py_str days_back)
     ∨ is_Some (cached sh !! ("recent_games_" +:+ py_str days_back)) ->
     (∀ recent_games, is_ok (game_ids recent_games) = true) ->
     open_file svc "recent_games.json" = Ok () ->
     entity_files r.2 = entity_files sh ++ ["recent_games.json"]).
Proof.
  cbn zeta. rewrite collect_recent_game_data_eq. unfold collect_recent_games.
  pose proof (collect_through_cache svc
                ("recent_games_" +:+ py_str days_back) sh)
    as (Hf & Ht & _ & Hhit & Hans). cbn zeta in *.
  destruct (_get_with_cache _ _ sh) as [[recent_games|e] sh1];
    cbn [fst snd] in *.
  2:{ split_and!; [done | done |].
      intros [Ha|Hc]; [by apply Hans in Ha | by destruct Hhit as [_ ?]]. }
  destruct (game_ids recent_games) as [ids|e] eqn:Hids.
  2:{ split_and!; [done | done |].
      intros _ Hread. specialize (Hread recent_games). by rewrite Hids in Hread. }
  pose proof (details_loop svc ids ∅ sh1) as (Hok & Hf' & Ht').
  cbn zeta in *.
  destruct (for_each ids _ _ sh1) as [[details|e] sh2]; [|done].
  cbn [fst snd] in *.
  destruct (open_file svc "recent_games.json") as [[]|e];
    cbn [fst snd add_file entity_files tracker_count].
  - split_and!; [done | congruence |]. intros _ _ _. congruence.
  - split_and!; [done | congruence | done].
Qed.

Lemma recent_games_survive_failed_details_witness :
  let r := collect_recent_game_data games_svc (λ _, Ok ["0022300001"]) 30
                                    (Shared ∅ 0 [] []) in
  r.1 = Ok ()
  ∧ tracker_count r.2 = 0%nat
  ∧ entity_files r.2 = ["recent_games.json"]
  ∧ fetched r.2 = ["recent_games_30"; "game_details_0022300001"]
  ∧ cached r.2 !! "game_details_0022300001" = None.
Proof.
  intros r.
  destruct (recent_games_survive_failed_details games_svc
              (λ _, Ok ["0022300001"]) 30 (Shared ∅ 0 [] []))
    as (Hok & Ht & Hfile).
  split; [exact Hok|]. split; [exact Ht|].
  split; [|by vm_compute].
  apply Hfile; [left; exists "{}", "{}"; split; vm_compute; reflexivity
               | done | reflexivity].
Defined.

End CollectorMore.

Module EmbeddingsMore.
Import Embeddings EmbeddingsSpec EmbeddingsFiles Scenarios MoreScenarios
  EmbeddingsFacts.

(** *** Degenerate parameters and the number of calls *)

Lemma embed_batch_created create retry_limit retry_delay batch_no batch :
  ∀ todo attempt st,
    let r := embed_batch create retry_limit retry_delay batch_no batch
                         todo attempt st in
    (created st <= created r.2 <= created st + todo)%nat
    ∧ ((0 < todo)%nat -> is_ok (create (created st) batch) = true ->
       r.1 = Ok () ∧ created r.2 = S (created st)).
Proof.
  induction todo as [|todo IH]; intros attempt st; cbn zeta.
  { simpl. split; [lia|]. lia. }
  rewrite embed_batch_S. cbn zeta.
  destruct (create (created st) batch) as [data|e]; simpl.
  - split; [lia | done].
  - split; [|done].
    case_decide; [destruct (time_sleep retry_delay)|];
      try match goal with |- context [embed_batch _ _ _ _ _ todo ?a ?s] =>
        destruct (IH a s) as [Hle _]; cbn zeta in Hle
      end; simpl in *; lia.
Qed.

Lemma embed_batches_created create texts batch_size retry_limit retry_delay :
  ∀ starts st,
    let r := embed_batches create texts batch_size retry_limit retry_delay
                           starts st in
    (created r.2 <= created st + length starts * Z.to_nat retry_limit)%nat
    ∧ (0 < retry_limit -> (∀ k batch, is_ok (create k batch) = true) ->
       r.1 = Ok () ∧ created r.2 = (created st + length starts)%nat).
Proof.
  induction starts as [|i starts IH]; intros st; cbn zeta.
  { simpl. split; [lia|]. intros _ _. split; [done | lia]. }
  cbn [embed_batches].
  destruct (embed_batch_created create retry_limit retry_delay
              (Z.of_nat i `div` batch_size) (slice texts i batch_size)
              (Z.to_nat retry_limit) 0 st) as [Hb Hone].
  cbn zeta in Hb, Hone.
  destruct (embed_batch _ _ _ _ _ _ _ _) as [[[]|e] st1]; cbn [fst snd] in *.
  - destruct (IH st1) as [Hle Hex]. cbn zeta in Hle, Hex.
    cbn [length]. split; [lia|]. intros Hrl Hgood.
    destruct (Hex Hrl Hgood) as [-> ->]. split; [done|].
    destruct Hone as [_ ->]; [lia | apply Hgood | lia].
  - cbn [length]. split; [lia|]. intros Hrl Hgood.
    destruct Hone as [[=] _]; [lia | apply Hgood].
Qed.

(** X15.  Degenerate parameters of [generate_embeddings_batch].  A batch
    size of zero raises the [ValueError] of [range] before any call; a
    negative batch size, or a retry limit of zero or less, makes the
    function return the empty list without calling the service: no
    placeholder stands for the texts, so the result no longer has one
    entry per text. *)
Theorem degenerate_batch_parameters (create : service) (texts : list value)
    (batch_size retry_limit retry_delay : Z) :
  (batch_size = 0 ->
   generate_embeddings_batch create texts batch_size retry_limit retry_delay
   = (Raise (Exn ValueError "range() arg 3 must not be zero"), State [] 0 []))
  ∧ (batch_size < 0 ∨ retry_limit <= 0 ∧ 0 < batch_size ->
     generate_embeddings_batch create texts batch_size retry_limit retry_delay
     = (Ok [], State [] 0 [])).
Proof.
  unfold generate_embeddings_batch, range_step. split.
  - intros ->. done.
  - intros [Hneg | [Hrl Hbs]].
    + rewrite decide_False, decide_True by lia. done.
    + rewrite !decide_False by lia.
      generalize ((λ k, k * Z.to_nat batch_size)%nat
                    <$> seq 0 ((length texts + Z.to_nat batch_size - 1)
                               / Z.to_nat batch_size)).
      intros starts.
      assert (∀ st, embed_batches create texts batch_size retry_limit
                      retry_delay starts st = (Ok (), st)) as ->; [|done].
      induction starts as [|i starts IH]; intros st; [done|].
      cbn [embed_batches].
      replace (Z.to_nat retry_limit) with 0%nat by lia. apply IH.
Qed.

Lemma degenerate_batch_parameters_witness :
  generate_embeddings_batch abc_service sample_texts 0 3 5
  = (Raise (Exn ValueError "range() arg 3 must not be zero"), State [] 0 [])
  ∧ generate_embeddings_batch abc_service sample_texts (-1) 3 5
    = (Ok [], State [] 0 [])
  ∧ generate_embeddings_batch abc_service sample_texts 10 0 5
    = (Ok [], State [] 0 []).
Proof.
  split; [|split].
  - apply (proj1 (degenerate_batch_parameters abc_service sample_texts 0 3 5)).
    reflexivity.
  - apply (proj2 (degenerate_batch_parameters abc_service sample_texts (-1)
                    3 5)). left. lia.
  - apply (proj2 (degenerate_batch_parameters abc_service sample_texts 10
                    0 5)). right. lia.
Defined.

(** X16.  The number of calls to the embedding service.  For a positive
    batch size it is at most the number of batches times the retry limit;
    when the service never fails it is exactly the number of batches, one
    call for each. *)
Theorem embedding_calls_are_bounded (create : service) (texts : list value)
    (batch_size retry_limit retry_delay : Z) :
  0 < batch_size ->
  let batches := ((length texts + Z.to_nat batch_size - 1)
                  / Z.to_nat batch_size)%nat in
  let st := (generate_embeddings_batch create texts batch_size retry_limit
                                       retry_delay).2 in
  (created st <= batches * Z.to_nat retry_limit)%nat
  ∧ (0 < retry_limit -> (∀ k batch, is_ok (create k batch) = true) ->
     created st = batches).
Proof.
  intros Hbs batches st. subst st.
  unfold generate_embeddings_batch, range_step.
  rewrite !decide_False by lia.
  fold batches. generalize batches. clear batches. intros n.
  destruct (embed_batches_created create texts batch_size retry_limit
              retry_delay ((λ k, k * Z.to_nat batch_size)%nat <$> seq 0 n)
              (State [] 0 [])) as [Hle Hex].
  cbn zeta in Hle, Hex.
  rewrite length_fmap, length_seq in Hle, Hex. simpl in Hle, Hex.
  destruct (embed_batches _ _ _ _ _ _ _) as [[[]|e] st]; cbn [fst snd] in *.
  - split; [exact Hle|]. intros Hrl Hgood. by destruct (Hex Hrl Hgood).
  - split; [exact Hle|]. intros Hrl Hgood. by destruct (Hex Hrl Hgood).
Qed.

Lemma embedding_calls_are_bounded_witness :
  let st := (generate_embeddings_batch patchy_service sample_texts 2 3 5).2 in
  (created st <= 2 * 3)%nat ∧ created st = 2%nat.
Proof.
  intros st.
  destruct (embedding_calls_are_bounded patchy_service sample_texts 2 3 5)
    as [Hle Hex]; [lia|].
  split; [exact Hle | apply Hex; [lia | reflexivity]].
Defined.

(** *** [process_file] and the files it finds *)

Lemma texts_of_missing (documents : list doc) (d : doc) :
  d ∈ documents -> d !! "text" = None ->
  texts_of documents = Raise (Exn KeyError "text").
Proof.
  induction documents as [|d' documents IH]; [by intros ?%elem_of_nil|].
  intros [->|Hin]%elem_of_cons Hd; simpl.
  - by rewrite Hd.
  - destruct (d' !! "text"); [|done]. by rewrite IH.
Qed.

(** X17.  One document without a [text] field voids its whole input file:
    [process_file] and [process_combined_file] return the empty list,
    write nothing, and do not call the embedding service, though the other
    documents of the file have their text. *)
Theorem document_without_text_voids_the_file (fs : files) (create : service)
    (data_dir output_dir filename : string) (documents : list doc)
    (d : doc) :
  load fs (data_path data_dir filename) = Ok documents ->
  d ∈ documents -> d !! "text" = None ->
  process_file fs create data_dir output_dir filename
  = Processed [] None None
  ∧ process_combined_file fs create data_dir output_dir filename
    = Processed [] None None.
Proof.
  intros Hload Hin Hd.
  unfold process_file, process_combined_file. rewrite Hload.
  rewrite (texts_of_missing documents d Hin Hd).
  by destruct (negb (truthy documents)).
Qed.

Lemma document_without_text_voids_the_file_witness :
  process_file textless_files patchy_service "nba_processed_data"
               "nba_embeddings" "processed_teams.json"
  = Processed [] None None
  ∧ process_combined_file textless_files patchy_service "nba_processed_data"
                          "nba_embeddings" "all_processed_data.json"
    = Processed [] None None.
Proof.
  split.
  - apply (document_without_text_voids_the_file textless_files patchy_service
             "nba_processed_data" "nba_embeddings" "processed_teams.json"
             [ {[ "text" := VStr "d0" ]}; {[ "category" := VStr "team" ]} ]
             {[ "category" := VStr "team" ]}).
    + reflexivity.
    + right. left.
    + reflexivity.
  - apply (document_without_text_voids_the_file textless_files patchy_service
             "nba_processed_data" "nba_embeddings" "all_processed_data.json"
             [ {[ "text" := VStr "d0" ]}; {[ "category" := VStr "team" ]} ]
             {[ "category" := VStr "team" ]}).
    + reflexivity.
    + right. left.
    + reflexivity.
Defined.

(** What [process_file] returns and leaves in the file it opens:
    documents with an embedding; the list returned, when the dump goes
    through; a file cut short, the empty list being returned, when it
    breaks off. *)
Lemma process_file_embedded fs create data_dir output_dir filename :
  let r := process_file fs create data_dir output_dir filename in
  Forall has_embedding (returned r)
  ∧ ∀ path c, written r = Some (path, c) ->
      path = output_path output_dir filename
      ∧ match c with
        | Whole docs => docs = returned r
        | CutShort => returned r = []
        end.
Proof.
  cbn zeta. unfold process_file.
  repeat match goal with
  | |- context [match ?x with _ => _ end] => destruct x eqn:?
  end; simpl; split; try done; try (by intros ?? [= <- <-]);
    by apply Forall_forall; intros d [Hd _]%list_elem_of_filter.
Qed.

(** [process_combined_file] is [process_file] with the output sent to
    [all_embedded_data.json]. *)
Lemma process_combined_file_eq fs create data_dir output_dir filename :
  let fs' := Files (load fs)
                   (λ _, open_w fs (combined_path output_dir))
                   (λ _ docs, dump fs (combined_path output_dir) docs) in
  let r := process_file fs' create data_dir output_dir filename in
  process_combined_file fs create data_dir output_dir filename
  = Processed (returned r)
              (match written r with
               | Some (_, c) => Some (combined_path output_dir, c)
               | None => None
               end)
              (service_state r).
Proof.
  cbn zeta. unfold process_combined_file, process_file. simpl.
  repeat match goal with
  | |- context [match ?x with _ => _ end] => destruct x eqn:?
  end; simpl in *; congruence.
Qed.

(** The documents kept by [process_file], for input documents that come
    without an embedding. *)
Lemma process_file_kept fs create data_dir output_dir filename
    documents texts embeddings st :
  load fs (data_path data_dir filename) = Ok documents ->
  documents ≠ [] ->
  Forall (λ d, d !! "embedding" = None) documents ->
  texts_of documents = Ok texts ->
  generate_embeddings_batch create texts 10 3 5 = (Ok embeddings, st) ->
  (length embeddings <= length documents)%nat ->
  open_w fs (output_path output_dir filename) = Ok () ->
  process_file fs create data_dir output_dir filename
  = match dump fs (output_path output_dir filename)
               (documents_kept documents embeddings) with
    | Ok _ =>
        Processed (documents_kept documents embeddings)
                  (Some (output_path output_dir filename,
                         Whole (documents_kept documents embeddings)))
                  (Some st)
    | Raise _ =>
        Processed [] (Some (output_path output_dir filename, CutShort))
                  (Some st)
    end.
Proof.
  intros Hload Hne Hnone Htexts Hgen Hlen Hopen.
  unfold process_file. rewrite Hload.
  destruct documents as [|d0 documents0] eqn:Hdocs; [done|].
  rewrite <- Hdocs in *. replace (truthy documents) with true by by subst.
  simpl negb. cbv iota. rewrite Htexts, Hgen.
  rewrite add_embeddings_spec by (simpl; lia).
  rewrite take_0, drop_0, app_nil_l, Nat.add_0_l.
  rewrite filter_attached by done. by rewrite Hopen.
Qed.

(** X18.  The entry point of the pipeline, [process_combined_file],
    returns only documents that have an embedding, and opens no file for
    writing but [all_embedded_data.json].  When the dump into that file
    goes through, the file holds the list returned; when the dump breaks
    off, the file is left cut short and the empty list is returned.  For
    input documents without an embedding, the list dumped is the documents
    whose embedding is not an empty placeholder, each with its embedding,
    in the order of the input. *)
Theorem combined_file_holds_embedded_documents (fs : files)
    (create : service) (data_dir output_dir filename : string) :
  let r := process_combined_file fs create data_dir output_dir filename in
  Forall has_embedding (returned r)
  ∧ (∀ path c, written r = Some (path, c) ->
       path = combined_path output_dir
       ∧ match c with
         | Whole docs => docs = returned r
         | CutShort => returned r = []
         end)
  ∧ ∀ documents texts embeddings st,
      load fs (data_path data_dir filename) = Ok documents ->
      documents ≠ [] ->
      Forall (λ d, d !! "embedding" = None) documents ->
      texts_of documents = Ok texts ->
      generate_embeddings_batch create texts 10 3 5 = (Ok embeddings, st) ->
      (length embeddings <= length documents)%nat ->
      open_w fs (combined_path output_dir) = Ok () ->
      match dump fs (combined_path output_dir)
                 (documents_kept documents embeddings) with
      | Ok _ =>
          returned r = documents_kept documents embeddings
          ∧ written r = Some (combined_path output_dir,
                              Whole (documents_kept documents embeddings))
      | Raise _ =>
          returned r = []
          ∧ written r = Some (combined_path output_dir, CutShort)
      end.
Proof.
  cbn zeta. rewrite process_combined_file_eq. cbn zeta.
  set (fs' := Files (load fs) _ _).
  destruct (process_file_embedded fs' create data_dir output_dir filename)
    as [Hall Hwr]. cbn zeta in *.
  cbn [returned written]. split_and!.
  - done.
  - intros path c.
    destruct (written (process_file fs' _ _ _ _)) as [[p c']|]; [|done].
    intros [= <- <-]. split; [done|]. by destruct (Hwr p c' eq_refl).
  - intros documents texts embeddings st Hload Hne Hnone Htexts Hgen Hlen
      Hopen.
    rewrite (process_file_kept fs' create data_dir output_dir filename
               documents texts embeddings st Hload Hne Hnone Htexts Hgen
               Hlen Hopen).
    subst fs'. cbn [dump].
    by destruct (dump fs _ _).
Qed.

Lemma combined_file_holds_embedded_documents_witness :
  let r := process_combined_file sample_files patchy_service
             "nba_processed_data" "nba_embeddings" "all_processed_data.json" in
  Forall has_embedding (returned r)
  ∧ length (returned r) = 8%nat
  ∧ written r = Some ("nba_embeddings/all_embedded_data.json",
                      Whole (returned r)).
Proof.
  intros r.
  destruct (combined_file_holds_embedded_documents sample_files patchy_service
              "nba_processed_data" "nba_embeddings" "all_processed_data.json")
    as (Hall & _ & Hkept).
  split; [exact Hall|].
  pose proof (Hkept ten_documents (VStr <$>
              ["d0"; "d1"; "d2"; "d3"; "d4"; "d5"; "d6"; "d7"; "d8"; "d9"])
              (patchy_emb <$> (VStr <$>
              ["d0"; "d1"; "d2"; "d3"; "d4"; "d5"; "d6"; "d7"; "d8"; "d9"]))
              (generate_embeddings_batch patchy_service (VStr <$>
              ["d0"; "d1"; "d2"; "d3"; "d4"; "d5"; "d6"; "d7"; "d8"; "d9"])
              10 3 5).2
              eq_refl ltac:(discriminate) ltac:(repeat constructor) eq_refl
              eq_refl ltac:(simpl; lia) eq_refl)
    as [Hret Hwr].
  fold r in Hret, Hwr. rewrite Hwr, Hret.
  split; reflexivity.
Defined.

(** *** [process_all_files] *)

Lemma process_all_files_loop fs create data_dir output_dir files0 :
  ∀ acc runs,
    foldl (λ '(all_documents, runs) filename,
             let r := process_file fs (create filename) data_dir
                                   output_dir filename in
             (all_documents ++ returned r, runs ++ [r]))
          (acc, runs) files0
    = (acc ++ concat ((λ filename,
                         returned (process_file fs (create filename) data_dir
                                                output_dir filename))
                      <$> files0),
       runs ++ ((λ filename,
                   process_file fs (create filename) data_dir output_dir
                                filename) <$> files0)).
Proof.
  induction files0 as [|f files0 IH]; intros acc runs; simpl.
  - by rewrite !app_nil_r.
  - rewrite IH. by rewrite <- !app_assoc.
Qed.

(** X19.  [process_all_files] processes the [.json] files of the data
    directory and no other, in the order of the listing; what it returns
    and writes to [all_embedded_data.json] is the lists returned by
    [process_file] one after the other, so that every document of the
    combined output has an embedding.  A directory that cannot be listed
    and a combined file that cannot be opened or written make it raise. *)
Theorem all_files_hold_embedded_documents (fs : files)
    (listdir : outcome (list string)) (create : string -> service)
    (data_dir output_dir : string) :
  let r := process_all_files fs listdir create data_dir output_dir in
  match listdir with
  | Raise e => r = (Raise e, [])
  | Ok fnames =>
      let runs := (λ filename,
                     process_file fs (create filename) data_dir output_dir
                                  filename) <$> json_files fnames in
      let all_documents := concat (returned <$> runs) in
      r.2 = runs
      ∧ Forall has_embedding all_documents
      ∧ r.1 = match open_w fs (combined_path output_dir) with
              | Raise e => Raise e
              | Ok _ =>
                  match dump fs (combined_path output_dir) all_documents with
                  | Ok _ => Ok all_documents
                  | Raise e => Raise e
                  end
              end
  end.
Proof.
  cbn zeta. unfold process_all_files. destruct listdir as [fnames|e]; [|done].
  rewrite process_all_files_loop. simpl.
  rewrite <- list_fmap_compose.
  split_and!.
  - destruct (open_w fs _); [|done]. by destruct (dump fs _ _).
  - apply Forall_concat, Forall_fmap, Forall_forall. intros f _. simpl.
    apply (process_file_embedded fs (create f) data_dir output_dir f).
  - destruct (open_w fs _); [|done]. by destruct (dump fs _ _).
Qed.

End EmbeddingsMore.

Module TraceFacts.
Import PyM Mongo UploadSpec UploadInv ConnectorFiles Scenarios MoreScenarios
  UploadFacts.
Local Open Scope py_scope.

Section emits.
Context (Q : event -> Prop).

Lemma emits_ret {A} (a : A) : emits Q (ret a).
Proof. intros st. exists []. by rewrite app_nil_r. Qed.

Lemma emits_call {A} (o : outcome A) : emits Q (call o).
Proof. intros st. exists []. by rewrite app_nil_r. Qed.

Lemma emits_gets {A} (f : state -> A) : emits Q (gets f).
Proof. intros st. exists []. by rewrite app_nil_r. Qed.

Lemma emits_emit ev : Q ev -> emits Q (emit ev).
Proof. intros Hev st. exists [ev]. split; [done|]. by constructor. Qed.

Lemma emits_modify (f : state -> state) ev :
  Q ev -> (∀ st, trace (f st) = trace st ++ [ev]) -> emits Q (modify f).
Proof.
  intros Hev Hf st. exists [ev]. split; [apply Hf|]. by constructor.
Qed.

Lemma emits_modify_quiet (f : state -> state) :
  (∀ st, trace (f st) = trace st) -> emits Q (modify f).
Proof.
  intros Hf st. exists []. simpl. by rewrite Hf, app_nil_r.
Qed.

Lemma emits_bind {A B} (m : M A) (k : A -> M B) :
  emits Q m -> (∀ a, emits Q (k a)) -> emits Q (bind m k).
Proof.
  intros Hm Hk st. unfold bind. destruct (Hm st) as (tr1 & Htr1 & HQ1).
  destruct (m st) as [[a|e] st']; simpl in *; [|by eauto].
  destruct (Hk a st') as (tr2 & Htr2 & HQ2).
  exists (tr1 ++ tr2). rewrite Htr2, Htr1, app_assoc.
  split; [done | by apply Forall_app].
Qed.

Lemma emits_try_except {A} (body : M A) (handler : exn -> M A) :
  emits Q body -> (∀ e, emits Q (handler e)) ->
  emits Q (try_except body handler).
Proof.
  intros Hm Hk st. unfold try_except. destruct (Hm st) as (tr1 & Htr1 & HQ1).
  destruct (body st) as [[a|e] st']; simpl in *; [by eauto|].
  destruct (Hk e st') as (tr2 & Htr2 & HQ2).
  exists (tr1 ++ tr2). rewrite Htr2, Htr1, app_assoc.
  split; [done | by apply Forall_app].
Qed.

Lemma emits_for_each {A B} (l : list A) (body : B -> A -> M B) :
  (∀ acc x, emits Q (body acc x)) -> ∀ acc, emits Q (for_each l acc body).
Proof.
  intros Hbody. induction l as [|x l IH]; intros acc; simpl.
  - apply emits_ret.
  - apply emits_bind; [apply Hbody | intros acc'; apply IH].
Qed.

Lemma emits_log lvl msg : Q (Log lvl msg) -> emits Q (log lvl msg).
Proof. apply emits_emit. Qed.

End emits.

Lemma emits_weaken (Q Q' : event -> Prop) {A} (m : M A) :
  (∀ ev, Q ev -> Q' ev) -> emits Q m -> emits Q' m.
Proof.
  intros HQ Hm st. destruct (Hm st) as (tr & Htr & Hall).
  exists tr. split; [done|]. eapply Forall_impl; eauto.
Qed.

Section keeps.
Context {X : Type} (proj : state -> X).

Lemma keeps_ret {A} (a : A) : keeps proj (ret a).
Proof. by intros st. Qed.

Lemma keeps_call {A} (o : outcome A) : keeps proj (call o).
Proof. by intros st. Qed.

Lemma keeps_gets {A} (f : state -> A) : keeps proj (gets f).
Proof. by intros st. Qed.

Lemma keeps_modify (f : state -> state) :
  (∀ st, proj (f st) = proj st) -> keeps proj (modify f).
Proof. intros Hf st. apply Hf. Qed.

Lemma keeps_bind {A B} (m : M A) (k : A -> M B) :
  keeps proj m -> (∀ a, keeps proj (k a)) -> keeps proj (bind m k).
Proof.
  intros Hm Hk st. unfold bind. specialize (Hm st).
  destruct (m st) as [[a|e] st']; simpl in *; [|done]. by rewrite Hk.
Qed.

Lemma keeps_try_except {A} (body : M A) (handler : exn -> M A) :
  keeps proj body -> (∀ e, keeps proj (handler e)) ->
  keeps proj (try_except body handler).
Proof.
  intros Hm Hk st. unfold try_except. specialize (Hm st).
  destruct (body st) as [[a|e] st']; simpl in *; [done|]. by rewrite Hk.
Qed.

Lemma keeps_for_each {A B} (l : list A) (body : B -> A -> M B) :
  (∀ acc x, keeps proj (body acc x)) -> ∀ acc, keeps proj (for_each l acc body).
Proof.
  intros Hbody. induction l as [|x l IH]; intros acc; simpl.
  - apply keeps_ret.
  - apply keeps_bind; [apply Hbody | intros acc'; apply IH].
Qed.

End keeps.

(** *** The statements of the connectors *)

Lemma emits_connect Q db : (∀ lvl msg, Q (Log lvl msg)) -> emits Q (connect db).
Proof.
  intros HQ. unfold connect. apply emits_try_except.
  - apply emits_bind; [apply emits_call|]. intros _.
    apply emits_bind; [by apply emits_modify_quiet|]. intros _.
    apply emits_bind; [apply emits_call|]. intros _.
    apply emits_bind; [by apply emits_log | intros _; apply emits_ret].
  - intros e. apply emits_bind; [by apply emits_log|].
    intros _. apply emits_ret.
Qed.

Lemma emits_check_vector_index Q db index_name :
  (∀ lvl msg, Q (Log lvl msg)) -> Q Listed ->
  emits Q (check_vector_index db index_name).
Proof.
  intros HQ HL. unfold check_vector_index. apply emits_try_except.
  - apply emits_bind; [apply emits_gets|]. intros k.
    apply emits_bind; [by apply (emits_modify Q _ Listed)|]. intros _.
    apply emits_bind; [apply emits_call|]. intros names.
    destruct (has_index _ _);
      (apply emits_bind; [by apply emits_log | intros _; apply emits_ret]).
  - intros e. apply emits_bind; [by apply emits_log|].
    intros _. apply emits_ret.
Qed.

Lemma emits_create_vector_index Q db index_name :
  (∀ lvl msg, Q (Log lvl msg)) -> Q Listed -> Q CreatedIndex ->
  emits Q (create_vector_index db index_name).
Proof.
  intros HQ HL HC. unfold create_vector_index. apply emits_try_except.
  - apply emits_bind; [by apply emits_check_vector_index|]. intros [|].
    + apply emits_ret.
    + apply emits_bind; [by apply emits_emit|]. intros _.
      apply emits_bind; [apply emits_call|]. intros _.
      apply emits_bind; [by apply emits_log | intros _; apply emits_ret].
  - intros e. apply emits_bind; [by apply emits_log|].
    intros _. apply emits_ret.
Qed.

Lemma emits_clear_collection Q db :
  (∀ lvl msg, Q (Log lvl msg)) -> Q Deleted -> emits Q (clear_collection db).
Proof.
  intros HQ HD. unfold clear_collection. apply emits_try_except.
  - apply emits_bind; [by apply emits_emit|]. intros _.
    apply emits_bind; [apply emits_call|]. intros _.
    apply emits_bind; [by apply emits_log | intros _; apply emits_ret].
  - intros e. apply emits_bind; [by apply emits_log|].
    intros _. apply emits_ret.
Qed.

Lemma emits_insert_batch Q db documents batch_size acc i :
  (∀ lvl msg, Q (Log lvl msg)) -> (∀ b r, Q (Insert b r)) ->
  emits Q (insert_batch db documents batch_size acc i).
Proof.
  intros HQ HI. unfold insert_batch. apply emits_try_except.
  - apply emits_bind; [apply emits_gets|]. intros k.
    apply emits_bind.
    { by apply (emits_modify Q _ (Insert (slice documents i batch_size)
                  (insert_many db k (slice documents i batch_size)))). }
    intros _. apply emits_bind; [apply emits_call|]. intros n.
    apply emits_bind; [by apply emits_log | intros _; apply emits_ret].
  - intros e. apply emits_bind; [by apply emits_log|].
    intros _. apply emits_ret.
Qed.

Lemma emits_upload_loop Q db documents batch_size :
  (∀ lvl msg, Q (Log lvl msg)) -> (∀ b r, Q (Insert b r)) ->
  emits Q (upload_loop db documents batch_size).
Proof.
  intros HQ HI. unfold upload_loop, batch_starts.
  apply emits_bind; [apply emits_call|]. intros starts.
  apply emits_bind.
  { apply emits_for_each. intros. by apply emits_insert_batch. }
  intros n. apply emits_bind; [by apply emits_log | intros _; apply emits_ret].
Qed.

Section keeps_client.

Lemma keeps_log {X} (proj : state -> X) lvl msg :
  (∀ st ev, proj (State (client st) (listed st) (inserts st) (trace st ++ [ev]))
            = proj st) ->
  keeps proj (log lvl msg).
Proof. intros Hp st. apply Hp. Qed.

Lemma keeps_client_check db index_name :
  keeps client (check_vector_index db index_name).
Proof.
  unfold check_vector_index. apply keeps_try_except.
  - apply keeps_bind; [apply keeps_gets|]. intros k.
    apply keeps_bind; [by apply keeps_modify|]. intros _.
    apply keeps_bind; [apply keeps_call|]. intros names.
    destruct (has_index _ _);
      (apply keeps_bind; [by apply keeps_log | intros _; apply keeps_ret]).
  - intros e. apply keeps_bind; [by apply keeps_log|].
    intros _. apply keeps_ret.
Qed.

Lemma keeps_client_create db index_name :
  keeps client (create_vector_index db index_name).
Proof.
  unfold create_vector_index. apply keeps_try_except.
  - apply keeps_bind; [apply keeps_client_check|]. intros [|].
    + apply keeps_ret.
    + apply keeps_bind; [by apply keeps_modify|]. intros _.
      apply keeps_bind; [apply keeps_call|]. intros _.
      apply keeps_bind; [by apply keeps_log | intros _; apply keeps_ret].
  - intros e. apply keeps_bind; [by apply keeps_log|].
    intros _. apply keeps_ret.
Qed.

Lemma keeps_client_insert_batch db documents batch_size acc i :
  keeps client (insert_batch db documents batch_size acc i).
Proof.
  unfold insert_batch. apply keeps_try_except.
  - apply keeps_bind; [apply keeps_gets|]. intros k.
    apply keeps_bind; [by apply keeps_modify|]. intros _.
    apply keeps_bind; [apply keeps_call|]. intros n.
    apply keeps_bind; [by apply keeps_log | intros _; apply keeps_ret].
  - intros e. apply keeps_bind; [by apply keeps_log|].
    intros _. apply keeps_ret.
Qed.

Lemma keeps_client_upload_loop db documents batch_size :
  keeps client (upload_loop db documents batch_size).
Proof.
  unfold upload_loop, batch_starts.
  apply keeps_bind; [apply keeps_call|]. intros starts.
  apply keeps_bind.
  { apply keeps_for_each. intros. apply keeps_client_insert_batch. }
  intros n. apply keeps_bind; [by apply keeps_log | intros _; apply keeps_ret].
Qed.

End keeps_client.

(** The two connectors in their common frame. *)
Lemma connector_frame db index_name documents batch_size clear_first :
  Connector.upload_documents_body db index_name documents batch_size
                                  clear_first
  = upload_frame db clear_first
      (index_then_upload db index_name documents batch_size).
Proof. reflexivity. Qed.

Lemma legacy_connector_frame db index_name documents batch_size clear_first :
  LegacyConnector.upload_documents_body db index_name documents batch_size
                                        clear_first
  = upload_frame db clear_first
      (legacy_index_then_upload db index_name documents batch_size).
Proof. reflexivity. Qed.

Lemma emits_index_then_upload Q db index_name documents batch_size :
  (∀ lvl msg, Q (Log lvl msg)) -> Q Listed -> Q CreatedIndex ->
  (∀ b r, Q (Insert b r)) ->
  emits Q (index_then_upload db index_name documents batch_size).
Proof.
  intros HQ HL HC HI. unfold index_then_upload.
  apply emits_bind; [|intros _; by apply emits_upload_loop].
  apply emits_try_except; [|intros e; by apply emits_log].
  apply emits_bind; [by apply emits_check_vector_index|]. intros _.
  apply emits_bind; [by apply emits_create_vector_index|]. intros _.
  apply emits_ret.
Qed.

Lemma emits_legacy_index_then_upload Q db index_name documents batch_size :
  (∀ lvl msg, Q (Log lvl msg)) -> Q Listed -> Q CreatedIndex ->
  (∀ b r, Q (Insert b r)) ->
  emits Q (legacy_index_then_upload db index_name documents batch_size).
Proof.
  intros HQ HL HC HI. unfold legacy_index_then_upload.
  apply emits_bind; [by apply emits_check_vector_index|]. intros found.
  apply emits_bind.
  { destruct found; [apply emits_ret | by apply emits_create_vector_index]. }
  intros [|]; simpl.
  - by apply emits_upload_loop.
  - apply emits_bind; [by apply emits_log | intros _; apply emits_ret].
Qed.

Lemma keeps_client_index_then_upload db index_name documents batch_size :
  keeps client (index_then_upload db index_name documents batch_size).
Proof.
  unfold index_then_upload.
  apply keeps_bind; [|intros _; apply keeps_client_upload_loop].
  apply keeps_try_except; [|intros e; by apply keeps_log].
  apply keeps_bind; [apply keeps_client_check|]. intros _.
  apply keeps_bind; [apply keeps_client_create|]. intros _.
  apply keeps_ret.
Qed.

Lemma keeps_client_legacy_index_then_upload db index_name documents
    batch_size :
  keeps client (legacy_index_then_upload db index_name documents batch_size).
Proof.
  unfold legacy_index_then_upload.
  apply keeps_bind; [apply keeps_client_check|]. intros found.
  apply keeps_bind.
  { destruct found; [apply keeps_ret | apply keeps_client_create]. }
  intros [|]; simpl.
  - apply keeps_client_upload_loop.
  - apply keeps_bind; [by apply keeps_log | intros _; apply keeps_ret].
Qed.

(** *** The frame step by step *)

Lemma connect_run db st :
  connect db st
  = (Ok (connects db),
     State (if is_ok (new_client db) then true else client st)
           (listed st) (inserts st)
           (trace st
            ++ [if connects db then Log Info "Connected to MongoDB Atlas"
                else Log Error "Error connecting to MongoDB Atlas"])).
Proof.
  unfold connect, connects, try_except, bind, call, modify, log, emit, ret.
  by destruct (new_client db), (ping db).
Qed.

Lemma clear_collection_run db st :
  clear_collection db st
  = (Ok (is_ok (delete_many db)),
     State (client st) (listed st) (inserts st)
           (trace st
            ++ [Deleted;
                if is_ok (delete_many db) then Log Info "Cleared collection"
                else Log Error "Error clearing collection"])).
Proof.
  unfold clear_collection, try_except, bind, call, modify, log, emit, ret.
  destruct (delete_many db); simpl; by rewrite <- app_assoc.
Qed.

Lemma disconnect_run st :
  disconnect st
  = (Ok (), State (client st) (listed st) (inserts st)
                  (trace st ++ closing (client st))).
Proof.
  unfold disconnect, closing, bind, gets, log, emit, modify, ret.
  destruct st as [[|] l i tr]; simpl; [by rewrite <- app_assoc|].
  by rewrite app_nil_r.
Qed.

(** The trace of an upload on a connector in any state: what was there,
    the opening, the effects of what comes between the clearing and the
    closing, the closing of the client the connector then holds. *)
Lemma upload_frame_run_from (Q : event -> Prop) db clear_first (rest : M nat)
    (st0 : state) :
  (∀ lvl msg, Q (Log lvl msg)) -> emits Q rest -> keeps client rest ->
  ∃ tr,
    Forall Q tr
    ∧ (connects db = false -> tr = [])
    ∧ trace (upload_frame db clear_first rest st0).2
      = trace st0 ++ opening db clear_first ++ tr
        ++ closing (is_ok (new_client db) || client st0).
Proof.
  intros HQ Hemits Hkeeps.
  unfold upload_frame, try_finally, try_except at 1, bind at 1.
  rewrite connect_run. unfold opening.
  destruct (connects db) eqn:Hconn; cbn [negb]; cbv iota.
  2:{ unfold ret at 1. rewrite disconnect_run. cbn [trace client].
      exists []. split_and!; [done | done |].
      rewrite <- app_assoc. by destruct (is_ok (new_client db)). }
  assert (is_ok (new_client db) = true) as Hnew.
  { unfold connects in Hconn. by apply andb_true_iff in Hconn as [? _]. }
  rewrite Hnew. unfold bind at 1.
  set (st1 := State true _ _ _).
  assert (∃ st2,
    (if clear_first then bind (clear_collection db) (λ _, ret ()) else ret ())
      st1 = (Ok (), st2)
    ∧ client st2 = true
    ∧ trace st2
      = trace st0
        ++ Log Info "Connected to MongoDB Atlas"
           :: (if clear_first then
                 [Deleted;
                  if is_ok (delete_many db) then Log Info "Cleared collection"
                  else Log Error "Error clearing collection"]
               else [])) as (st2 & -> & Hc2 & Ht2).
  { destruct clear_first.
    - unfold bind. rewrite clear_collection_run. eexists. split; [done|].
      split; [done|]. subst st1. cbn [trace]. by rewrite <- app_assoc.
    - eexists. split; [done|]. done. }
  destruct (Hemits st2) as (tr & Htr & Hall).
  specialize (Hkeeps st2).
  destruct (rest st2) as [[n|e] st3]; cbn [fst snd] in *.
  - rewrite disconnect_run. cbn [trace]. exists tr.
    split_and!; [done | done |].
    rewrite Htr, Ht2, Hkeeps, Hc2. cbn [orb]. by rewrite <- !app_assoc.
  - unfold bind, log, emit, modify, ret. cbn [fst snd].
    rewrite disconnect_run. cbn [trace client].
    exists (tr ++ [Log Error "Error uploading documents"]).
    split_and!; [apply Forall_app; split; [done | by constructor] | done |].
    rewrite Htr, Ht2, Hkeeps, Hc2. cbn [orb]. by rewrite <- !app_assoc.
Qed.

(** The same on a connector on which no method was called yet. *)
Lemma upload_frame_run (Q : event -> Prop) db clear_first (rest : M nat) :
  (∀ lvl msg, Q (Log lvl msg)) -> emits Q rest -> keeps client rest ->
  ∃ tr,
    Forall Q tr
    ∧ (connects db = false -> tr = [])
    ∧ trace (upload_frame db clear_first rest init).2
      = opening db clear_first ++ tr ++ closing (is_ok (new_client db)).
Proof.
  intros HQ Hemits Hkeeps.
  destruct (upload_frame_run_from Q db clear_first rest init HQ Hemits Hkeeps)
    as (tr & Hall & Hnil & Htr).
  exists tr. split_and!; [done | done |].
  rewrite Htr. cbn [trace client init]. by rewrite orb_false_r.
Qed.

Lemma deletes_app tr1 tr2 : deletes (tr1 ++ tr2) = (deletes tr1 + deletes tr2)%nat.
Proof. unfold deletes. by rewrite omap_app, length_app. Qed.

Lemma deletes_none tr : Forall (λ ev, ev ≠ Deleted) tr -> deletes tr = 0%nat.
Proof.
  unfold deletes. induction 1 as [|ev tr Hev _ IH]; [done|].
  simpl. by destruct ev.
Qed.

Lemma inserted_none tr :
  Forall (λ ev, ∀ b r, ev ≠ Insert b r) tr -> inserted tr = [].
Proof.
  unfold inserted. induction 1 as [|ev tr Hev _ IH]; [done|].
  simpl. destruct ev; try done. by destruct (Hev batch result).
Qed.

(** X20.  Both [upload_documents], on a connector on which no method was
    called yet or on one used before, close the client the connector holds
    at the end of the call (the client built in this call or, when none
    could be built, the one an earlier call left, which [disconnect]
    never resets) as the very last store operation, whether the upload
    went through, found no connection, or failed half way, and do not
    close it before that; on a connector that holds no client and cannot
    build one, nothing is closed. *)
Theorem client_is_closed_last (db : store) (index_name : string)
    (documents : list doc) (batch_size : Z) (clear_first : bool)
    (st0 : state) :
  (∃ tr,
     trace (Connector.upload_documents_body db index_name documents batch_size
                                            clear_first st0).2
     = trace st0 ++ tr ++ closing (is_ok (new_client db) || client st0)
     ∧ Forall (λ ev, ev ≠ Closed) tr)
  ∧ (∃ tr,
       trace (LegacyConnector.upload_documents_body db index_name documents
                                                    batch_size clear_first
                                                    st0).2
       = trace st0 ++ tr ++ closing (is_ok (new_client db) || client st0)
       ∧ Forall (λ ev, ev ≠ Closed) tr).
Proof.
  assert (Forall (λ ev, ev ≠ Closed) (opening db clear_first)) as Hopen.
  { unfold opening. destruct (connects db), clear_first,
      (is_ok (delete_many db)); repeat constructor; discriminate. }
  split.
  - rewrite connector_frame.
    destruct (upload_frame_run_from (λ ev, ev ≠ Closed) db clear_first
                (index_then_upload db index_name documents batch_size) st0)
      as (tr & Hall & _ & ->).
    + discriminate.
    + apply emits_index_then_upload; discriminate.
    + apply keeps_client_index_then_upload.
    + exists (opening db clear_first ++ tr). rewrite <- !app_assoc.
      split; [done | by apply Forall_app].
  - rewrite legacy_connector_frame.
    destruct (upload_frame_run_from (λ ev, ev ≠ Closed) db clear_first
                (legacy_index_then_upload db index_name documents batch_size)
                st0)
      as (tr & Hall & _ & ->).
    + discriminate.
    + apply emits_legacy_index_then_upload; discriminate.
    + apply keeps_client_legacy_index_then_upload.
    + exists (opening db clear_first ++ tr). rewrite <- !app_assoc.
      split; [done | by apply Forall_app].
Qed.

(** X21.  Without a connection nothing is attempted: when the client
    cannot be built or does not answer the ping, both [upload_documents]
    return 0 having logged the error and closed the client if there is
    one; the indexes are not listed, nothing is deleted, nothing is
    inserted. *)
Theorem no_connection_no_upload (db : store) (index_name : string)
    (documents : list doc) (batch_size : Z) (clear_first : bool) :
  connects db = false ->
  let expected :=
    (Ok 0%nat,
     State (is_ok (new_client db)) 0 0
           (Log Error "Error connecting to MongoDB Atlas"
              :: closing (is_ok (new_client db)))) in
  Connector.upload_documents db index_name documents batch_size clear_first
  = expected
  ∧ LegacyConnector.upload_documents db index_name documents batch_size
                                     clear_first
    = expected.
Proof.
  intros Hconn. cbn zeta.
  assert (∀ rest, upload_frame db clear_first rest init
                  = (Ok 0%nat,
                     State (is_ok (new_client db)) 0 0
                           (Log Error "Error connecting to MongoDB Atlas"
                              :: closing (is_ok (new_client db))))) as H.
  { intros rest. unfold upload_frame, try_finally, try_except, bind at 1.
    rewrite connect_run, Hconn. cbn [negb]. cbv iota. unfold ret at 1.
    rewrite disconnect_run. cbn [client trace listed inserts init].
    by destruct (is_ok (new_client db)). }
  unfold Connector.upload_documents, LegacyConnector.upload_documents.
  by rewrite connector_frame, legacy_connector_frame, !H.
Qed.

Lemma no_connection_no_upload_witness :
  let db := Store (Ok ()) (Raise (Exn OtherError "ServerSelectionTimeoutError"))
                  (λ _, Ok []) (Ok ()) (Ok 0%nat) (λ _ b, Ok (length b)) in
  Connector.upload_documents db "vector_index" three_documents 100 true
  = (Ok 0%nat,
     State true 0 0
           [Log Error "Error connecting to MongoDB Atlas"; Closed;
            Log Info "Disconnected from MongoDB Atlas"])
  ∧ LegacyConnector.upload_documents db "vector_index" three_documents 100
                                     true
    = (Ok 0%nat,
       State true 0 0
             [Log Error "Error connecting to MongoDB Atlas"; Closed;
              Log Info "Disconnected from MongoDB Atlas"]).
Proof.
  intros db.
  apply (no_connection_no_upload db "vector_index" three_documents 100 true).
  reflexivity.
Defined.

(** The trace of an upload is its opening followed by effects among
    which there is no [delete_many]. *)
Lemma upload_frame_deletes db clear_first (rest : M nat) :
  emits (λ ev, ev ≠ Deleted) rest -> keeps client rest ->
  (∃ tr, trace (upload_frame db clear_first rest init).2
         = opening db clear_first ++ tr
         ∧ Forall (λ ev, ev ≠ Deleted) tr)
  ∧ deletes (trace (upload_frame db clear_first rest init).2)
    = (if connects db && clear_first then 1 else 0)%nat.
Proof.
  intros Hemits Hkeeps.
  assert (deletes (opening db clear_first)
          = (if connects db && clear_first then 1 else 0)%nat) as Hdel.
  { unfold opening. by destruct (connects db), clear_first,
      (is_ok (delete_many db)). }
  assert (Forall (λ ev, ev ≠ Deleted) (closing (is_ok (new_client db))))
    as Hclose.
  { unfold closing. destruct (is_ok _); repeat constructor; discriminate. }
  destruct (upload_frame_run (λ ev, ev ≠ Deleted) db clear_first rest)
    as (tr & Hall & _ & ->); [discriminate | done | done |].
  split.
  - exists (tr ++ closing (is_ok (new_client db))).
    split; [done | by apply Forall_app].
  - rewrite !deletes_app, Hdel, !deletes_none by done. lia.
Qed.

Lemma upload_deletes db index_name documents batch_size clear_first :
  deletes (trace (Connector.upload_documents db index_name documents
                    batch_size clear_first).2)
  = (if connects db && clear_first then 1 else 0)%nat
  ∧ deletes (trace (LegacyConnector.upload_documents db index_name documents
                      batch_size clear_first).2)
    = (if connects db && clear_first then 1 else 0)%nat.
Proof.
  unfold Connector.upload_documents, LegacyConnector.upload_documents.
  rewrite connector_frame, legacy_connector_frame. split.
  - apply upload_frame_deletes; [apply emits_index_then_upload; discriminate
                                |apply keeps_client_index_then_upload].
  - apply upload_frame_deletes;
      [apply emits_legacy_index_then_upload; discriminate
      |apply keeps_client_legacy_index_then_upload].
Qed.

(** X22.  The collection is cleared at most once, only on request and
    only over an established connection, and before anything is inserted:
    the trace of an upload is its opening, which holds the one
    [delete_many] if there is one and no insert, followed by effects among
    which there is no [delete_many]. *)
Theorem clearing_precedes_inserts (db : store) (index_name : string)
    (documents : list doc) (batch_size : Z) (clear_first : bool) :
  let run := Connector.upload_documents db index_name documents batch_size
                                        clear_first in
  let legacy := LegacyConnector.upload_documents db index_name documents
                                                 batch_size clear_first in
  inserted (opening db clear_first) = []
  ∧ deletes (opening db clear_first)
    = (if connects db && clear_first then 1 else 0)%nat
  ∧ (∃ tr, trace run.2 = opening db clear_first ++ tr
           ∧ Forall (λ ev, ev ≠ Deleted) tr)
  ∧ (∃ tr, trace legacy.2 = opening db clear_first ++ tr
           ∧ Forall (λ ev, ev ≠ Deleted) tr).
Proof.
  cbn zeta. split_and!.
  - unfold opening. by destruct (connects db), clear_first,
      (is_ok (delete_many db)).
  - unfold opening. by destruct (connects db), clear_first,
      (is_ok (delete_many db)).
  - unfold Connector.upload_documents. rewrite connector_frame.
    apply upload_frame_deletes; [apply emits_index_then_upload; discriminate
                                |apply keeps_client_index_then_upload].
  - unfold LegacyConnector.upload_documents. rewrite legacy_connector_frame.
    apply upload_frame_deletes;
      [apply emits_legacy_index_then_upload; discriminate
      |apply keeps_client_legacy_index_then_upload].
Qed.

End TraceFacts.

Module BatchFacts.
Import PyM Mongo UploadSpec UploadInv ConnectorFiles Scenarios MoreScenarios
  UploadFacts TraceFacts.
Local Open Scope py_scope.

Lemma uploaded_batches_fst db (documents : list doc) batch_size starts :
  ∀ k, (uploaded_batches db documents batch_size k starts).*1
       = (λ i, slice documents i batch_size) <$> starts.
Proof.
  induction starts as [|i starts IH]; intros k; simpl; [done|].
  by rewrite IH.
Qed.

(** The slices of [range(0, len(l), s)] put end to end. *)
Lemma concat_slices {A} (l : list A) (s : nat) n :
  (0 < s)%nat ->
  concat ((λ i, slice l i (Z.of_nat s)) <$> ((λ k, k * s)%nat <$> seq 0 n))
  = take (n * s) l.
Proof.
  intros Hs. induction n as [|n IH]; [done|].
  rewrite seq_S, !fmap_app, concat_app, IH. simpl.
  rewrite app_nil_r. unfold slice. rewrite Nat2Z.id, take_take_drop.
  f_equal. lia.
Qed.

Lemma range_step_pos (len : nat) (batch_size : Z) :
  0 < batch_size ->
  range_step len batch_size
  = Ok ((λ k, k * Z.to_nat batch_size)%nat
          <$> seq 0 ((len + Z.to_nat batch_size - 1) / Z.to_nat batch_size)).
Proof. intros H. unfold range_step. by rewrite !decide_False by lia. Qed.

Lemma batches_cover (len s : nat) :
  (0 < s)%nat -> (len <= (len + s - 1) / s * s)%nat.
Proof.
  intros Hs.
  pose proof (Nat.div_mod (len + s - 1) s ltac:(lia)).
  pose proof (Nat.mod_upper_bound (len + s - 1) s ltac:(lia)).
  nia.
Qed.

Lemma batches_tight (len s k : nat) :
  (0 < s)%nat -> (k < (len + s - 1) / s)%nat -> (k * s < len)%nat.
Proof.
  intros Hs Hk.
  pose proof (Nat.div_mod (len + s - 1) s ltac:(lia)).
  pose proof (Nat.mod_upper_bound (len + s - 1) s ltac:(lia)).
  nia.
Qed.

(** The batches of an upload over an established connection. *)
Lemma expected_batches_tile db (documents : list doc) batch_size :
  connects db = true -> 0 < batch_size ->
  concat (expected_batches db documents batch_size).*1 = documents
  ∧ Forall (λ b : list doc, (0 < length b <= Z.to_nat batch_size)%nat)
           (expected_batches db documents batch_size).*1
  ∧ length (expected_batches db documents batch_size)
    = ((length documents + Z.to_nat batch_size - 1) / Z.to_nat batch_size)%nat.
Proof.
  intros Hconn Hbs. unfold expected_batches.
  rewrite Hconn, range_step_pos by done.
  rewrite uploaded_batches_fst.
  set (s := Z.to_nat batch_size). assert (0 < s)%nat by lia.
  replace batch_size with (Z.of_nat s) by lia.
  split_and!.
  - rewrite concat_slices by done. apply take_ge. by apply batches_cover.
  - apply Forall_fmap, Forall_fmap, Forall_forall.
    intros k [_ Hk]%elem_of_seq. simpl in *. unfold slice.
    rewrite length_take, length_drop, Nat2Z.id.
    pose proof (batches_tight (length documents) s k ltac:(done) ltac:(lia)).
    lia.
  - rewrite <- (length_fmap fst), uploaded_batches_fst.
    by rewrite !length_fmap, length_seq.
Qed.

(** X23.  Over an established connection and with a positive batch size,
    every document is handed to [insert_many] exactly once and in order,
    whether earlier batches failed or not: the batches put end to end are
    the documents; no batch is empty or longer than the batch size. *)
Theorem every_document_is_offered_once (db : store) (index_name : string)
    (documents : list doc) (batch_size : Z) (clear_first : bool) :
  connects db = true -> 0 < batch_size ->
  let batches := (inserted (trace (Connector.upload_documents db index_name
                    documents batch_size clear_first).2)).*1 in
  let legacy := (inserted (trace (LegacyConnector.upload_documents db
                    index_name documents batch_size clear_first).2)).*1 in
  concat batches = documents
  ∧ Forall (λ b : list doc, (0 < length b <= Z.to_nat batch_size)%nat) batches
  ∧ length batches
    = ((length documents + Z.to_nat batch_size - 1) / Z.to_nat batch_size)%nat
  ∧ legacy = if index_ready db index_name then batches else [].
Proof.
  intros Hconn Hbs. cbn zeta.
  destruct (upload_documents_spec db index_name documents batch_size
              clear_first) as (st & Hrun & Hins).
  destruct (legacy_upload_documents_spec db index_name documents batch_size
              clear_first) as (st' & Hrun' & Hins').
  rewrite Hrun, Hrun'. cbn [snd]. rewrite Hins, Hins'.
  destruct (expected_batches_tile db documents batch_size Hconn Hbs)
    as (Hcat & Hall & Hlen).
  rewrite length_fmap. split_and!; [done | done | done |].
  by destruct (index_ready db index_name).
Qed.

Lemma every_document_is_offered_once_witness :
  let batches := (inserted (trace (Connector.upload_documents flaky_store
                    "vector_index" documents_250 100 false).2)).*1 in
  concat batches = documents_250
  ∧ Forall (λ b : list doc, (0 < length b <= 100)%nat) batches
  ∧ length batches = 3%nat.
Proof.
  intros batches.
  destruct (every_document_is_offered_once flaky_store "vector_index"
              documents_250 100 false) as (Hcat & Hall & Hlen & _);
    [reflexivity | lia |].
  split; [exact Hcat|]. split; [exact Hall | exact Hlen].
Defined.

Lemma uploaded_total_le db (documents : list doc) batch_size starts :
  (∀ k batch n, insert_many db k batch = Ok n -> (n <= length batch)%nat) ->
  ∀ k, (uploaded_total db documents batch_size k starts
        <= length (concat ((λ i, slice documents i batch_size) <$> starts)))%nat.
Proof.
  intros Hle. induction starts as [|i starts IH]; intros k; simpl; [done|].
  rewrite length_app. apply Nat.add_le_mono; [|apply IH].
  destruct (insert_many db k _) as [n|e] eqn:Hins; [|lia].
  by apply Hle in Hins.
Qed.

Lemma uploaded_total_all db (documents : list doc) batch_size starts :
  (∀ k batch, insert_many db k batch = Ok (length batch)) ->
  ∀ k, uploaded_total db documents batch_size k starts
       = length (concat ((λ i, slice documents i batch_size) <$> starts)).
Proof.
  intros Hall. induction starts as [|i starts IH]; intros k; simpl; [done|].
  rewrite length_app, Hall. f_equal. apply IH.
Qed.

(** X24.  The total returned by [upload_documents] of nba/connector.py.
    When each [insert_many] reports at most as many identifiers as it was
    given documents, the total is at most the number of documents; when
    every [insert_many] inserts its whole batch, the total is the number of
    documents. *)
Theorem uploaded_total_is_bounded (db : store) (index_name : string)
    (documents : list doc) (batch_size : Z) (clear_first : bool) :
  connects db = true -> 0 < batch_size ->
  let run := Connector.upload_documents db index_name documents batch_size
                                        clear_first in
  ((∀ k batch n, insert_many db k batch = Ok n -> (n <= length batch)%nat) ->
   ∃ total, run.1 = Ok total ∧ (total <= length documents)%nat)
  ∧ ((∀ k batch, insert_many db k batch = Ok (length batch)) ->
     run.1 = Ok (length documents)).
Proof.
  intros Hconn Hbs. cbn zeta.
  destruct (upload_documents_spec db index_name documents batch_size
              clear_first) as (st & -> & _). cbn [fst].
  unfold expected_total. rewrite Hconn, range_step_pos by done.
  set (s := Z.to_nat batch_size). assert (0 < s)%nat by lia.
  assert (length (concat ((λ i, slice documents i batch_size)
            <$> ((λ k, k * s)%nat
                   <$> seq 0 ((length documents + s - 1) / s))))
          = length documents) as Hlen.
  { replace batch_size with (Z.of_nat s) by lia.
    rewrite concat_slices by done. f_equal. apply take_ge.
    by apply batches_cover. }
  set (starts := (λ k, k * s)%nat <$> seq 0 ((length documents + s - 1) / s))
    in *.
  split.
  - intros Hle. eexists. split; [done|].
    pose proof (uploaded_total_le db documents batch_size starts Hle 0) as Hb.
    by rewrite Hlen in Hb.
  - intros Hall. f_equal.
    by rewrite (uploaded_total_all db documents batch_size starts Hall 0).
Qed.

Lemma uploaded_total_is_bounded_witness :
  (Connector.upload_documents indexed_store "vector_index" documents_250 100
                              false).1
  = Ok 250%nat.
Proof.
  apply (proj2 (uploaded_total_is_bounded indexed_store "vector_index"
                  documents_250 100 false eq_refl ltac:(lia))).
  reflexivity.
Defined.

Lemma expected_nothing db (documents : list doc) batch_size :
  batch_size <= 0 ∨ documents = [] ->
  expected_total db documents batch_size = 0%nat
  ∧ expected_batches db documents batch_size = [].
Proof.
  intros Hdeg. unfold expected_total, expected_batches.
  destruct (connects db); [|done].
  destruct (decide (batch_size <= 0)) as [Hbs|Hbs].
  - unfold range_step. case_decide; [done|]. by rewrite decide_True by lia.
  - destruct Hdeg as [?| ->]; [lia|].
    rewrite range_step_pos by lia. simpl.
    rewrite Nat.div_small by lia. done.
Qed.

(** X25.  With nothing to send, an empty list of documents, or a batch
    size of zero or less, both [upload_documents] return 0 and insert
    nothing; a batch size of zero does not raise, the [ValueError] of
    [range] being caught.  The connection is still made, and the
    collection still cleared when asked. *)
Theorem nothing_to_upload (db : store) (index_name : string)
    (documents : list doc) (batch_size : Z) (clear_first : bool) :
  batch_size <= 0 ∨ documents = [] ->
  let run := Connector.upload_documents db index_name documents batch_size
                                        clear_first in
  let legacy := LegacyConnector.upload_documents db index_name documents
                                                 batch_size clear_first in
  run.1 = Ok 0%nat ∧ inserted (trace run.2) = []
  ∧ legacy.1 = Ok 0%nat ∧ inserted (trace legacy.2) = []
  ∧ deletes (trace run.2) = (if connects db && clear_first then 1 else 0)%nat.
Proof.
  intros Hdeg. cbn zeta.
  destruct (expected_nothing db documents batch_size Hdeg) as [Ht Hb].
  destruct (upload_documents_spec db index_name documents batch_size
              clear_first) as (st & Hrun & Hins).
  destruct (legacy_upload_documents_spec db index_name documents batch_size
              clear_first) as (st' & Hrun' & Hins').
  destruct (upload_deletes db index_name documents batch_size clear_first)
    as [Hdel _].
  rewrite Hdel, Hrun, Hrun'. cbn [fst snd]. rewrite Hins, Hins', Ht, Hb.
  by destruct (index_ready db index_name).
Qed.

Lemma nothing_to_upload_witness :
  let run := Connector.upload_documents indexed_store "vector_index"
                                        three_documents 0 true in
  let legacy := LegacyConnector.upload_documents indexed_store "vector_index"
                                                 [] 100 true in
  run.1 = Ok 0%nat ∧ inserted (trace run.2) = []
  ∧ deletes (trace run.2) = 1%nat
  ∧ legacy.1 = Ok 0%nat ∧ inserted (trace legacy.2) = [].
Proof.
  intros run legacy.
  destruct (nothing_to_upload indexed_store "vector_index" three_documents 0
              true) as (H1 & H2 & _ & _ & H3); [left; lia|].
  destruct (nothing_to_upload indexed_store "vector_index" [] 100 true)
    as (_ & _ & H4 & H5 & _); [by right|].
  split; [exact H1|]. split; [exact H2|]. split; [exact H3|].
  split; [exact H4 | exact H5].
Defined.

End BatchFacts.

Module FileUploadFacts.
Import PyM Mongo UploadSpec UploadInv ConnectorFiles Scenarios MoreScenarios
  UploadFacts TraceFacts.
Local Open Scope py_scope.

Lemma expected_total_with_delete db dm documents batch_size :
  expected_total (with_delete_behaviour db dm) documents batch_size
  = expected_total db documents batch_size.
Proof.
  unfold expected_total, connects. simpl.
  destruct (_ && _); [|done]. destruct (range_step _ _) as [starts|]; [|done].
  generalize 0%nat. induction starts as [|i starts IH]; intros k; simpl; [done|].
  by rewrite IH.
Qed.

Lemma expected_batches_with_delete db dm documents batch_size :
  expected_batches (with_delete_behaviour db dm) documents batch_size
  = expected_batches db documents batch_size.
Proof.
  unfold expected_batches, connects. simpl.
  destruct (_ && _); [|done]. destruct (range_step _ _) as [starts|]; [|done].
  generalize 0%nat. induction starts as [|i starts IH]; intros k; simpl; [done|].
  by rewrite IH.
Qed.

(** X26.  The clearing of the collection has no influence on the upload:
    whether it is asked for or not, and whether [delete_many] succeeds or
    raises, both [upload_documents] return the same total and insert the
    same batches.  A failed clearing is logged and otherwise ignored. *)
Theorem failed_clear_is_ignored (db : store) (dm : outcome nat)
    (index_name : string) (documents : list doc) (batch_size : Z)
    (clear_first clear_first' : bool) :
  (let run := Connector.upload_documents db index_name documents batch_size
                                         clear_first in
   let run' := Connector.upload_documents (with_delete_behaviour db dm)
                 index_name documents batch_size clear_first' in
   run'.1 = run.1 ∧ inserted (trace run'.2) = inserted (trace run.2))
  ∧ (let run := LegacyConnector.upload_documents db index_name documents
                                                 batch_size clear_first in
     let run' := LegacyConnector.upload_documents
                   (with_delete_behaviour db dm) index_name documents
                   batch_size clear_first' in
     run'.1 = run.1 ∧ inserted (trace run'.2) = inserted (trace run.2)).
Proof.
  split; cbn zeta.
  - destruct (upload_documents_spec db index_name documents batch_size
                clear_first) as (st & Hrun & Htr).
    destruct (upload_documents_spec (with_delete_behaviour db dm) index_name
                documents batch_size clear_first') as (st' & Hrun' & Htr').
    rewrite Hrun, Hrun'. cbn [fst snd]. rewrite Htr, Htr'.
    by rewrite expected_total_with_delete, expected_batches_with_delete.
  - destruct (legacy_upload_documents_spec db index_name documents batch_size
                clear_first) as (st & Hrun & Htr).
    destruct (legacy_upload_documents_spec (with_delete_behaviour db dm)
                index_name documents batch_size clear_first')
      as (st' & Hrun' & Htr').
    rewrite Hrun, Hrun'. cbn [fst snd]. rewrite Htr, Htr'.
    rewrite expected_total_with_delete, expected_batches_with_delete.
    done.
Qed.

(** X27.  [create_vector_index] lists the indexes once and asks for the
    creation of the index exactly when the listing does not show it; it
    returns [True] when the index was found or its creation went through,
    and [False], never an exception, otherwise. *)
Theorem index_is_created_only_when_missing (db : store)
    (index_name : string) (st : state) :
  let found := index_found db index_name (listed st) in
  let r := create_vector_index db index_name st in
  r.1 = Ok (found || is_ok (create_search_index db))
  ∧ listed r.2 = S (listed st)
  ∧ ∃ log1 log2,
      is_log log1 ∧ is_log log2
      ∧ trace r.2
        = trace st ++ [Listed; log1]
          ++ (if found then [] else [CreatedIndex; log2]).
Proof.
  cbn zeta.
  unfold create_vector_index, check_vector_index, index_found, try_except,
    bind, call, gets, modify, log, emit, ret. simpl.
  destruct (list_indexes db (listed st)) as [names|e]; simpl.
  - destruct (has_index index_name names); simpl.
    + split_and!; [done..|].
      exists (Log Info "Vector index exists"), (Log Info "Vector index exists").
      split_and!; [done..|]. by rewrite <- app_assoc.
    + destruct (create_search_index db); simpl;
        (split_and!; [done..|]; eexists _, _; split_and!; cycle 2;
         [rewrite <- !app_assoc; reflexivity | exact I | exact I]).
  - destruct (create_search_index db); simpl;
      (split_and!; [done..|]; eexists _, _; split_and!; cycle 2;
       [rewrite <- !app_assoc; reflexivity | exact I | exact I]).
Qed.

(** *** Uploading from a file *)

(** [upload_documents] of nba/connector.py from any state in which
    nothing has been inserted yet. *)
Lemma upload_documents_body_spec db index_name documents batch_size
    clear_first st0 :
  inserts st0 = 0%nat -> inserted (trace st0) = [] ->
  ∃ st,
    Connector.upload_documents_body db index_name documents batch_size
                                    clear_first st0
    = (Ok (expected_total db documents batch_size), st)
    ∧ inserted (trace st) = expected_batches db documents batch_size.
Proof.
  intros Hi0 Ht0.
  unfold Connector.upload_documents_body.
  unfold expected_total, expected_batches.
  change (bind (batch_starts documents batch_size) _)
    with (upload_loop db documents batch_size).
  unfold try_finally, try_except at 1, bind at 1.
  destruct (quiet_run (connect db) st0 (quiet_connect db))
    as (c & st1 & Hc & Hi1 & Ht1).
  pose proof (connect_value db st0) as Hv. rewrite Hc in Hv.
  injection Hv as ->. rewrite Hc.
  destruct (connects db); cbn [negb]; cbv iota.
  2:{ unfold ret at 1. run_disconnect. by rewrite Ht1. }
  unfold bind at 1.
  destruct (quiet_run
    (if clear_first then bind (clear_collection db) (λ _, ret ()) else ret ())
    st1) as ([] & st2 & -> & Hi2 & Ht2).
  { destruct clear_first; [|apply quiet_ret].
    apply quiet_bind; [apply quiet_clear_collection | intros; apply quiet_ret]. }
  unfold bind at 1.
  destruct (quiet_run
    (try_except
       (bind (check_vector_index db index_name)
          (λ _, bind (create_vector_index db index_name) (λ _, ret ())))
       (λ _, log Warning "Ignoring vector index error")) st2)
    as ([] & st3 & -> & Hi3 & Ht3).
  { apply quiet_try_except; [|intros; apply quiet_log].
    apply quiet_calm, quiet_bind; [apply quiet_check_vector_index|].
    intros _. apply quiet_bind; [apply quiet_create_vector_index|].
    intros; apply quiet_ret. }
  destruct (upload_loop_spec db documents batch_size st3)
    as (r & st4 & -> & Hloop); [simpl in *; congruence..|].
  destruct (range_step _ _) as [starts|e]; destruct Hloop as [-> Htr4].
  - by run_disconnect.
  - unfold bind at 1. simpl. run_disconnect.
    simpl. by rewrite inserted_app, Htr4.
Qed.

(** [upload_file] step by step. *)
Lemma upload_file_eq dk db index_name data_dir filename clear_first st0 :
  upload_file dk db index_name data_dir filename clear_first st0
  = let p := path_join dk data_dir filename in
    let st1 :=
      if file_exists dk p then st0
      else (log Error "File not found, trying current directory" st0).2 in
    let abs_path := if file_exists dk p then p else filename in
    let st2 := (log Info "Attempting to upload from file" st1).2 in
    if file_exists dk abs_path then
      match read_json dk abs_path with
      | Raise _ => (Ok 0%nat, (log Error "Error uploading file" st2).2)
      | Ok None =>
          (Ok 0%nat,
           (log Error "File does not contain a list of documents" st2).2)
      | Ok (Some []) => (Ok 0%nat, (log Warning "No documents found" st2).2)
      | Ok (Some (d :: documents)) =>
          match Connector.upload_documents_body db index_name (d :: documents)
                  100 clear_first st2 with
          | (Ok n, st) => (Ok n, st)
          | (Raise _, st) => (Ok 0%nat, (log Error "Error uploading file" st).2)
          end
      end
    else (Ok 0%nat, (log Error "File not found. Aborting upload." st2).2).
Proof.
  cbn zeta. unfold upload_file, try_except at 1, bind at 1.
  destruct (file_exists dk (path_join dk data_dir filename)) eqn:Hp;
    cbn [negb]; cbv iota.
  - unfold ret at 1, bind at 1. cbn [fst snd].
    destruct (log Info "Attempting to upload from file" st0) as [[[]|?] st2]
      eqn:Hlog; [|done]. cbn [fst snd].
    rewrite Hp. cbn [negb]. cbv iota. unfold bind at 1, call at 1.
    by destruct (read_json dk _) as [[[|d documents]|]|e].
  - unfold bind at 1, bind at 1.
    destruct (log Error "File not found, trying current directory" st0)
      as [[[]|?] st1] eqn:Hlog1; [|done]. cbn [fst snd].
    unfold ret at 1, bind at 1.
    destruct (log Info "Attempting to upload from file" st1) as [[[]|?] st2]
      eqn:Hlog; [|done]. cbn [fst snd].
    destruct (file_exists dk filename); cbn [negb]; cbv iota; [|done].
    unfold bind at 1, call at 1.
    by destruct (read_json dk _) as [[[|d documents]|]|e].
Qed.

(** The two ways [upload_file] ends on a connector that has not been
    used: without touching the store, or as [upload_documents] on the
    documents of the chosen file. *)
Lemma upload_file_run dk db index_name data_dir filename clear_first st0 :
  client st0 = false -> listed st0 = 0%nat -> inserts st0 = 0%nat ->
  Forall is_log (trace st0) ->
  ∃ st,
    upload_file dk db index_name data_dir filename clear_first st0
    = (Ok (match documents_of dk data_dir filename with
           | Some documents => expected_total db documents 100
           | None => 0%nat
           end), st)
    ∧ match documents_of dk data_dir filename with
      | Some documents =>
          inserted (trace st) = expected_batches db documents 100
      | None =>
          client st = false ∧ listed st = 0%nat ∧ inserts st = 0%nat
          ∧ Forall is_log (trace st)
      end.
Proof.
  intros Hc Hl Hi Hlog. rewrite upload_file_eq. cbn zeta.
  unfold documents_of, chosen_path.
  assert (∀ st ev, Forall is_log (trace st) -> is_log ev ->
                   Forall is_log (trace st ++ [ev])) as Hadd.
  { intros st ev H1 H2. apply Forall_app. split; [done|]. by constructor. }
  assert (∀ st, Forall is_log (trace st) -> inserted (trace st) = [])
    as Hnone.
  { intros st H. induction H as [|ev tr Hev _ IH]; [done|].
    by destruct ev. }
  set (p := path_join dk data_dir filename).
  set (st1 := if file_exists dk p then st0 else _).
  assert (client st1 = false ∧ listed st1 = 0%nat ∧ inserts st1 = 0%nat
          ∧ Forall is_log (trace st1)) as (Hc1 & Hl1 & Hi1 & Hlog1).
  { subst st1. destruct (file_exists dk p); [done|]. simpl.
    split_and!; [done..|]. by apply Hadd. }
  set (st2 := (log Info "Attempting to upload from file" st1).2).
  assert (client st2 = false ∧ listed st2 = 0%nat ∧ inserts st2 = 0%nat
          ∧ Forall is_log (trace st2)) as (Hc2 & Hl2 & Hi2 & Hlog2).
  { subst st2. simpl. split_and!; [done..|]. by apply Hadd. }
  clearbody st2. clear st1 Hc1 Hl1 Hi1 Hlog1.
  set (abs_path := if file_exists dk p then p else filename).
  assert (match (if file_exists dk p then Some p
                 else if file_exists dk filename then Some filename
                 else None) with
          | Some q => q = abs_path ∧ file_exists dk abs_path = true
          | None => file_exists dk abs_path = false
          end) as Hpath.
  { subst abs_path. destruct (file_exists dk p) eqn:Hp; [done|].
    by destruct (file_exists dk filename) eqn:Hf. }
  destruct (if file_exists dk p then Some p else _) as [q|].
  2:{ rewrite Hpath. eexists. split; [done|]. simpl.
      split_and!; [done..|]. by apply Hadd. }
  destruct Hpath as [-> ->].
  destruct (read_json dk abs_path) as [[[|d documents]|]|e];
    try (eexists; split; [done|]; simpl; split_and!; [done..|];
         by apply Hadd).
  destruct (upload_documents_body_spec db index_name (d :: documents) 100
              clear_first st2 Hi2 (Hnone st2 Hlog2)) as (st & -> & Htr).
  eauto.
Qed.

(** X28.  [upload_file] never raises, and reaches the store only with a
    non-empty list of documents read from the file of the data directory
    or, failing that, of the current directory.  With no such file, a file
    that cannot be read, a file that holds something else than a list, or
    an empty list, it returns 0 without connecting: nothing is listed,
    deleted or inserted.  Otherwise it is [upload_documents] in batches of
    100. *)
Theorem upload_file_guards (dk : disk) (db : store)
    (index_name data_dir filename : string) (clear_first : bool) :
  let r := upload_file dk db index_name data_dir filename clear_first init in
  match documents_of dk data_dir filename with
  | Some documents =>
      r.1 = (Connector.upload_documents db index_name documents 100
                                        clear_first).1
      ∧ inserted (trace r.2)
        = inserted (trace (Connector.upload_documents db index_name documents
                             100 clear_first).2)
  | None =>
      r.1 = Ok 0%nat
      ∧ client r.2 = false ∧ listed r.2 = 0%nat ∧ inserts r.2 = 0%nat
      ∧ Forall is_log (trace r.2)
  end.
Proof.
  cbn zeta.
  destruct (upload_file_run dk db index_name data_dir filename clear_first
              init) as (st & -> & Hst); [done..|]. cbn [fst snd].
  destruct (documents_of dk data_dir filename) as [documents|]; [|done].
  destruct (upload_documents_spec db index_name documents 100 clear_first)
    as (st' & -> & Htr'). cbn [fst snd]. by rewrite Hst, Htr'.
Qed.

(** X29.  [upload_to_database] of the pipeline never raises, and reports
    success exactly when a non-empty list of documents was read from
    [all_embedded_data.json] and at least one document of it was counted as
    inserted: a missing or empty file, a failed connection, or batches
    that all fail make it report failure. *)
Theorem upload_to_database_reports (dk : disk) (db : store)
    (index_name embeddings_dir : string) (clear_first : bool) :
  (upload_to_database dk db index_name embeddings_dir clear_first init).1
  = Ok (match documents_of dk embeddings_dir "all_embedded_data.json" with
        | Some documents =>
            bool_decide (0 < expected_total db documents 100)%nat
        | None => false
        end).
Proof.
  unfold upload_to_database, upload_combined_file, try_except at 1,
    bind at 1.
  destruct (log Info "Starting database upload" init) as [[[]|?] st0] eqn:Hlog;
    [|done].
  assert (client st0 = false ∧ listed st0 = 0%nat ∧ inserts st0 = 0%nat
          ∧ Forall is_log (trace st0)) as (Hc & Hl & Hi & Hlogs).
  { injection Hlog as <-. split_and!; [done..|]. by repeat constructor. }
  unfold bind at 1, try_except at 1.
  destruct (upload_file_run dk db index_name embeddings_dir
              "all_embedded_data.json" clear_first st0 Hc Hl Hi Hlogs)
    as (st & Hrun & _).
  rewrite Hrun.
  destruct (documents_of _ _ _) as [documents|].
  - case_decide.
    + by rewrite bool_decide_eq_true_2.
    + by rewrite bool_decide_eq_false_2.
  - by rewrite decide_False by lia.
Qed.

End FileUploadFacts.
